(** * mapbox-gl-native: wire-format decoder, tile lifecycle, request
      coalescing and style-bucket parsing

    A shallow embedding of
    - [include/llmr/util/pbf.hpp]: the protocol-buffer cursor [llmr::pbf],
    - [include/llmr/map/tile_data.hpp]: the lifecycle states of [TileData],
    - [include/mbgl/storage/caching_http_file_source.hpp]: the pending table
      of [CachingHTTPFileSource],
    - [src/mbgl/style/style_parser.cpp]: [StyleParser::parseBucket],
    followed by the properties proved about them. *)

From Stdlib Require Import ZArith List Bool Lia.
From Stdlib.Strings Require Import String Ascii Byte.
From stdpp Require Import gmap strings list.
Import ListNotations.

(* ===================================================================== *)
(** * Part I: definitions                                                 *)
(* ===================================================================== *)

(** ** Fixed-width integer types of the C++ source *)

Module CInt.
Local Open Scope Z_scope.

(** An integer type [T] of the source: its width in bits and its
    signedness ([uint32_t] is [{| bits := 32; is_signed := false |}]). *)
Record int_type : Type := IntType { bits : Z; is_signed : bool }.

Definition uint8_t : int_type := IntType 8 false.
Definition uint16_t : int_type := IntType 16 false.
Definition uint32_t : int_type := IntType 32 false.
Definition uint64_t : int_type := IntType 64 false.
Definition int32_t : int_type := IntType 32 true.
Definition int64_t : int_type := IntType 64 true.
(** [int], the type the integral promotions produce. *)
Definition int : int_type := IntType 32 true.

(** Conversion of a mathematical integer to [T]: reduction modulo
    [2^bits], into [0, 2^bits) for an unsigned type and into
    [-2^(bits-1), 2^(bits-1)) for a signed one (two's complement). *)
Definition wrap (T : int_type) (z : Z) : Z :=
  if is_signed T
  then (z + 2 ^ (bits T - 1)) mod 2 ^ bits T - 2 ^ (bits T - 1)
  else z mod 2 ^ bits T.

(** The values of [T]. *)
Definition in_range (T : int_type) (z : Z) : Prop :=
  if is_signed T
  then - 2 ^ (bits T - 1) <= z < 2 ^ (bits T - 1)
  else 0 <= z < 2 ^ bits T.

(** Integral promotion: a type narrower than [int] is promoted to [int]
    before any arithmetic. *)
Definition promote (T : int_type) : int_type :=
  if bits T <? 32 then int else T.

(** What a target does with [x << n] when the count [n] is not below the
    width of the (promoted) left operand.  C++ leaves that undefined, so the
    embedding takes it as a parameter of the platform rather than choosing
    a value: every theorem below holds whatever the platform yields. *)
Class Platform : Type := { oversized_shl : int_type -> Z -> Z -> Z }.

(** A platform that masks the count to the operand's width, as the x86-64
    shift instructions do. *)
Definition masking_platform : Platform :=
  {| oversized_shl := fun P x n => Z.shiftl x (n mod bits P) |}.

(** [x << n] for a left operand [x] of type [T]: computed in the promoted
    type, modulo its width (for a signed operand this is the rule of
    C++20, and what compilers did before it). *)
Definition shl `{Platform} (T : int_type) (x n : Z) : Z :=
  let P := promote T in
  if (0 <=? n) && (n <? bits P)
  then wrap P (Z.shiftl x n)
  else wrap P (oversized_shl P x n).

(** Unary minus on a value of type [T] (in the promoted type). *)
Definition neg (T : int_type) (x : Z) : Z := wrap (promote T) (- x).

(** Congruence modulo [2^w]: agreement on the low [w] bits. *)
Definition eqm (w a b : Z) : Prop := a mod 2 ^ w = b mod 2 ^ w.

End CInt.

(** ** The decoder [llmr::pbf] *)

Module Pbf.
Import CInt.
Local Open Scope Z_scope.

(** [struct exception] and the four exceptions derived from it. *)
Inductive exception : Type :=
| unterminated_varint_exception
| varint_too_long_exception
| unknown_field_type_exception
| end_of_buffer_exception.

(** The decoder object.  [mem] is the memory the pointers point into,
    addressed by offsets; [data] and [end_] are the two pointers (offsets,
    unbounded: a 64-bit pointer does not wrap when a [uint32_t] is added);
    [value] and [tag] are the two [uint32_t] fields.  [trace] is ghost state:
    the offsets dereferenced so far, most recent first. *)
Record pbf : Type := mk_pbf {
  mem : list byte;
  data : Z;
  end_ : Z;
  value : Z;
  tag : Z;
  trace : list Z
}.

(** The constructor [pbf(const unsigned char *data, uint32_t length)] on a
    pointer at offset [base] of the memory [m]; [value] and [tag] are left
    uninitialised by the source and are 0 here. *)
Definition new_pbf (m : list byte) (base length : Z) : pbf :=
  mk_pbf m base (base + wrap uint32_t length) 0 0 [].

(** The byte stored at an offset (memory outside the list reads as 0). *)
Definition load (m : list byte) (p : Z) : Z :=
  if p <? 0 then 0 else Z.of_N (Byte.to_N (nth (Z.to_nat p) m x00)).

(** Outcome of a call: a returned value or a thrown exception. *)
Inductive result (A : Type) : Type :=
| Ok (a : A)
| Throw (e : exception).
Arguments Ok {A} a.
Arguments Throw {A} e.

(** A member function: from the object to an outcome and the object as the
    call leaves it (also when it throws). *)
Definition M (A : Type) : Type := pbf -> result A * pbf.

Definition ret {A} (a : A) : M A := fun s => (Ok a, s).

Definition throw {A} (e : exception) : M A := fun s => (Throw e, s).

Definition bind {A B} (m : M A) (k : A -> M B) : M B :=
  fun s =>
    match m s with
    | (Ok a, s') => k a s'
    | (Throw e, s') => (Throw e, s')
    end.

Notation "'let*' x ':=' m 'in' k" := (bind m (fun x => k))
  (at level 10, x name, m at level 100, k at level 200).

Definition get_data : M Z := fun s => (Ok (data s), s).
Definition get_end : M Z := fun s => (Ok (end_ s), s).
Definition get_value : M Z := fun s => (Ok (value s), s).

Definition set_data (p : Z) : M unit :=
  fun s => (Ok tt, mk_pbf (mem s) p (end_ s) (value s) (tag s) (trace s)).
Definition set_value (v : Z) : M unit :=
  fun s => (Ok tt, mk_pbf (mem s) (data s) (end_ s) v (tag s) (trace s)).
Definition set_tag (t : Z) : M unit :=
  fun s => (Ok tt, mk_pbf (mem s) (data s) (end_ s) (value s) t (trace s)).

(** [*p]: the byte at offset [p], recorded in the trace. *)
Definition deref (p : Z) : M Z :=
  fun s =>
    (Ok (load (mem s) p),
     mk_pbf (mem s) (data s) (end_ s) (value s) (tag s) (p :: trace s)).

(** Reading the [n] bytes at [p, p+n), in increasing order (what
    [std::string(p, n)] and [memcpy(&r, p, n)] do). *)
Fixpoint read_bytes (n : nat) (p : Z) : M (list Z) :=
  match n with
  | O => ret []
  | S n' =>
      let* b := deref p in
      let* bs := read_bytes n' (p + 1) in
      ret (b :: bs)
  end.

(** What reading a byte through a [bool] lvalue, [*(bool * )p], yields.
    The byte 0 is [false] and the byte 1 is [true].  Any other byte is not
    the representation of a [bool]: the read is undefined, and the object
    returned holds the byte as it is, neither [false] nor [true]. *)
Inductive bool_object : Type :=
| BoolValue (b : bool)
| BoolByte (raw : Z).

Definition bool_of_byte (b : Z) : bool_object :=
  if b =? 0 then BoolValue false
  else if b =? 1 then BoolValue true
  else BoolByte b.

Section Decoder.
Context `{Platform}.

(** The [for] loop of [pbf::varint<T>]:
    [for (bitpos = 0; bitpos < 70 && (byte & 0x80); bitpos += 7)].
    The loop test is the one of the source; [fuel] only makes the recursion
    structural (ten rounds take [bitpos] from 0 to 70, see
    [varint_loop_fuel]).  The result is the triple [(byte, result, bitpos)]
    the loop leaves. *)
Fixpoint varint_loop (T : int_type) (fuel : nat) (byte result bitpos : Z)
  : M (Z * Z * Z) :=
  if (bitpos <? 70) && negb (Z.land byte 0x80 =? 0) then
    match fuel with
    | O => ret (byte, result, bitpos)
    | S fuel' =>
        let* d := get_data in
        let* e := get_end in
        if d >=? e then throw unterminated_varint_exception
        else
          let* b := deref d in
          let result' :=
            wrap T (Z.lor result (shl T (Z.land (wrap T b) 0x7F) bitpos)) in
          let* _ := set_data (d + 1) in
          varint_loop T fuel' b result' (bitpos + 7)
    end
  else ret (byte, result, bitpos).

(** [template <typename T> T pbf::varint()]. *)
Definition varint (T : int_type) : M Z :=
  let* r := varint_loop T 10 0x80 0 0 in
  let '(byte, result, bitpos) := r in
  if (bitpos =? 70) && negb (Z.land byte 0x80 =? 0)
  then throw varint_too_long_exception
  else ret result.

(** [template <typename T> T pbf::svarint()]:
    [return (n >> 1) ^ -(T)(n & 1);]. *)
Definition svarint (T : int_type) : M Z :=
  let* n := varint T in
  ret (wrap T (Z.lxor (Z.shiftr n 1) (neg T (wrap T (Z.land n 1))))).

(** [bool pbf::next()]. *)
Definition next : M bool :=
  let* d := get_data in
  let* e := get_end in
  if d <? e then
    let* v := varint uint32_t in
    let* _ := set_value (wrap uint32_t v) in
    let* _ := set_tag (Z.shiftr (wrap uint32_t v) 3) in
    ret true
  else ret false.

(** [void pbf::skipBytes(uint32_t bytes)]: the cursor moves first, the
    comparison with [end] comes after. *)
Definition skipBytes (bytes : Z) : M unit :=
  let bytes := wrap uint32_t bytes in
  let* d := get_data in
  let* _ := set_data (d + bytes) in
  let* d' := get_data in
  let* e := get_end in
  if d' >? e then throw end_of_buffer_exception else ret tt.

(** The characters of a [std::string] built from bytes. *)
Definition string_of_bytes (bs : list Z) : string :=
  string_of_list_ascii (map (fun b => ascii_of_N (Z.to_N b)) bs).

(** [std::string pbf::string()]. *)
Definition string_ : M string :=
  let* bytes := varint uint32_t in
  let bytes := wrap uint32_t bytes in
  let* start := get_data in
  let* _ := skipBytes bytes in
  let* bs := read_bytes (Z.to_nat bytes) start in
  ret (string_of_bytes bs).

(** [float pbf::float32()]: the four bytes [memcpy] copies into the result
    (the object representation of the [float]). *)
Definition float32 : M (list Z) :=
  let* _ := skipBytes 4 in
  let* d := get_data in
  read_bytes 4 (d - 4).

(** [double pbf::float64()]: likewise, eight bytes. *)
Definition float64 : M (list Z) :=
  let* _ := skipBytes 8 in
  let* d := get_data in
  read_bytes 8 (d - 8).

(** [bool pbf::boolean()]: [return *(bool * )(data - 1);], the byte before
    the cursor read as a [bool]. *)
Definition boolean : M bool_object :=
  let* _ := skipBytes 1 in
  let* d := get_data in
  let* b := deref (d - 1) in
  ret (bool_of_byte b).

(** [void pbf::skipValue(uint32_t val)]. *)
Definition skipValue (val : Z) : M unit :=
  let val := wrap uint32_t val in
  match Z.land val 0x7 with
  | 0 => let* _ := varint uint32_t in ret tt
  | 1 => skipBytes 8
  | 2 => let* n := varint uint32_t in skipBytes (wrap uint32_t n)
  | 5 => skipBytes 4
  | _ => throw unknown_field_type_exception
  end.

(** [void pbf::skip()]. *)
Definition skip : M unit :=
  let* v := get_value in
  skipValue v.

(** The public member functions, as calls a client can make. *)
Inductive call : Type :=
| CallNext
| CallVarint (T : int_type)
| CallSvarint (T : int_type)
| CallString
| CallFloat32
| CallFloat64
| CallBoolean
| CallSkip
| CallSkipValue (val : Z)
| CallSkipBytes (bytes : Z).

(** The object after a call; the returned value is dropped, and an
    exception is taken as caught by the client. *)
Definition exec (c : call) (s : pbf) : pbf :=
  match c with
  | CallNext => snd (next s)
  | CallVarint T => snd (varint T s)
  | CallSvarint T => snd (svarint T s)
  | CallString => snd (string_ s)
  | CallFloat32 => snd (float32 s)
  | CallFloat64 => snd (float64 s)
  | CallBoolean => snd (boolean s)
  | CallSkip => snd (skip s)
  | CallSkipValue v => snd (skipValue v s)
  | CallSkipBytes b => snd (skipBytes b s)
  end.

(** The object after a sequence of calls. *)
Definition exec_all (cs : list call) (s : pbf) : pbf :=
  fold_left (fun s c => exec c s) cs s.

End Decoder.


(** [advances s s']: [s'] is [s] after a call that only moved the cursor
    forward and only dereferenced offsets from the cursor of [s] up to,
    and not including, [end]. *)
Definition advances (s s' : pbf) : Prop :=
  mem s' = mem s /\ end_ s' = end_ s /\ data s <= data s' /\
  exists new, trace s' = new ++ trace s /\
              Forall (fun p => data s <= p < end_ s) new.

(** A member function is [safe] when every call of it [advances]. *)
Definition safe {A} (m : M A) : Prop := forall s, advances s (snd (m s)).

(** Whether a byte has its continuation bit (0x80) set. *)
Definition continues (b : Z) : bool := negb (Z.land b 0x80 =? 0).

(** *** The encoder side

    The repository only decodes.  The encodings the round-trip property
    speaks of are the protocol-buffer ones the decoder is written for: a
    varint carries 7 payload bits per byte, least significant group first,
    with the continuation bit set on every byte but the last; zig-zag maps
    0, -1, 1, -2, ... to 0, 1, 2, 3, ... *)

Definition byte_of_Z (z : Z) : byte :=
  match Byte.of_N (Z.to_N z) with
  | Some b => b
  | None => x00
  end.

Fixpoint encode_varint_aux (fuel : nat) (v : Z) : list byte :=
  match fuel with
  | O => []
  | S fuel' =>
      if v <? 128 then [byte_of_Z v]
      else byte_of_Z (Z.lor (Z.land v 0x7F) 0x80)
           :: encode_varint_aux fuel' (Z.shiftr v 7)
  end.

(** The base-128 varint encoding of [v] (ten bytes hold all of [2^70]). *)
Definition spec_encode_varint (v : Z) : list byte := encode_varint_aux 10 v.

(** The zig-zag encoding of a signed [v]. *)
Definition spec_zigzag (v : Z) : Z := if v <? 0 then - 2 * v - 1 else 2 * v.

(** The bytes [bs] lie at the cursor, before [end]. *)
Definition holds (s : pbf) (bs : list byte) : Prop :=
  data s + Z.of_nat (length bs) <= end_ s /\
  forall i, (i < length bs)%nat ->
    load (mem s) (data s + Z.of_nat i) = Z.of_N (Byte.to_N (nth i bs x00)).

End Pbf.

(** ** The lifecycle of [TileData] *)

Module TileData.

(** [enum class State] of [tile_data.hpp], in declaration order. *)
Inductive State : Type :=
| invalid
| initial
| loading
| loaded
| parsed
| obsolete.

(** The position of a state in the declaration. *)
Definition rank (s : State) : nat :=
  match s with
  | invalid => 0
  | initial => 1
  | loading => 2
  | loaded => 3
  | parsed => 4
  | obsolete => 5
  end.

Definition State_eqb (a b : State) : bool := Nat.eqb (rank a) (rank b).

Section Lifecycle.
(** Decoded bucket geometry ([Bucket]), and the decoder run by [parse()]
    over the stored bytes under the style: [None] is a decode failure. *)
Variable Bucket : Type.
Variable decode : string -> option (list (string * Bucket)).

(** The members of [TileData] the lifecycle touches: [state], the private
    source [data], [buckets], and whether a request handle [req] is held. *)
Record tile : Type := mk_tile {
  state : State;
  data : string;
  buckets : list (string * Bucket);
  req : bool
}.

(** Modelled from the spec: [TileData::request()] (tile_data.cpp is not
    in the sources).  Valid only from [initial]: moves to [loading] and
    issues the one resource request; otherwise a no-op. *)
Definition request (t : tile) : tile :=
  match state t with
  | initial => mk_tile loading (data t) (buckets t) true
  | _ => t
  end.

(** Modelled from the spec: the completion callback a [TileData] hands to
    the provider (defined in tile_data.cpp, not in the sources), with
    [Some bytes] for success and [None] for failure.  An obsolete tile
    discards the payload; success stores the bytes and takes [loading] to
    [loaded]; failure moves to [obsolete]. *)
Definition complete (r : option string) (t : tile) : tile :=
  match state t with
  | obsolete => t
  | st =>
      match r with
      | Some bytes =>
          match st with
          | loading => mk_tile loaded bytes (buckets t) false
          | _ => t
          end
      | None => mk_tile obsolete (data t) (buckets t) false
      end
  end.

(** Modelled from the spec: [TileData::parse()] (tile_data.cpp is not in
    the sources).  Valid only from
    [loaded]: a successful decode populates the buckets, moves to [parsed]
    and returns [true]; a decode failure moves to [obsolete]; from any
    other state the call is rejected. *)
Definition parse (t : tile) : tile * bool :=
  match state t with
  | loaded =>
      match decode (data t) with
      | Some bs => (mk_tile parsed (data t) bs (req t), true)
      | None => (mk_tile obsolete (data t) (buckets t) (req t), false)
      end
  | _ => (t, false)
  end.

(** Modelled from the spec: [TileData::cancel()] (tile_data.cpp is not in
    the sources).  Marks the request
    cancelled and moves to [obsolete] at once; idempotent. *)
Definition cancel (t : tile) : tile :=
  match state t with
  | obsolete => t
  | _ => mk_tile obsolete (data t) (buckets t) false
  end.

(** The operations a tile receives. *)
Inductive op : Type :=
| Request
| Parse
| Cancel
| Completion (r : option string).

Definition step (o : op) (t : tile) : tile :=
  match o with
  | Request => request t
  | Parse => fst (parse t)
  | Cancel => cancel t
  | Completion r => complete r t
  end.

Definition run (os : list op) (t : tile) : tile :=
  fold_left (fun t o => step o t) os t.

End Lifecycle.

Arguments mk_tile {Bucket} state data buckets req.
Arguments state {Bucket} t.
Arguments data {Bucket} t.
Arguments buckets {Bucket} t.
Arguments req {Bucket} t.
Arguments request {Bucket} t.
Arguments complete {Bucket} r t.
Arguments parse {Bucket} decode t.
Arguments cancel {Bucket} t.
Arguments step {Bucket} decode o t.
Arguments run {Bucket} decode os t.

End TileData.

(** ** The pending table of [CachingHTTPFileSource] *)

Module FileSource.

(** [enum class ResourceType], as the interface lists it. *)
Inductive ResourceType : Type :=
| Tile
| Style
| Glyphs
| Sprite
| SpriteImage.

(** What a waiter is handed on completion: the bytes, or the failure. *)
Inductive outcome : Type :=
| Success (body : string)
| Failure.

Section Source.
(** Normalisation of a request to its resource key (the key type of
    [pending] is [std::string]). *)
Variable key_of : ResourceType -> string -> string.

(** The state of the source seen from its event loop: [pending] maps a key
    to the waiters attached to the operation in flight for it (the shared
    [BaseRequest] of the header), [operations] logs the network/cache
    operations started, [delivered] logs what each waiter was handed. *)
Record source : Type := mk_source {
  pending : gmap string (list nat);
  operations : list string;
  delivered : list (nat * outcome)
}.

(** Modelled from the spec: [CachingHTTPFileSource::request] (its
    definition is not in the sources), called for waiter [w].  A key already
    in flight attaches the caller to the operation for it; otherwise an
    entry is created and one operation is started. *)
Definition request (w : nat) (type : ResourceType) (url : string)
    (s : source) : source :=
  let key := key_of type url in
  match pending s !! key with
  | Some ws => mk_source (<[key := ws ++ [w]]> (pending s))
                         (operations s) (delivered s)
  | None => mk_source (<[key := [w]]> (pending s))
                      (operations s ++ [key]) (delivered s)
  end.

(** Modelled from the spec: the completion of the shared operation for
    [key] (the [BaseRequest] the header only declares) with outcome [o]:
    delivered to all attached waiters, and the entry goes. *)
Definition complete (key : string) (o : outcome) (s : source) : source :=
  match pending s !! key with
  | Some ws => mk_source (delete key (pending s)) (operations s)
                         (delivered s ++ map (fun w => (w, o)) ws)
  | None => s
  end.

(** What happens on the event loop. *)
Inductive event : Type :=
| Req (w : nat) (type : ResourceType) (url : string)
| Done (key : string) (o : outcome).

Definition step (e : event) (s : source) : source :=
  match e with
  | Req w type url => request w type url s
  | Done key o => complete key o s
  end.

Definition run (es : list event) (s : source) : source :=
  fold_left (fun s e => step e s) es s.

(** The waiters that request [key] in a run of events, in order. *)
Fixpoint requesters (key : string) (es : list event) : list nat :=
  match es with
  | [] => []
  | Req w type url :: es' =>
      if String.eqb (key_of type url) key
      then w :: requesters key es'
      else requesters key es'
  | Done _ _ :: es' => requesters key es'
  end.

(** No operation for [key] completes during the run: its requests are
    concurrent. *)
Fixpoint in_flight (key : string) (es : list event) : bool :=
  match es with
  | [] => true
  | Req _ _ _ :: es' => in_flight key es'
  | Done k _ :: es' => negb (String.eqb k key) && in_flight key es'
  end.

(** How many operations for [key] a log holds. *)
Definition started (key : string) (ops : list string) : nat :=
  length (List.filter (fun k => String.eqb k key) ops).

End Source.
End FileSource.

(** ** [StyleParser::parseBucket] *)

Module StyleParser.

(** [StyleLayerType], with the four alternatives the [StyleBucket]
    constructor distinguishes and its [default:] branch. *)
Inductive StyleLayerType : Type :=
| Fill
| Line
| Symbol
| Raster
| OtherLayerType.

Section Parser.
(** Numbers: [double] is what [GetDouble()] returns, [float] the type of
    the zoom fields, [to_float] the conversion made by the assignment. *)
Variables (double float : Type) (to_float : double -> float).

(** [rapidjson::Value].  An object keeps its members in document order. *)
#[warnings="-register-all"]
Inductive JSValue : Type :=
| JNull
| JBool (b : bool)
| JNumber (d : double)
| JString (s : string)
| JArray (elems : list JSValue)
| JObject (members : list (string * JSValue)).

Definition IsNumber (v : JSValue) : bool :=
  match v with JNumber _ => true | _ => false end.
Definition IsString (v : JSValue) : bool :=
  match v with JString _ => true | _ => false end.
Definition IsObject (v : JSValue) : bool :=
  match v with JObject _ => true | _ => false end.

(** [FindMember]: the first member of that name. *)
Fixpoint FindMember (ms : list (string * JSValue)) (name : string)
  : option JSValue :=
  match ms with
  | [] => None
  | (k, v) :: ms' => if String.eqb k name then Some v else FindMember ms' name
  end.

(** [value[name]], when [value] is an object holding the member. *)
Definition member (v : JSValue) (name : string) : option JSValue :=
  match v with
  | JObject ms => FindMember ms name
  | _ => None
  end.

(** [value.HasMember(name)]. *)
Definition HasMember (v : JSValue) (name : string) : bool :=
  match member v name with Some _ => true | None => false end.

(** The collaborators' types: a style source, a filter expression, the
    visibility enum and the four layout structs. *)
Variables (StyleSource FilterExpression VisibilityType : Type).
Variables (StyleBucketFill StyleBucketLine StyleBucketSymbol
           StyleBucketRaster : Type).

(** [StyleBucketRender]: the variant held by [StyleBucket::render]. *)
Inductive StyleBucketRender : Type :=
| RenderNone
| RenderFill (r : StyleBucketFill)
| RenderLine (r : StyleBucketLine)
| RenderSymbol (r : StyleBucketSymbol)
| RenderRaster (r : StyleBucketRaster).

(** Modelled from the spec: the class [StyleBucket] (style_bucket.hpp is
    not in the sources): the members [parseBucket] and [parseLayout]
    assign, and [max_zoom], the maximum zoom of the bucket. *)
Record StyleBucket : Type := mk_bucket {
  name : string;
  style_source : option StyleSource;
  source_layer : string;
  filter : FilterExpression;
  render : StyleBucketRender;
  min_zoom : float;
  max_zoom : float;
  visibility : VisibilityType
}.

(** The member initialisers of the absent declaration. *)
Variables (default_filter : FilterExpression)
          (default_min_zoom default_max_zoom : float)
          (default_visibility : VisibilityType)
          (default_fill : StyleBucketFill) (default_line : StyleBucketLine)
          (default_symbol : StyleBucketSymbol)
          (default_raster : StyleBucketRaster).

(** [StyleBucket::StyleBucket(StyleLayerType type)] (style_bucket.cpp). *)
Definition new_StyleBucket (type : StyleLayerType) : StyleBucket :=
  let r := match type with
           | Fill => RenderFill default_fill
           | Line => RenderLine default_line
           | Symbol => RenderSymbol default_symbol
           | Raster => RenderRaster default_raster
           | OtherLayerType => RenderNone
           end in
  mk_bucket EmptyString None EmptyString default_filter r
            default_min_zoom default_max_zoom default_visibility.

(** [StyleLayer]: the members [parseBucket] reads and writes. *)
Record StyleLayer : Type := mk_layer {
  id : string;
  type : StyleLayerType;
  bucket : option StyleBucket
}.

(** The parser's tables: [constants] and [sources]. *)
Record parser : Type := mk_parser {
  constants : gmap string JSValue;
  sources : gmap string StyleSource
}.

(** [StyleParser::parseFilterExpression], and the assignments
    [StyleParser::parseLayout] makes once its argument is an object: they
    go through [parseRenderProperty] to [bucket.visibility] and to the
    members of [bucket.render], and to nothing else of the bucket. *)
Variable parseFilterExpression : parser -> JSValue -> FilterExpression.
Variable parseLayoutProperties :
  parser -> JSValue -> StyleLayerType ->
  VisibilityType * StyleBucketRender -> VisibilityType * StyleBucketRender.

(** The warnings [Log::Warning] receives from [parseBucket]. *)
Inductive warning : Type :=
| WarnUnknownSource (source layer : string)
| WarnSourceNotString (layer : string)
| WarnSourceLayerNotString (layer : string)
| WarnLayoutNotObject (layer : string)
| WarnMinzoomNotNumeric (layer : string)
| WarnMaxzoomNotNumeric (layer : string).

(** [StyleParser::replaceConstant]. *)
Definition replaceConstant (p : parser) (v : JSValue) : JSValue :=
  match v with
  | JString s =>
      match constants p !! s with
      | Some c => c
      | None => v
      end
  | _ => v
  end.

(** [StyleParser::parseLayout] on the bucket of the layer. *)
Definition parseLayout (p : parser) (v : JSValue) (lid : string)
    (ty : StyleLayerType) (b : StyleBucket) : StyleBucket * list warning :=
  if negb (IsObject v) then (b, [WarnLayoutNotObject lid])
  else
    let '(vis, r) := parseLayoutProperties p v ty (visibility b, render b) in
    (mk_bucket (name b) (style_source b) (source_layer b) (filter b) r
               (min_zoom b) (max_zoom b) vis, []).

(** [StyleParser::parseBucket]: the layer with its new bucket, and the
    warnings logged, in order. *)
Definition parseBucket (p : parser) (value : JSValue) (layer : StyleLayer)
  : StyleLayer * list warning :=
  let b := new_StyleBucket (type layer) in
  let b := mk_bucket (id layer) (style_source b) (source_layer b) (filter b)
                     (render b) (min_zoom b) (max_zoom b) (visibility b) in
  let '(b, w1) :=
    match member value "source" with
    | Some v =>
        match replaceConstant p v with
        | JString source_name =>
            match sources p !! source_name with
            | Some src =>
                (mk_bucket (name b) (Some src) (source_layer b) (filter b)
                           (render b) (min_zoom b) (max_zoom b)
                           (visibility b), [])
            | None => (b, [WarnUnknownSource source_name (id layer)])
            end
        | _ => (b, [WarnSourceNotString (id layer)])
        end
    | None => (b, [])
    end in
  let '(b, w2) :=
    match member value "source-layer" with
    | Some v =>
        match replaceConstant p v with
        | JString s =>
            (mk_bucket (name b) (style_source b) s (filter b) (render b)
                       (min_zoom b) (max_zoom b) (visibility b), [])
        | _ => (b, [WarnSourceLayerNotString (id layer)])
        end
    | None => (b, [])
    end in
  let b :=
    match member value "filter" with
    | Some v =>
        mk_bucket (name b) (style_source b) (source_layer b)
                  (parseFilterExpression p (replaceConstant p v)) (render b)
                  (min_zoom b) (max_zoom b) (visibility b)
    | None => b
    end in
  let '(b, w3) :=
    match member value "layout" with
    | Some v => parseLayout p (replaceConstant p v) (id layer) (type layer) b
    | None => (b, [])
    end in
  let '(b, w4) :=
    match member value "minzoom" with
    | Some (JNumber d) =>
        (mk_bucket (name b) (style_source b) (source_layer b) (filter b)
                   (render b) (to_float d) (max_zoom b) (visibility b), [])
    | Some _ => (b, [WarnMinzoomNotNumeric (id layer)])
    | None => (b, [])
    end in
  let '(b, w5) :=
    match member value "maxzoom" with
    | Some (JNumber d) =>
        (mk_bucket (name b) (style_source b) (source_layer b) (filter b)
                   (render b) (to_float d) (max_zoom b) (visibility b), [])
    | Some _ => (b, [WarnMaxzoomNotNumeric (id layer)])
    | None => (b, [])
    end in
  (mk_layer (id layer) (type layer) (Some b), w1 ++ w2 ++ w3 ++ w4 ++ w5).

End Parser.

Arguments JNull {double}.
Arguments JBool {double} b.
Arguments JNumber {double} d.
Arguments JString {double} s.
Arguments JArray {double} elems.
Arguments JObject {double} members.
Arguments member {double} v name.
Arguments HasMember {double} v name.
Arguments mk_bucket {_ _ _ _ _ _ _ _} _ _ _ _ _ _ _ _.
Arguments min_zoom {_ _ _ _ _ _ _ _} _.
Arguments max_zoom {_ _ _ _ _ _ _ _} _.
Arguments mk_layer {_ _ _ _ _ _ _ _} _ _ _.
Arguments bucket {_ _ _ _ _ _ _ _} _.
Arguments mk_parser {_ _} _ _.
Arguments parseBucket {_ _} _ {_ _ _ _ _ _ _} _ _ _ _ _ _ _ _ _ _ _ _ _.

End StyleParser.

(** ** Wire-level descriptions of what the decoder reads *)

Module PbfWire.
Import CInt Pbf.
Local Open Scope Z_scope.

(** The value of a byte of the buffer, as [load] returns it. *)
Definition byte_value (b : byte) : Z := Z.of_N (Byte.to_N b).

(** The number a sequence of base-128 groups stands for: the low 7 bits of
    each byte, least significant group first. *)
Fixpoint groups_value (bs : list byte) : Z :=
  match bs with
  | [] => 0
  | b :: bs' => Z.land (byte_value b) 0x7F + 128 * groups_value bs'
  end.

(** A varint as it lies in a buffer, minimal or not: a non-empty sequence
    of bytes of which exactly the last has its continuation bit clear. *)
Fixpoint terminated (bs : list byte) : bool :=
  match bs with
  | [] => false
  | b :: bs' =>
      match bs' with
      | [] => negb (continues (byte_value b))
      | _ => continues (byte_value b) && terminated bs'
      end
  end.

(** The payload of a field, by wire type: 0 (varint), 1 (64 bit),
    2 (string/message) and 5 (32 bit), as [pbf::skipValue] names them. *)
Inductive payload : Type :=
| Varint (bs : list byte)
| Fixed64 (bs : list byte)
| Delimited (bs : list byte)
| Fixed32 (bs : list byte).

Definition wire_type (p : payload) : Z :=
  match p with
  | Varint _ => 0
  | Fixed64 _ => 1
  | Delimited _ => 2
  | Fixed32 _ => 5
  end.

(** The payload has the shape of its wire type. *)
Definition well_formed (p : payload) : Prop :=
  match p with
  | Varint bs => terminated bs = true /\ (length bs <= 10)%nat
  | Fixed64 bs => length bs = 8%nat
  | Delimited bs => Z.of_nat (length bs) < 2 ^ 32
  | Fixed32 bs => length bs = 4%nat
  end.

(** The bytes of a payload: a length-delimited one is preceded by its
    length as a varint. *)
Definition payload_bytes (p : payload) : list byte :=
  match p with
  | Varint bs => bs
  | Fixed64 bs => bs
  | Delimited bs => spec_encode_varint (Z.of_nat (length bs)) ++ bs
  | Fixed32 bs => bs
  end.

(** A field: the header varint [(tag << 3) | wire type], then the
    payload. *)
Definition field (tag : Z) (p : payload) : list byte :=
  spec_encode_varint (tag * 8 + wire_type p) ++ payload_bytes p.

(** The object with the cursor moved to [p], and nothing else changed. *)
Definition at_cursor (s : pbf) (p : Z) : pbf :=
  mk_pbf (mem s) p (end_ s) (value s) (tag s) (trace s).

(** A member function that writes neither [value] nor [tag]. *)
Definition keeps_fields {A} (m : M A) : Prop :=
  forall s, value (snd (m s)) = value s /\ tag (snd (m s)) = tag s.

End PbfWire.

(** ** More of [style_parser.cpp] *)

Module StyleParserMore.
Import StyleParser.

Arguments name {_ _ _ _ _ _ _ _} _.
Arguments style_source {_ _ _ _ _ _ _ _} _.
Arguments source_layer {_ _ _ _ _ _ _ _} _.
Arguments filter {_ _ _ _ _ _ _ _} _.
Arguments render {_ _ _ _ _ _ _ _} _.
Arguments visibility {_ _ _ _ _ _ _ _} _.
Arguments id {_ _ _ _ _ _ _ _} _.
Arguments type {_ _ _ _ _ _ _ _} _.
Arguments constants {_ _} _.
Arguments sources {_ _} _.
Arguments replaceConstant {_ _} _ _.
Arguments IsNumber {_} _.
Arguments new_StyleBucket {_ _ _ _ _ _ _ _} _ _ _ _ _ _ _ _ _.

(** [name.length() && name[0] == '@']. *)
Definition starts_with_at (name : string) : bool :=
  match name with
  | String c _ => Ascii.eqb c "@"%char
  | EmptyString => false
  end.

(** [Function<T>]: the two alternatives the parser builds. *)
Inductive Function (float T : Type) : Type :=
| ConstantFunction (v : T)
| StopsFunction (stops : list (float * T)) (base : float).
Arguments ConstantFunction {float T} v.
Arguments StopsFunction {float T} stops base.

(** What [Log::Warning] receives from the functions below. *)
Inductive notice : Type :=
| ConstantsNotObject
| DasharrayNotNumbers
| ArgumentNotNumeric
| FunctionWithoutStops
| BaseNotNumeric
| StopsNotArray
| StopWithoutTwoMembers
| StopZoomNotNumber
| StopNotArray.

Section Parser.
Variables (double float : Type) (to_float : double -> float).
Variable StyleSource : Type.

(** The loop of [StyleParser::parseConstants] over the members, in
    document order: names that do not start with "@" are discarded, and
    [emplace] leaves a name that is already present alone. *)
Fixpoint parseConstants_members (ms : list (string * JSValue double))
    (cs : gmap string (JSValue double)) : gmap string (JSValue double) :=
  match ms with
  | [] => cs
  | (name, v) :: ms' =>
      parseConstants_members ms'
        (if starts_with_at name
         then match cs !! name with
              | Some _ => cs
              | None => <[name := v]> cs
              end
         else cs)
  end.

(** [StyleParser::parseConstants]. *)
Definition parseConstants (p : parser double StyleSource)
    (value : JSValue double) : parser double StyleSource * list notice :=
  match value with
  | JObject ms =>
      (mk_parser (parseConstants_members ms (constants p)) (sources p), [])
  | _ => (p, [ConstantsNotObject])
  end.

(** The loop of [parseFloatArray]: [vec] is the vector built so far; a
    part that is not a number ends the function with an empty vector. *)
Fixpoint parseFloatArray_parts (parts : list (JSValue double))
    (vec : list float) : bool * list float * list notice :=
  match parts with
  | [] => (true, vec, [])
  | JNumber d :: parts' => parseFloatArray_parts parts' (vec ++ [to_float d])
  | _ :: _ => (false, [], [DasharrayNotNumbers])
  end.

(** [parseFloatArray]. *)
Definition parseFloatArray (value : JSValue double)
  : bool * list float * list notice :=
  match value with
  | JArray parts => parseFloatArray_parts parts []
  | _ => (false, [], [DasharrayNotNumbers])
  end.

(** [0.0f]. *)
Variable float_zero : float.

(** [StyleParser::parseFunctionArgument<float>]. *)
Definition parseFunctionArgument_float (p : parser double StyleSource)
    (value : JSValue double) : float * list notice :=
  match replaceConstant p value with
  | JNumber d => (to_float d, [])
  | _ => (float_zero, [ArgumentNotNumeric])
  end.

(** [StyleParser::parseFunction<T>], for a value type [T] with its default
    [T()], its [defaultBaseValue<T>()] and its [parseFunctionArgument<T>]. *)
Section Function.
Variable T : Type.
Variable default_T : T.
Variable defaultBaseValue : float.
Variable parseFunctionArgument : JSValue double -> T * list notice.

(** The loop over the stops: [stops] is the vector built so far, [ws] the
    warnings so far. *)
Fixpoint parseFunction_stops (value_stops : list (JSValue double))
    (base : float) (stops : list (float * T)) (ws : list notice)
  : bool * Function float T * list notice :=
  match value_stops with
  | [] => (true, StopsFunction stops base, ws)
  | JArray members :: rest =>
      match members with
      | [z; x] =>
          match z with
          | JNumber d =>
              let '(v, w) := parseFunctionArgument x in
              parseFunction_stops rest base (stops ++ [(to_float d, v)])
                                  (ws ++ w)
          | _ =>
              (false, ConstantFunction default_T, ws ++ [StopZoomNotNumber])
          end
      | _ =>
          (false, ConstantFunction default_T, ws ++ [StopWithoutTwoMembers])
      end
  | _ :: _ => (false, ConstantFunction default_T, ws ++ [StopNotArray])
  end.

(** A stop as the loop accepts it: a two-member array starting with a
    number. *)
Definition stop_of (zx : double * JSValue double) : JSValue double :=
  JArray [JNumber (fst zx); snd zx].

Definition parseFunction (value : JSValue double)
  : bool * Function float T * list notice :=
  match member value "stops" with
  | None => (false, ConstantFunction default_T, [FunctionWithoutStops])
  | Some value_stops =>
      let '(base, w1) :=
        match member value "base" with
        | Some (JNumber d) => (to_float d, [])
        | Some _ => (defaultBaseValue, [BaseNotNumeric])
        | None => (defaultBaseValue, [])
        end in
      match value_stops with
      | JArray stops => parseFunction_stops stops base [] w1
      | _ => (false, ConstantFunction default_T, w1 ++ [StopsNotArray])
      end
  end.

End Function.
End Parser.

Arguments parseConstants {_ _} _ _.
Arguments parseConstants_members {_} _ _.
Arguments parseFloatArray {_ _} _ _.
Arguments parseFunctionArgument_float {_ _} _ {_} _ _ _.
Arguments parseFunction {_ _} _ {_} _ _ _ _.
Arguments stop_of {_} _.

End StyleParserMore.

(** ** Layers and references *)

Module StyleLayers.
Import StyleParser StyleParserMore.

(** What [Log::Warning] receives from [parseLayer] and [parseReference];
    the warnings of [parseBucket] are passed on. *)
Inductive layer_notice : Type :=
| TypeNotString (layer : string)
| CircularReference (layer : string)
| RefNotString (layer : string)
| UnknownReference (layer ref : string)
| BucketWarning (w : warning).

Section Layers.
Variables (double float : Type) (to_float : double -> float).
Variables (StyleSource FilterExpression VisibilityType : Type).
Variables (StyleBucketFill StyleBucketLine StyleBucketSymbol
           StyleBucketRaster : Type).
Variables (default_filter : FilterExpression)
          (default_min_zoom default_max_zoom : float)
          (default_visibility : VisibilityType)
          (default_fill : StyleBucketFill) (default_line : StyleBucketLine)
          (default_symbol : StyleBucketSymbol)
          (default_raster : StyleBucketRaster).
Variable parseFilterExpression :
  parser double StyleSource -> JSValue double -> FilterExpression.
Variable parseLayoutProperties :
  parser double StyleSource -> JSValue double -> StyleLayerType ->
  VisibilityType *
  StyleBucketRender StyleBucketFill StyleBucketLine StyleBucketSymbol
                    StyleBucketRaster ->
  VisibilityType *
  StyleBucketRender StyleBucketFill StyleBucketLine StyleBucketSymbol
                    StyleBucketRaster.

(** [StyleLayerTypeClass]: the layer type a string names. *)
Variable StyleLayerTypeClass : string -> StyleLayerType.

(** The member [layers] of the parser: from a layer id to the JSON value
    of the layer and the layer object.  The objects are shared through
    pointers in the source; each is reached through its id here, the table
    holding one object per id. *)
Local Abbreviation layer_table :=
  (gmap string
        (JSValue double *
         StyleLayer float StyleSource FilterExpression VisibilityType
                    StyleBucketFill StyleBucketLine StyleBucketSymbol
                    StyleBucketRaster)).

(** [StyleParser::parseReference] for the layer at [lid].  [parseLayer_rec]
    is the call of [parseLayer] it makes, with the layer pushed on [stack]
    for the time of the call; [None] is that call running out of fuel.
    [lid] is the key of the layer in the table, [layer_id] its [id], which
    the warnings print.
    The source makes the layer share the bucket object of the reference;
    no function of the parser writes to a bucket after [parseBucket] has
    built it, so the bucket is copied here. *)
Definition parseReference
    (parseLayer_rec : list string -> string -> layer_table ->
                      option (layer_table * list layer_notice))
    (stack : list string) (value : JSValue double) (lid layer_id : string)
    (layers : layer_table) : option (layer_table * list layer_notice) :=
  match value with
  | JString ref =>
      match layers !! ref with
      | None => Some (layers, [UnknownReference layer_id ref])
      | Some _ =>
          match parseLayer_rec (lid :: stack) ref layers with
          | None => None
          | Some (layers', ws) =>
              match layers' !! ref, layers' !! lid with
              | Some (_, reference), Some (v, layer) =>
                  Some (<[lid := (v, mk_layer (id layer) (type reference)
                                             (bucket reference))]> layers',
                        ws)
              | _, _ => Some (layers', ws)
              end
          end
      end
  | _ => Some (layers, [RefNotString layer_id])
  end.

(** [StyleParser::parseLayer] for the pair of the table at [lid] (the
    source calls it on pairs of the table only, and [createLayer] stores
    JSON objects only).  The recursion through [parseReference] is bounded
    by [fuel]; [None] is fuel running out. *)
Fixpoint parseLayer (fuel : nat) (p : parser double StyleSource)
    (stack : list string) (lid : string) (layers : layer_table)
  : option (layer_table * list layer_notice) :=
  match fuel with
  | O => None
  | S fuel' =>
      match layers !! lid with
      | None => Some (layers, [])
      | Some (value, layer) =>
          let '(layer, w1) :=
            match member value "type" with
            | Some (JString s) =>
                (mk_layer (id layer) (StyleLayerTypeClass s) (bucket layer),
                 [])
            | Some _ => (layer, [TypeNotString (id layer)])
            | None => (layer, [])
            end in
          let layers := <[lid := (value, layer)]> layers in
          match bucket layer with
          | Some _ => Some (layers, w1)
          | None =>
              if existsb (String.eqb lid) stack
              then Some (layers, w1 ++ [CircularReference (id layer)])
              else
                match member value "ref" with
                | Some r =>
                    match parseReference (parseLayer fuel' p) stack
                            (replaceConstant p r) lid (id layer) layers with
                    | None => None
                    | Some (layers', w2) => Some (layers', w1 ++ w2)
                    end
                | None =>
                    let '(layer', wb) :=
                      parseBucket to_float default_filter default_min_zoom
                        default_max_zoom default_visibility default_fill
                        default_line default_symbol default_raster
                        parseFilterExpression parseLayoutProperties
                        p value layer in
                    Some (<[lid := (value, layer')]> layers,
                          w1 ++ map BucketWarning wb)
                end
          end
      end
  end.

(** [StyleParser::parseLayers]: [parseLayer] on every pair of the table,
    the stack being empty.  The order of the traversal is that of the
    map's type, declared in style_parser.hpp; [order] lists the keys in
    that order. *)
Fixpoint parseLayers (fuel : nat) (p : parser double StyleSource)
    (order : list string) (layers : layer_table)
  : option (layer_table * list layer_notice) :=
  match order with
  | [] => Some (layers, [])
  | lid :: order' =>
      match parseLayer fuel p [] lid layers with
      | None => None
      | Some (layers1, w1) =>
          match parseLayers fuel p order' layers1 with
          | None => None
          | Some (layers2, w2) => Some (layers2, w1 ++ w2)
          end
      end
  end.

(** [preserves layers layers']: the table [layers'] has the entries of
    [layers], each with its JSON value and its layer id, and with the
    bucket the layer had, if it had one. *)
Definition preserves (layers layers' : layer_table) : Prop :=
  forall k,
    match layers !! k with
    | None => layers' !! k = None
    | Some (v, l) =>
        exists l', layers' !! k = Some (v, l') /\ id l' = id l /\
                   forall b, bucket l = Some b -> bucket l' = Some b
    end.

(** [owned layers]: a bucket held by a layer that has no "ref" member
    bears the id of that layer as its name; a bucket held by a layer that
    has a "ref" member is the bucket of a layer of the table that has
    none. *)
Definition owned (layers : layer_table) : Prop :=
  forall k v l b,
    layers !! k = Some (v, l) -> bucket l = Some b ->
    match member v "ref" with
    | None => name b = id l
    | Some _ =>
        exists k' v' l',
          layers !! k' = Some (v', l') /\ member v' "ref" = None /\
          bucket l' = Some b
    end.

(** [refers_back p layers stack lid]: the layer [lid] has no bucket and
    is on the stack, or has no bucket and a "ref" member that names, once
    its constant is replaced, a layer that refers back with [lid] on the
    stack. *)
Inductive refers_back (p : parser double StyleSource) (layers : layer_table)
  : list string -> string -> Prop :=
| back_on_stack stack lid v l :
    layers !! lid = Some (v, l) -> bucket l = None -> In lid stack ->
    refers_back p layers stack lid
| back_by_ref stack lid v l r ref :
    layers !! lid = Some (v, l) -> bucket l = None ->
    member v "ref" = Some r -> replaceConstant p r = JString ref ->
    refers_back p layers (lid :: stack) ref ->
    refers_back p layers stack lid.

End Layers.

Arguments parseReference {_ _ _ _ _ _ _ _ _} _ _ _ _ _ _.
Arguments parseLayer {_ _} _ {_ _ _ _ _ _ _} _ _ _ _ _ _ _ _ _ _ _ _ _ _ _ _.
Arguments preserves {_ _ _ _ _ _ _ _ _} _ _.
Arguments parseLayers {_ _} _ {_ _ _ _ _ _ _} _ _ _ _ _ _ _ _ _ _ _ _ _ _ _.
Arguments owned {_ _ _ _ _ _ _ _ _} _.
Arguments refers_back {_ _ _ _ _ _ _ _ _} _ _ _ _.

End StyleLayers.

(** ** Tactics *)

(** Case analysis on every [match] of the equation [E], then inversion of
    what is left of it. *)
Ltac crack E :=
  revert E;
  repeat match goal with
         | |- context [match ?x with _ => _ end] => destruct x
         end;
  intros E; inversion E; subst; simpl; auto.

(* ===================================================================== *)
(** * Part II: properties                                                 *)
(* ===================================================================== *)

(** ** Arithmetic of the fixed-width types *)

Module CIntFacts.
Import CInt.
Local Open Scope Z_scope.

Lemma eqm_refl w a : eqm w a a.
Proof. reflexivity. Qed.

Lemma eqm_trans w a b c : eqm w a b -> eqm w b c -> eqm w a c.
Proof. unfold eqm; congruence. Qed.

Lemma eqm_sym w a b : eqm w a b -> eqm w b a.
Proof. unfold eqm; congruence. Qed.

Lemma eqm_mod w a : 0 <= w -> eqm w (a mod 2 ^ w) a.
Proof. intros; unfold eqm; apply Z.mod_mod; lia. Qed.

(** Congruence modulo [2^w] is agreement on the low [w] bits. *)
Lemma eqm_testbit w a b :
  0 <= w -> (eqm w a b <-> forall n, 0 <= n < w -> Z.testbit a n = Z.testbit b n).
Proof.
  intros Hw. unfold eqm. rewrite <- !Z.land_ones by lia. split.
  - intros E n Hn.
    apply (f_equal (fun z => Z.testbit z n)) in E.
    rewrite !Z.land_spec, !Z.ones_spec_low in E by lia.
    now rewrite !andb_true_r in E.
  - intros E. apply Z.bits_inj'. intros n Hn.
    rewrite !Z.land_spec.
    destruct (Z.ltb_spec n w).
    + rewrite E by lia. reflexivity.
    + rewrite !Z.ones_spec_high by lia. now rewrite !andb_false_r.
Qed.

(** Congruence modulo a wider power of two implies the narrower one. *)
Lemma eqm_narrow w w' a b : 0 <= w <= w' -> eqm w' a b -> eqm w a b.
Proof.
  intros Hw E. rewrite eqm_testbit in * by lia.
  intros n Hn. apply E. lia.
Qed.

Lemma eqm_wrap T x : 0 < bits T -> eqm (bits T) (wrap T x) x.
Proof.
  intros Hb. unfold wrap, eqm.
  assert (0 < 2 ^ bits T) by (apply Z.pow_pos_nonneg; lia).
  destruct (is_signed T).
  - rewrite Zminus_mod_idemp_l. f_equal. lia.
  - apply Z.mod_mod. lia.
Qed.

Lemma bits_promote T : bits T <= bits (promote T).
Proof.
  unfold promote. destruct (Z.ltb_spec (bits T) 32); simpl; lia.
Qed.

Lemma eqm_wrap_promote T x :
  0 < bits T -> eqm (bits T) (wrap (promote T) x) x.
Proof.
  intros Hb. apply (eqm_narrow (bits T) (bits (promote T))).
  - pose proof (bits_promote T). lia.
  - apply eqm_wrap. pose proof (bits_promote T). lia.
Qed.

Lemma wrap_in_range T x : 0 < bits T -> in_range T (wrap T x).
Proof.
  intros Hb. unfold wrap, in_range.
  assert (0 < 2 ^ bits T) by (apply Z.pow_pos_nonneg; lia).
  assert (2 ^ bits T = 2 * 2 ^ (bits T - 1)) as E.
  { rewrite <- Z.pow_succ_r by lia. f_equal. lia. }
  destruct (is_signed T).
  - pose proof (Z.mod_pos_bound (x + 2 ^ (bits T - 1)) (2 ^ bits T)). lia.
  - apply Z.mod_pos_bound. lia.
Qed.

(** Two values of [T] that agree modulo [2^bits] are equal. *)
Lemma in_range_eqm_inj T a b :
  0 < bits T -> in_range T a -> in_range T b -> eqm (bits T) a b -> a = b.
Proof.
  intros Hb Ha Hb' E. unfold in_range, eqm in *.
  assert (0 < 2 ^ bits T) by (apply Z.pow_pos_nonneg; lia).
  assert (2 ^ bits T = 2 * 2 ^ (bits T - 1)) as E2.
  { rewrite <- Z.pow_succ_r by lia. f_equal. lia. }
  destruct (is_signed T).
  - assert ((a + 2 ^ (bits T - 1)) mod 2 ^ bits T
            = (b + 2 ^ (bits T - 1)) mod 2 ^ bits T) as E3.
    { rewrite (Z.add_mod a), (Z.add_mod b) by lia. now rewrite E. }
    rewrite !Z.mod_small in E3 by lia. lia.
  - rewrite !Z.mod_small in E by lia. exact E.
Qed.

Lemma wrap_id T x : 0 < bits T -> in_range T x -> wrap T x = x.
Proof.
  intros Hb Hx. apply (in_range_eqm_inj T); auto using wrap_in_range, eqm_wrap.
Qed.

(** Bitwise operations act on the low [w] bits of their operands only. *)
Lemma eqm_lor w a a' b b' :
  0 <= w -> eqm w a a' -> eqm w b b' -> eqm w (Z.lor a b) (Z.lor a' b').
Proof.
  intros Hw Ea Eb. rewrite eqm_testbit in * by lia.
  intros n Hn. rewrite !Z.lor_spec. now rewrite Ea, Eb by lia.
Qed.

Lemma eqm_lxor w a a' b b' :
  0 <= w -> eqm w a a' -> eqm w b b' -> eqm w (Z.lxor a b) (Z.lxor a' b').
Proof.
  intros Hw Ea Eb. rewrite eqm_testbit in * by lia.
  intros n Hn. rewrite !Z.lxor_spec. now rewrite Ea, Eb by lia.
Qed.

Lemma eqm_land_ones w k a a' :
  0 <= k <= w -> eqm w a a' -> Z.land a (Z.ones k) = Z.land a' (Z.ones k).
Proof.
  intros Hk E. rewrite eqm_testbit in E by lia.
  apply Z.bits_inj'. intros n Hn. rewrite !Z.land_spec.
  destruct (Z.ltb_spec n k).
  - rewrite E by lia. reflexivity.
  - rewrite !Z.ones_spec_high by lia. now rewrite !andb_false_r.
Qed.

End CIntFacts.

(** ** The decoder *)

Module PbfFacts.
Import CInt CIntFacts Pbf.
Local Open Scope Z_scope.

Lemma advances_refl s : advances s s.
Proof.
  unfold advances. repeat split; try lia. exists []. split; auto.
Qed.

Lemma advances_trans s1 s2 s3 :
  advances s1 s2 -> advances s2 s3 -> advances s1 s3.
Proof.
  intros (M1 & E1 & D1 & n1 & T1 & F1) (M2 & E2 & D2 & n2 & T2 & F2).
  unfold advances. repeat split; try congruence; try lia.
  exists (n2 ++ n1). split.
  - rewrite T2, T1. now rewrite app_assoc.
  - apply Forall_app. split; auto.
    eapply List.Forall_impl; [|exact F2]. simpl. intros p Hp. lia.
Qed.

Lemma safe_ret A (a : A) : safe (ret a).
Proof. intros s. apply advances_refl. Qed.

Lemma safe_throw A e : safe (@throw A e).
Proof. intros s. apply advances_refl. Qed.

Lemma safe_bind A B (m : M A) (k : A -> M B) :
  safe m -> (forall a, safe (k a)) -> safe (bind m k).
Proof.
  intros Hm Hk s. unfold bind. specialize (Hm s).
  destruct (m s) as [[a|e] s']; simpl in *; auto.
  eapply advances_trans; [exact Hm|apply Hk].
Qed.

Lemma safe_get_data : safe get_data.
Proof. intros s. apply advances_refl. Qed.

Lemma safe_get_end : safe get_end.
Proof. intros s. apply advances_refl. Qed.

Lemma safe_get_value : safe get_value.
Proof. intros s. apply advances_refl. Qed.

Lemma safe_set_value v : safe (set_value v).
Proof.
  intros s. unfold advances; simpl. repeat split; try lia.
  exists []. auto.
Qed.

Lemma safe_set_tag v : safe (set_tag v).
Proof.
  intros s. unfold advances; simpl. repeat split; try lia.
  exists []. auto.
Qed.

(** Reading [n] bytes at [p] dereferences the offsets of [p, p+n), and
    changes nothing else. *)
Lemma read_bytes_spec n : forall p s,
  exists bs new,
    read_bytes n p s
    = (Ok bs, mk_pbf (mem s) (data s) (end_ s) (value s) (tag s)
                     (new ++ trace s)) /\
    Forall (fun q => p <= q < p + Z.of_nat n) new /\
    length bs = n.
Proof.
  induction n as [|n IH]; intros p s.
  - exists [], []. simpl. destruct s; auto.
  - set (s1 := mk_pbf (mem s) (data s) (end_ s) (value s) (tag s)
                      (p :: trace s)).
    destruct (IH (p + 1) s1) as (bs & new & E & F & L).
    exists (load (mem s) p :: bs), (new ++ [p]). split; [|split].
    + cbn [read_bytes]. unfold bind, deref, ret. fold s1. rewrite E.
      subst s1; simpl. now rewrite <- app_assoc.
    + apply Forall_app. split.
      * eapply List.Forall_impl; [|exact F]. simpl. intros q Hq. lia.
      * constructor; auto. lia.
    + simpl. now rewrite L.
Qed.

Section Decoder.
Context `{Platform}.

(** One unfolding of the loop, with the object written out. *)
Lemma varint_loop_eq T fuel byte result bitpos s :
  varint_loop T fuel byte result bitpos s =
  if (bitpos <? 70) && continues byte then
    match fuel with
    | O => (Ok (byte, result, bitpos), s)
    | S fuel' =>
        if data s >=? end_ s then (Throw unterminated_varint_exception, s)
        else
          varint_loop T fuel' (load (mem s) (data s))
            (wrap T (Z.lor result
               (shl T (Z.land (wrap T (load (mem s) (data s))) 0x7F) bitpos)))
            (bitpos + 7)
            (mk_pbf (mem s) (data s + 1) (end_ s) (value s) (tag s)
                    (data s :: trace s))
    end
  else (Ok (byte, result, bitpos), s).
Proof.
  destruct fuel; cbn [varint_loop]; unfold continues;
    destruct ((bitpos <? 70) && negb (Z.land byte 128 =? 0)); try reflexivity.
  unfold bind, get_data, get_end, deref, set_data, throw; simpl.
  destruct (data s >=? end_ s); reflexivity.
Qed.

Lemma varint_loop_stop T fuel byte result bitpos s :
  continues byte = false ->
  varint_loop T fuel byte result bitpos s = (Ok (byte, result, bitpos), s).
Proof.
  intros Hc. rewrite varint_loop_eq, Hc, andb_false_r. reflexivity.
Qed.

Lemma varint_loop_advances T fuel : forall byte result bitpos s,
  advances s (snd (varint_loop T fuel byte result bitpos s)).
Proof.
  induction fuel as [|fuel IH]; intros byte result bitpos s;
    rewrite varint_loop_eq;
    destruct ((bitpos <? 70) && continues byte); simpl;
    try apply advances_refl.
  destruct (Z.geb_spec (data s) (end_ s)) as [G|L]; simpl;
    [apply advances_refl|].
  match goal with |- advances _ (snd (varint_loop _ _ _ _ _ ?s1)) =>
    eapply (advances_trans s s1); [|apply IH] end.
  unfold advances; simpl. repeat split; try lia.
  exists [data s]. split; auto. constructor; auto. lia.
Qed.

(** The three ways the loop of [varint] can end, read off the bytes at the
    cursor: a byte without continuation bit within the first [fuel] bytes;
    [end] reached first; or [fuel] bytes that all continue. *)
Lemma varint_loop_spec T fuel : forall byte result bitpos s,
  continues byte = true ->
  bitpos = 70 - 7 * Z.of_nat fuel ->
  let r := varint_loop T fuel byte result bitpos s in
  (exists k, 0 <= k < Z.of_nat fuel /\ data s + k < end_ s /\
     (forall i, 0 <= i < k -> continues (load (mem s) (data s + i)) = true) /\
     continues (load (mem s) (data s + k)) = false /\
     (exists res, fst r = Ok (load (mem s) (data s + k), res,
                              bitpos + 7 * (k + 1))) /\
     data (snd r) = data s + k + 1)
  \/ (exists k, 0 <= k < Z.of_nat fuel /\ end_ s <= data s + k /\
     (forall i, 0 <= i < k ->
        data s + i < end_ s /\
        continues (load (mem s) (data s + i)) = true) /\
     fst r = Throw unterminated_varint_exception /\
     data (snd r) = data s + k)
  \/ ((forall i, 0 <= i < Z.of_nat fuel ->
        data s + i < end_ s /\
        continues (load (mem s) (data s + i)) = true) /\
     (exists b res, fst r = Ok (b, res, 70) /\ continues b = true) /\
     data (snd r) = data s + Z.of_nat fuel).
Proof.
  induction fuel as [|fuel IH]; intros byte result bitpos s Hc Hb r;
    subst r; rewrite varint_loop_eq, Hc, andb_true_r.
  - right; right. replace (bitpos <? 70) with false
      by (symmetry; apply Z.ltb_ge; lia).
    simpl. split; [intros; lia|]. split; [|lia].
    exists byte, result. split; auto. do 2 f_equal. lia.
  - replace (bitpos <? 70) with true by (symmetry; apply Z.ltb_lt; lia).
    destruct (Z.geb_spec (data s) (end_ s)) as [G|L].
    + right; left. exists 0. simpl.
      split; [lia|]. split; [lia|]. split; [intros; lia|]. split; [auto|lia].
    + set (b := load (mem s) (data s)).
      set (res := wrap T _). set (s1 := mk_pbf _ _ _ _ _ _).
      destruct (continues b) eqn:Hb1.
      * destruct (IH b res (bitpos + 7) s1 Hb1 ltac:(lia))
          as [(k & Hk & Hlt & Hall & Hstop & (res' & Hres) & Hd)
             |[(k & Hk & Hge & Hall & Hthrow & Hd)
              |(Hall & (b' & res' & Hres & Hb') & Hd)]];
          subst s1; simpl in *.
        -- left. exists (k + 1). repeat split; try lia.
           ++ intros i Hi. destruct (Z.eq_dec i 0) as [->|Ni].
              ** now rewrite Z.add_0_r.
              ** replace (data s + i) with (data s + 1 + (i - 1)) by lia.
                 apply Hall. lia.
           ++ now replace (data s + (k + 1)) with (data s + 1 + k) by lia.
           ++ exists res'. rewrite Hres.
              replace (data s + (k + 1)) with (data s + 1 + k) by lia.
              replace (bitpos + 7 * (k + 1 + 1))
                with (bitpos + 7 + 7 * (k + 1)) by lia.
              reflexivity.
        -- right; left. exists (k + 1). repeat split; try lia.
           ++ destruct (Z.eq_dec i 0) as [->|Ni]; [lia|].
              replace (data s + i) with (data s + 1 + (i - 1)) by lia.
              apply Hall. lia.
           ++ destruct (Z.eq_dec i 0) as [->|Ni].
              ** now rewrite Z.add_0_r.
              ** replace (data s + i) with (data s + 1 + (i - 1)) by lia.
                 apply Hall. lia.
           ++ exact Hthrow.
        -- right; right. split; [|split].
           ++ intros i Hi. destruct (Z.eq_dec i 0) as [->|Ni].
              ** rewrite Z.add_0_r. split; [lia|exact Hb1].
              ** replace (data s + i) with (data s + 1 + (i - 1)) by lia.
                 apply Hall. lia.
           ++ eauto.
           ++ lia.
      * left. exists 0. rewrite varint_loop_stop by exact Hb1.
        subst s1; simpl. rewrite !Z.add_0_r.
        repeat split; try lia; auto.
        exists res. do 3 f_equal.
Qed.

Lemma varint_eq T s :
  varint T s =
  match varint_loop T 10 0x80 0 0 s with
  | (Ok (byte, result, bitpos), s') =>
      if (bitpos =? 70) && continues byte
      then (Throw varint_too_long_exception, s')
      else (Ok result, s')
  | (Throw e, s') => (Throw e, s')
  end.
Proof.
  unfold varint, bind.
  destruct (varint_loop T 10 128 0 0 s) as [[[[b r] bp]|e] s']; auto.
  unfold continues. destruct ((bp =? 70) && negb (Z.land b 128 =? 0)); auto.
Qed.

(** The three outcomes of [varint], read off the bytes at the cursor. *)
Lemma varint_spec T s :
  let r := varint T s in
  (exists k, 0 <= k < 10 /\ data s + k < end_ s /\
     (forall i, 0 <= i < k -> continues (load (mem s) (data s + i)) = true) /\
     continues (load (mem s) (data s + k)) = false /\
     (exists res, fst r = Ok res) /\
     data (snd r) = data s + k + 1)
  \/ (exists k, 0 <= k < 10 /\ end_ s <= data s + k /\
     (forall i, 0 <= i < k ->
        data s + i < end_ s /\
        continues (load (mem s) (data s + i)) = true) /\
     fst r = Throw unterminated_varint_exception /\
     data (snd r) = data s + k)
  \/ ((forall i, 0 <= i < 10 ->
        data s + i < end_ s /\
        continues (load (mem s) (data s + i)) = true) /\
     fst r = Throw varint_too_long_exception /\
     data (snd r) = data s + 10).
Proof.
  intros r. subst r. rewrite varint_eq.
  destruct (varint_loop_spec T 10 0x80 0 0 s eq_refl eq_refl)
    as [(k & Hk & Hlt & Hall & Hstop & (res & Hres) & Hd)
       |[(k & Hk & Hge & Hall & Hthrow & Hd)
        |(Hall & (b & res & Hres & Hb) & Hd)]];
    destruct (varint_loop T 10 128 0 0 s) as [[[[b0 r0] bp0]|e] s'];
    simpl in *; try discriminate.
  - left. exists k. inversion Hres; subst.
    rewrite Hstop, andb_false_r. simpl. repeat split; try lia; eauto.
  - right; left. exists k. inversion Hthrow; subst. auto.
  - right; right. inversion Hres; subst. rewrite Hb. simpl. auto.
Qed.

Lemma varint_advances T : safe (varint T).
Proof.
  intros s. rewrite varint_eq.
  pose proof (varint_loop_advances T 10 0x80 0 0 s) as A.
  destruct (varint_loop T 10 128 0 0 s) as [[[[b0 r0] bp0]|e] s'];
    simpl in *; auto.
  destruct ((bp0 =? 70) && continues b0); auto.
Qed.

(** The loop and [varint] leave [value] and [tag] alone. *)
Lemma varint_loop_fields T fuel : forall byte result bitpos s,
  value (snd (varint_loop T fuel byte result bitpos s)) = value s /\
  tag (snd (varint_loop T fuel byte result bitpos s)) = tag s.
Proof.
  induction fuel as [|fuel IH]; intros byte result bitpos s;
    rewrite varint_loop_eq;
    destruct ((bitpos <? 70) && continues byte); simpl; auto.
  destruct (data s >=? end_ s); simpl; auto.
  match goal with |- context [varint_loop _ _ ?b ?r ?bp ?s1] =>
    destruct (IH b r bp s1) as [V G] end.
  simpl in *. auto.
Qed.

Lemma varint_fields T s :
  value (snd (varint T s)) = value s /\ tag (snd (varint T s)) = tag s.
Proof.
  rewrite varint_eq.
  pose proof (varint_loop_fields T 10 0x80 0 0 s) as A.
  destruct (varint_loop T 10 128 0 0 s) as [[[[b0 r0] bp0]|e] s'];
    simpl in *; auto.
  destruct ((bp0 =? 70) && continues b0); auto.
Qed.

(** Ten rounds are all the loop can make: more fuel changes nothing. *)
Lemma varint_loop_fuel T fuel : forall extra byte result bitpos s,
  bitpos = 70 - 7 * Z.of_nat fuel ->
  varint_loop T (fuel + extra) byte result bitpos s
  = varint_loop T fuel byte result bitpos s.
Proof.
  induction fuel as [|fuel IH]; intros extra byte result bitpos s Hb.
  - rewrite !varint_loop_eq.
    replace (bitpos <? 70) with false by (symmetry; apply Z.ltb_ge; lia).
    simpl. now destruct extra.
  - rewrite (varint_loop_eq T (S fuel + extra) byte),
      (varint_loop_eq T (S fuel) byte).
    cbn [Nat.add].
    destruct ((bitpos <? 70) && continues byte); auto.
    destruct (data s >=? end_ s); auto.
    apply IH. lia.
Qed.

Lemma skipBytes_eq bytes s :
  skipBytes bytes s =
  let s' := mk_pbf (mem s) (data s + wrap uint32_t bytes) (end_ s)
                   (value s) (tag s) (trace s) in
  if data s + wrap uint32_t bytes >? end_ s
  then (Throw end_of_buffer_exception, s')
  else (Ok tt, s').
Proof.
  unfold skipBytes, bind, get_data, set_data, get_end, throw, ret. simpl.
  destruct (data s + wrap uint32_t bytes >? end_ s); reflexivity.
Qed.

Lemma wrap_uint32_nonneg z : 0 <= wrap uint32_t z.
Proof.
  pose proof (wrap_in_range uint32_t z ltac:(simpl; lia)) as R.
  unfold in_range in R. simpl in R. lia.
Qed.

Lemma skipBytes_advances bytes : safe (skipBytes bytes).
Proof.
  intros s. rewrite skipBytes_eq. pose proof (wrap_uint32_nonneg bytes).
  cbv zeta. destruct (_ >? _); unfold advances; simpl;
    (repeat split; try lia; exists []; auto).
Qed.

(** [skipBytes] followed by a read of the [n] bytes just skipped. *)
Lemma skip_then_read_advances n :
  Z.of_nat n < 2 ^ 32 ->
  safe (let* _ := skipBytes (Z.of_nat n) in
        let* d := get_data in
        read_bytes n (d - Z.of_nat n)).
Proof.
  intros Hn s. unfold bind at 1. rewrite skipBytes_eq. cbv zeta.
  destruct (Z.gtb_spec (data s + wrap uint32_t (Z.of_nat n)) (end_ s))
    as [G|L]; simpl.
  - pose proof (wrap_uint32_nonneg (Z.of_nat n)).
    unfold advances; simpl. repeat split; try lia. exists []; auto.
  - unfold bind, get_data. simpl.
    match goal with |- context [read_bytes n ?p ?s1] =>
      destruct (read_bytes_spec n p s1) as (bs & new & E & F & Len) end.
    rewrite E. simpl in *.
    pose proof (wrap_uint32_nonneg (Z.of_nat n)).
    assert (wrap uint32_t (Z.of_nat n) = Z.of_nat n) as W.
    { apply wrap_id; [simpl; lia|]. unfold in_range; simpl. lia. }
    unfold advances; simpl. repeat split; try lia.
    exists new. split; auto.
    eapply List.Forall_impl; [|exact F]. simpl. intros q Hq. lia.
Qed.

Lemma float32_advances : safe float32.
Proof. apply (skip_then_read_advances 4). simpl; lia. Qed.

Lemma float64_advances : safe float64.
Proof. apply (skip_then_read_advances 8). simpl; lia. Qed.

Lemma boolean_advances : safe boolean.
Proof.
  intros s. unfold boolean. unfold bind at 1. rewrite skipBytes_eq. cbv zeta.
  change (wrap uint32_t 1) with 1.
  destruct (Z.gtb_spec (data s + 1) (end_ s)) as [G|L]; simpl.
  - unfold advances; simpl. repeat split; try lia. exists []; auto.
  - unfold advances; simpl. repeat split; try lia.
    exists [data s + 1 - 1]. split; auto. constructor; auto. lia.
Qed.

Lemma svarint_advances T : safe (svarint T).
Proof.
  apply safe_bind; [apply varint_advances|]. intros; apply safe_ret.
Qed.

Lemma next_advances : safe next.
Proof.
  intros s. unfold next, bind at 1 2, get_data, get_end.
  destruct (data s <? end_ s); [|apply advances_refl].
  revert s. change (safe (let* v := varint uint32_t in
       let* _ := set_value (wrap uint32_t v) in
       let* _ := set_tag (Z.shiftr (wrap uint32_t v) 3) in ret true)).
  apply safe_bind; [apply varint_advances|]. intros v.
  apply safe_bind; [apply safe_set_value|]. intros _.
  apply safe_bind; [apply safe_set_tag|]. intros _. apply safe_ret.
Qed.

Lemma string_advances : safe string_.
Proof.
  intros s. unfold string_. unfold bind at 1.
  pose proof (varint_advances uint32_t s) as A.
  destruct (varint uint32_t s) as [[n|e] s1]; simpl in *; auto.
  eapply advances_trans; [exact A|]. clear A.
  unfold bind at 1, get_data. unfold bind at 1. rewrite skipBytes_eq.
  cbv zeta. set (b := wrap uint32_t (wrap uint32_t n)).
  assert (b = wrap uint32_t n) as Eb.
  { subst b. apply wrap_id; [simpl; lia|].
    apply wrap_in_range. simpl; lia. }
  pose proof (wrap_uint32_nonneg n) as Hn. rewrite <- Eb in Hn.
  destruct (Z.gtb_spec (data s1 + b) (end_ s1)) as [G|L]; simpl.
  - unfold advances; simpl. repeat split; try lia. exists []; auto.
  - unfold bind.
    match goal with |- context [read_bytes ?k ?p ?s2] =>
      destruct (read_bytes_spec k p s2) as (bs & new & E & F & Len) end.
    rewrite E. simpl in *.
    unfold advances; simpl. repeat split; try lia.
    exists new. split; auto.
    eapply List.Forall_impl; [|exact F]. simpl. intros q Hq.
    rewrite <- Eb in Hq. lia.
Qed.

Lemma skipValue_advances val : safe (skipValue val).
Proof.
  unfold skipValue.
  destruct (Z.land (wrap uint32_t val) 7) as [|[[[]|[]|]|[[]|[]|]|]|];
    try apply safe_throw; try apply skipBytes_advances.
  - apply safe_bind; [apply varint_advances|]. intros; apply safe_ret.
  - apply safe_bind; [apply varint_advances|]. intros.
    apply skipBytes_advances.
Qed.

Lemma skip_advances : safe skip.
Proof.
  apply safe_bind; [apply safe_get_value|]. apply skipValue_advances.
Qed.

(** Every public member function only moves the cursor forward and only
    dereferences offsets from the cursor up to, and not including, [end]. *)
Lemma exec_advances c s : advances s (exec c s).
Proof.
  destruct c; simpl.
  - apply next_advances.
  - apply varint_advances.
  - apply svarint_advances.
  - apply string_advances.
  - apply float32_advances.
  - apply float64_advances.
  - apply boolean_advances.
  - apply skip_advances.
  - apply skipValue_advances.
  - apply skipBytes_advances.
Qed.

Lemma exec_all_advances cs : forall s, advances s (exec_all cs s).
Proof.
  induction cs as [|c cs IH]; intros s; simpl.
  - apply advances_refl.
  - eapply advances_trans; [apply exec_advances|apply IH].
Qed.

Lemma next_at_end s : end_ s <= data s -> next s = (Ok false, s).
Proof.
  intros Hge. unfold next, bind, get_data, get_end, ret.
  replace (data s <? end_ s) with false by (symmetry; apply Z.ltb_ge; lia).
  reflexivity.
Qed.



(** C9.  When [skipBytes] throws [end_of_buffer_exception] the cursor has
    been advanced by [bytes] and is left past [end]; from then on, whatever
    member functions are called in between, [next()] returns [false] (and
    changes nothing). *)
Theorem skipBytes_failure_leaves_cursor_past_end bytes s :
  fst (skipBytes bytes s) = Throw end_of_buffer_exception ->
  let s' := snd (skipBytes bytes s) in
  data s' = data s + wrap uint32_t bytes /\
  end_ s' < data s' /\
  forall cs, next (exec_all cs s') = (Ok false, exec_all cs s').
Proof.
  rewrite skipBytes_eq. cbv zeta.
  destruct (Z.gtb_spec (data s + wrap uint32_t bytes) (end_ s)) as [G|L];
    simpl; [intros _|discriminate].
  split; [reflexivity|]. split; [exact G|].
  intros cs. apply next_at_end.
  match goal with |- context [exec_all cs ?s1] =>
    destruct (exec_all_advances cs s1) as (_ & He & Hd & _) end.
  simpl in *. lia.
Qed.

(** A byte without continuation bit at index [k < 10], reached before
    [end], ends the varint there. *)
Lemma varint_terminated T s k :
  0 <= k < 10 -> data s + k < end_ s ->
  (forall i, 0 <= i < k -> continues (load (mem s) (data s + i)) = true) ->
  continues (load (mem s) (data s + k)) = false ->
  exists res s1, varint T s = (Ok res, s1) /\ data s1 = data s + k + 1.
Proof.
  intros Hk Hlt Hall Hstop.
  destruct (varint_spec T s)
    as [(k' & Hk' & Hlt' & Hall' & Hstop' & (res & Hres) & Hd)
       |[(k' & Hk' & Hge & Hall' & _)
        |(Hall' & _)]].
  - assert (k' = k) as ->.
    { destruct (Z.lt_trichotomy k' k) as [L|[E|G]]; auto.
      - rewrite Hall in Hstop' by lia. discriminate.
      - rewrite Hall' in Hstop by lia. discriminate. }
    destruct (varint T s) as [r s1]; simpl in *. subst r. eauto.
  - exfalso. destruct (Z.le_gt_cases k' k) as [L|G]; [lia|].
    destruct (Hall' k ltac:(lia)) as [_ C]. congruence.
  - exfalso. destruct (Hall' k Hk) as [_ C]. congruence.
Qed.




(** C3, as the code has it.  The bound of the loop is [bitpos < 70]
    whatever [T] is: [varint<T>] throws [varint_too_long_exception] exactly
    when the ten bytes at the cursor all lie before [end] and all have the
    continuation bit set, and [unterminated_varint_exception] exactly when
    [end] is reached within fewer than ten bytes that all have it set. *)
Theorem varint_errors T s :
  (fst (varint T s) = Throw varint_too_long_exception <->
   forall i, 0 <= i < 10 ->
     data s + i < end_ s /\ continues (load (mem s) (data s + i)) = true)
  /\ (fst (varint T s) = Throw unterminated_varint_exception <->
      exists k, 0 <= k < 10 /\ end_ s <= data s + k /\
        forall i, 0 <= i < k ->
          data s + i < end_ s /\
          continues (load (mem s) (data s + i)) = true).
Proof.
  destruct (varint_spec T s)
    as [(k & Hk & Hlt & Hall & Hstop & (res & Hres) & Hd)
       |[(k & Hk & Hge & Hall & Ht & Hd)
        |(Hall & Ht & Hd)]].
  - split; (split; [congruence|]).
    + intros A. destruct (A k Hk) as [_ C]. congruence.
    + intros (k' & Hk' & Hge & A). exfalso.
      destruct (Z.le_gt_cases k' k) as [L|G]; [lia|].
      destruct (A k ltac:(lia)) as [_ C]. congruence.
  - split; split.
    + congruence.
    + intros A. destruct (A k Hk) as [C _]. lia.
    + intros _. exists k. auto.
    + intros _. exact Ht.
  - split; split.
    + intros _. exact Hall.
    + intros _. exact Ht.
    + congruence.
    + intros (k' & Hk' & Hge & A). exfalso.
      destruct (Hall k' Hk') as [C _]. lia.
Qed.

(** C6.  [varint<uint32_t>()] at the start of the one-byte buffer [0x80]
    throws [unterminated_varint_exception]. *)
Theorem varint_0x80_unterminated :
  fst (varint uint32_t (new_pbf [x80] 0 1))
  = Throw unterminated_varint_exception.
Proof. reflexivity. Qed.

(** C7.  [string()] at the start of the buffer [0x05 'h' 'e' 'l' 'l' 'o']
    returns "hello" and leaves the cursor at offset 6, past the five
    payload bytes (and at [end]). *)
Theorem string_hello :
  let s := new_pbf [x05; "h"%byte; "e"%byte; "l"%byte; "l"%byte; "o"%byte]
                   0 6 in
  fst (string_ s) = Ok "hello"%string /\
  data (snd (string_ s)) = 6 /\
  end_ (snd (string_ s)) = 6.
Proof. repeat split. Qed.

(** *** Round trip *)

Lemma byte_of_Z_value z :
  0 <= z < 256 -> Z.of_N (Byte.to_N (byte_of_Z z)) = z.
Proof.
  intros Hz. unfold byte_of_Z.
  destruct (Byte.of_N (Z.to_N z)) as [b|] eqn:E.
  - apply Byte.to_of_N in E. rewrite E. lia.
  - apply Byte.of_N_None_iff in E. lia.
Qed.

Lemma continues_iff b :
  continues b = Z.testbit b 7.
Proof.
  unfold continues. change 128 with (Z.shiftl 1 7).
  destruct (Z.testbit b 7) eqn:E.
  - apply negb_true_iff, Z.eqb_neq. intros C.
    apply (f_equal (fun z => Z.testbit z 7)) in C.
    rewrite Z.land_spec, E, Z.shiftl_spec in C by lia. discriminate.
  - apply negb_false_iff, Z.eqb_eq. apply Z.bits_inj'. intros n Hn.
    rewrite Z.land_spec, Z.shiftl_spec, Z.bits_0 by lia.
    destruct (Z.eq_dec n 7) as [->|N].
    + now rewrite E.
    + replace (Z.testbit 1 (n - 7)) with false; [apply andb_false_r|].
      destruct (Z.ltb_spec n 7).
      * now rewrite Z.testbit_neg_r by lia.
      * change 1 with (Z.ones 1). rewrite Z.ones_spec_high; auto. lia.
Qed.

Lemma small_byte_stops v : 0 <= v < 128 -> continues v = false.
Proof.
  intros Hv. rewrite continues_iff.
  apply Z.bits_above_log2; [lia|].
  destruct (Z.eq_dec v 0) as [->|N]; [simpl; lia|].
  apply Z.log2_lt_pow2; lia.
Qed.

Lemma group_byte_continues v :
  continues (Z.lor (Z.land v 127) 128) = true.
Proof.
  rewrite continues_iff, Z.lor_spec.
  change 128 with (Z.shiftl 1 7). rewrite Z.shiftl_spec by lia.
  simpl. apply orb_true_r.
Qed.

Lemma group_byte_range v : 0 <= Z.lor (Z.land v 127) 128 < 256.
Proof.
  assert (0 <= Z.land v 127 < 128) as B.
  { change 127 with (Z.ones 7). rewrite Z.land_ones by lia.
    apply Z.mod_pos_bound. lia. }
  split.
  - apply Z.lor_nonneg. lia.
  - change 256 with (2 ^ 8). apply Z.log2_lt_cancel.
    rewrite Z.log2_lor by lia. rewrite Z.log2_pow2 by lia.
    apply Z.max_lub_lt; [|simpl; lia].
    destruct (Z.eq_dec (Z.land v 127) 0) as [->|N]; [simpl; lia|].
    assert (Z.log2 (Z.land v 127) < 7); [|lia].
    apply Z.log2_lt_pow2; lia.
Qed.

Lemma group_byte_low7 v :
  Z.land (Z.lor (Z.land v 127) 128) 127 = Z.land v 127.
Proof.
  apply Z.bits_inj'. intros n Hn.
  rewrite !Z.land_spec, Z.lor_spec, Z.land_spec.
  change 127 with (Z.ones 7). change 128 with (Z.shiftl 1 7).
  destruct (Z.ltb_spec n 7).
  - rewrite Z.ones_spec_low, Z.shiftl_spec by lia.
    rewrite (Z.testbit_neg_r 1) by lia.
    now rewrite orb_false_r, !andb_true_r.
  - rewrite Z.ones_spec_high by lia. now rewrite !andb_false_r.
Qed.

(** The low seven bits survive the conversion to any [T] of 8 bits or
    more. *)
Lemma low7_wrap T b : 8 <= bits T -> Z.land (wrap T b) 127 = Z.land b 127.
Proof.
  intros Hb. change 127 with (Z.ones 7).
  apply (eqm_land_ones (bits T)); [lia|]. apply eqm_wrap. lia.
Qed.

(** A value is its low seven bits below the rest. *)
Lemma shiftl_split7 v bitpos :
  0 <= bitpos ->
  Z.shiftl v bitpos
  = Z.lor (Z.shiftl (Z.land v 127) bitpos)
          (Z.shiftl (Z.shiftr v 7) (bitpos + 7)).
Proof.
  intros Hb. apply Z.bits_inj'. intros n Hn.
  rewrite Z.lor_spec, !Z.shiftl_spec by lia.
  change 127 with (Z.ones 7). rewrite Z.land_spec.
  destruct (Z.ltb_spec n bitpos) as [L|G].
  - now rewrite !Z.testbit_neg_r by lia.
  - destruct (Z.ltb_spec (n - bitpos) 7) as [L7|G7].
    + rewrite Z.ones_spec_low by lia.
      rewrite (Z.testbit_neg_r _ (n - (bitpos + 7))) by lia.
      now rewrite andb_true_r, orb_false_r.
    + rewrite Z.ones_spec_high by lia. rewrite andb_false_r. simpl.
      rewrite Z.shiftr_spec by lia. f_equal. lia.
Qed.

Lemma holds_tail s b bs :
  holds s (b :: bs) ->
  data s < end_ s /\
  load (mem s) (data s) = Z.of_N (Byte.to_N b) /\
  forall v t tr,
    holds (mk_pbf (mem s) (data s + 1) (end_ s) v t tr) bs.
Proof.
  intros [Hlen Hall]. simpl length in *.
  split; [lia|]. split.
  - specialize (Hall 0%nat ltac:(simpl; lia)). simpl in Hall.
    now rewrite Z.add_0_r in Hall.
  - intros v t tr. split; simpl; [lia|].
    intros i Hi. specialize (Hall (S i) ltac:(simpl; lia)).
    simpl nth in Hall. rewrite <- Hall. f_equal. lia.
Qed.

Lemma shl_defined T x n :
  0 <= n < bits (promote T) -> shl T x n = wrap (promote T) (Z.shiftl x n).
Proof.
  intros Hn. unfold shl.
  replace (0 <=? n) with true by (symmetry; apply Z.leb_le; lia).
  replace (n <? bits (promote T)) with true
    by (symmetry; apply Z.ltb_lt; lia).
  reflexivity.
Qed.

(** The loop on the encoding of [v]: it stops on the last byte of the
    encoding, with [result] extended by [v] shifted to [bitpos], modulo
    the width of [T].  No shift count reaches the width of the promoted
    type, because [v] shifted to [bitpos] fits in it. *)
Lemma varint_loop_decode T :
  8 <= bits T ->
  forall fuel v byte result bitpos s,
  (1 <= fuel)%nat ->
  continues byte = true ->
  bitpos = 70 - 7 * Z.of_nat fuel -> 0 <= bitpos ->
  0 <= v < 2 ^ (7 * Z.of_nat fuel) ->
  bitpos = 0 \/ 1 <= v ->
  v * 2 ^ bitpos < 2 ^ bits (promote T) ->
  holds s (encode_varint_aux fuel v) ->
  exists b R bp s',
    varint_loop T fuel byte result bitpos s = (Ok (b, R, bp), s') /\
    continues b = false /\
    eqm (bits T) R (Z.lor result (Z.shiftl v bitpos)) /\
    in_range T R /\
    data s' = data s + Z.of_nat (length (encode_varint_aux fuel v)).
Proof.
  intros HT. pose proof (bits_promote T) as HP.
  induction fuel as [|fuel IH];
    intros v byte result bitpos s Hfuel Hc Hbp Hbp0 Hv Hfirst Hfit Hholds;
    [lia|].
  assert (0 <= bitpos < bits (promote T)) as Hshift.
  { split; [lia|]. destruct Hfirst as [->|Hv1]; [lia|].
    apply (Z.pow_lt_mono_r_iff 2); [lia|lia|].
    assert (2 ^ bitpos <= v * 2 ^ bitpos); [|lia].
    assert (0 < 2 ^ bitpos) by (apply Z.pow_pos_nonneg; lia). nia. }
  rewrite varint_loop_eq, Hc, andb_true_r.
  replace (bitpos <? 70) with true by (symmetry; apply Z.ltb_lt; lia).
  cbn [encode_varint_aux] in *.
  destruct (Z.ltb_spec v 128) as [Hsmall|Hbig].
  - (* last byte *)
    destruct (holds_tail _ _ _ Hholds) as (Hlt & Hload & _).
    rewrite byte_of_Z_value in Hload by lia.
    destruct (Z.geb_spec (data s) (end_ s)) as [G|_]; [lia|].
    rewrite Hload.
    rewrite varint_loop_stop by (apply small_byte_stops; lia).
    do 4 eexists. split; [reflexivity|].
    split; [apply small_byte_stops; lia|].
    split; [|split; [apply wrap_in_range; lia|simpl; lia]].
    eapply eqm_trans; [apply eqm_wrap; lia|].
    apply eqm_lor; [lia|apply eqm_refl|].
    rewrite shl_defined by lia.
    eapply eqm_trans; [apply eqm_wrap_promote; lia|].
    rewrite low7_wrap by lia.
    change 127 with (Z.ones 7). rewrite Z.land_ones by lia.
    rewrite Z.mod_small by lia. apply eqm_refl.
  - (* a continuing byte, then the rest *)
    destruct (holds_tail _ _ _ Hholds) as (Hlt & Hload & Htail).
    rewrite byte_of_Z_value in Hload by apply group_byte_range.
    destruct (Z.geb_spec (data s) (end_ s)) as [G|_]; [lia|].
    rewrite Hload.
    assert (1 <= Z.shiftr v 7) as Hrest.
    { rewrite Z.shiftr_div_pow2 by lia. change (2 ^ 7) with 128.
      apply Z.div_le_lower_bound; lia. }
    assert (Z.shiftr v 7 < 2 ^ (7 * Z.of_nat fuel)) as Hrest'.
    { rewrite Z.shiftr_div_pow2 by lia.
      apply Z.div_lt_upper_bound; [lia|].
      rewrite <- Z.pow_add_r by lia.
      replace (7 + 7 * Z.of_nat fuel) with (7 * Z.of_nat (S fuel)) by lia.
      lia. }
    assert (1 <= fuel)%nat as Hfuel'.
    { destruct fuel; [simpl in Hrest'; lia|lia]. }
    match goal with |- context [varint_loop T fuel ?b ?r ?bp ?s1] =>
      destruct (IH (Z.shiftr v 7) b r bp s1) as (b' & R & bp' & s' & E & Hb'
                                                 & HR & Hin & Hd)
    end; auto.
    + apply group_byte_continues.
    + lia.
    + lia.
    + lia.
    + rewrite Z.pow_add_r by lia.
      assert (Z.shiftr v 7 * 2 ^ 7 <= v).
      { rewrite Z.shiftr_div_pow2 by lia. change (2 ^ 7) with 128.
        pose proof (Z.mul_div_le v 128). lia. }
      assert (0 < 2 ^ bitpos) by (apply Z.pow_pos_nonneg; lia). nia.
    + exists b', R, bp', s'. split; [exact E|]. split; [exact Hb'|].
      split; [|split; [exact Hin|simpl in *; lia]].
      eapply eqm_trans; [exact HR|].
      rewrite (shiftl_split7 v bitpos) by lia.
      rewrite Z.lor_assoc.
      apply eqm_lor; [lia| |apply eqm_refl].
      eapply eqm_trans; [apply eqm_wrap; lia|].
      apply eqm_lor; [lia|apply eqm_refl|].
      rewrite shl_defined by lia.
      eapply eqm_trans; [apply eqm_wrap_promote; lia|].
      rewrite low7_wrap, group_byte_low7 by lia. apply eqm_refl.
Qed.

(** [varint<T>] on the encoding of [v] returns [v] converted to [T], and
    leaves the cursor past the encoding. *)
Lemma varint_decode T v s :
  8 <= bits T <= 64 ->
  0 <= v < 2 ^ bits (promote T) ->
  holds s (spec_encode_varint v) ->
  exists s', varint T s = (Ok (wrap T v), s') /\
             data s' = data s + Z.of_nat (length (spec_encode_varint v)).
Proof.
  intros HT Hv Hholds.
  assert (bits (promote T) <= 64) as HP.
  { unfold promote. destruct (bits T <? 32); simpl; lia. }
  destruct (varint_loop_decode T ltac:(lia) 10 v 0x80 0 0 s)
    as (b & R & bp & s' & E & Hb & HR & Hin & Hd); auto.
  - lia.
  - lia.
  - split; [lia|]. apply Z.lt_le_trans with (2 ^ bits (promote T)); [lia|].
    apply Z.pow_le_mono_r; simpl; lia.
  - simpl. lia.
  - exists s'. rewrite varint_eq. fold (spec_encode_varint v) in E.
    unfold spec_encode_varint in *. rewrite E, Hb, andb_false_r.
    split; [|exact Hd]. do 2 f_equal.
    apply (in_range_eqm_inj T); auto; try lia.
    + apply wrap_in_range. lia.
    + eapply eqm_trans; [exact HR|]. rewrite Z.lor_0_l, Z.shiftl_0_r.
      apply eqm_sym, eqm_wrap. lia.
Qed.

Lemma zigzag_nonneg v : 0 <= spec_zigzag v.
Proof. unfold spec_zigzag. destruct (Z.ltb_spec v 0); lia. Qed.

Lemma land1_mod2 z : Z.land z 1 = z mod 2.
Proof.
  change 1 with (Z.ones 1). rewrite Z.land_ones by lia. reflexivity.
Qed.

Lemma land1_range z : 0 <= Z.land z 1 <= 1.
Proof.
  rewrite land1_mod2. pose proof (Z.mod_pos_bound z 2 eq_refl). lia.
Qed.

(** The expression of [svarint] undoes zig-zag, over the integers. *)
Lemma zigzag_undo v :
  Z.lxor (Z.shiftr (spec_zigzag v) 1) (- Z.land (spec_zigzag v) 1) = v.
Proof.
  rewrite land1_mod2, Z.shiftr_div_pow2 by lia. change (2 ^ 1) with 2.
  unfold spec_zigzag. destruct (Z.ltb_spec v 0) as [N|P].
  - replace (- 2 * v - 1) with (1 + (- v - 1) * 2) by lia.
    rewrite Z.div_add, Z.mod_add by lia.
    change (1 / 2) with 0. change (1 mod 2) with 1.
    rewrite Z.lxor_m1_r. unfold Z.lnot. lia.
  - replace (2 * v) with (0 + v * 2) by lia.
    rewrite Z.div_add, Z.mod_add by lia.
    change (0 / 2) with 0. change (0 mod 2) with 0. simpl.
    apply Z.lxor_0_r.
Qed.

Lemma pow2_half w : 1 <= w -> 2 ^ w = 2 * 2 ^ (w - 1).
Proof.
  intros Hw. rewrite <- Z.pow_succ_r by lia. f_equal. lia.
Qed.

(** [svarint<T>] on the encoding of the zig-zag image of [v], when that
    image is a value of [T], returns [v] converted to [T]. *)
Lemma svarint_decode T v s :
  8 <= bits T <= 64 ->
  in_range T (spec_zigzag v) ->
  holds s (spec_encode_varint (spec_zigzag v)) ->
  fst (svarint T s) = Ok (wrap T v).
Proof.
  intros HT Hz Hholds. pose proof (zigzag_nonneg v) as Hz0.
  pose proof (bits_promote T) as HP.
  pose proof (pow2_half (bits T) ltac:(lia)) as Hhalf.
  assert (0 < 2 ^ (bits T - 1)) as Hpos by (apply Z.pow_pos_nonneg; lia).
  assert (spec_zigzag v < 2 ^ bits (promote T)) as Hfit.
  { apply Z.lt_le_trans with (2 ^ bits T).
    - unfold in_range in Hz. destruct (is_signed T); lia.
    - apply Z.pow_le_mono_r; lia. }
  destruct (varint_decode T (spec_zigzag v) s HT ltac:(lia) Hholds)
    as (s' & E & _).
  unfold svarint, bind. rewrite E. simpl. f_equal.
  rewrite (wrap_id T (spec_zigzag v)) by (auto; lia).
  assert (in_range T (Z.land (spec_zigzag v) 1)) as H1.
  { pose proof (land1_range (spec_zigzag v)).
    assert (2 <= 2 ^ (bits T - 1)).
    { change 2 with (2 ^ 1) at 1. apply Z.pow_le_mono_r; lia. }
    unfold in_range. destruct (is_signed T); lia. }
  rewrite (wrap_id T (Z.land _ 1)) by (auto; lia).
  apply (in_range_eqm_inj T); try (apply wrap_in_range); try lia.
  eapply eqm_trans; [apply eqm_wrap; lia|].
  eapply eqm_trans; [|apply eqm_sym, eqm_wrap; lia].
  rewrite <- (zigzag_undo v) at 3.
  apply eqm_lxor; [lia|apply eqm_refl|].
  unfold neg. apply eqm_wrap_promote. lia.
Qed.

(** C2, as the code has it.  [varint<T>] on the base-128 encoding of [v]
    returns [v] for every [v >= 0] that is a value of [T] (so for every
    [v < 2^35] when [T] has more than 35 bits, and for [v < 2^32] with the
    default [uint32_t]), leaving the cursor past the encoding.
    [svarint<T>] on the encoding of the zig-zag image of [v] returns [v]
    for a signed [T] when [-2^(bits-2) <= v < 2^(bits-2)], and the two's
    complement image [v mod 2^bits] for an unsigned [T] when
    [-2^(bits-1) <= v < 2^(bits-1)]. *)
Theorem varint_roundtrip :
  (forall T v s,
     8 <= bits T <= 64 -> 0 <= v -> in_range T v ->
     holds s (spec_encode_varint v) ->
     fst (varint T s) = Ok v /\
     data (snd (varint T s))
     = data s + Z.of_nat (length (spec_encode_varint v)))
  /\ (forall T v s,
     8 <= bits T <= 64 -> is_signed T = true ->
     - 2 ^ (bits T - 2) <= v < 2 ^ (bits T - 2) ->
     holds s (spec_encode_varint (spec_zigzag v)) ->
     fst (svarint T s) = Ok v)
  /\ (forall T v s,
     8 <= bits T <= 64 -> is_signed T = false ->
     - 2 ^ (bits T - 1) <= v < 2 ^ (bits T - 1) ->
     holds s (spec_encode_varint (spec_zigzag v)) ->
     fst (svarint T s) = Ok (v mod 2 ^ bits T)).
Proof.
  split; [|split].
  - intros T v s HT Hv0 Hv Hholds.
    pose proof (bits_promote T) as HP.
    pose proof (pow2_half (bits T) ltac:(lia)) as Hhalf.
    assert (0 < 2 ^ (bits T - 1)) by (apply Z.pow_pos_nonneg; lia).
    destruct (varint_decode T v s HT) as (s' & E & Hd); auto.
    { split; [lia|]. apply Z.lt_le_trans with (2 ^ bits T).
      - unfold in_range in Hv. destruct (is_signed T); lia.
      - apply Z.pow_le_mono_r; lia. }
    rewrite E. simpl. split; [|exact Hd]. f_equal.
    apply wrap_id; [lia|exact Hv].
  - intros T v s HT Hs Hv Hholds.
    pose proof (pow2_half (bits T) ltac:(lia)) as Hh1.
    pose proof (pow2_half (bits T - 1) ltac:(lia)) as Hh2.
    replace (bits T - 1 - 1) with (bits T - 2) in Hh2 by lia.
    rewrite (svarint_decode T v s HT); auto.
    + f_equal. apply wrap_id; [lia|]. unfold in_range. rewrite Hs. lia.
    + unfold in_range, spec_zigzag. rewrite Hs.
      destruct (Z.ltb_spec v 0); lia.
  - intros T v s HT Hs Hv Hholds.
    pose proof (pow2_half (bits T) ltac:(lia)) as Hh1.
    rewrite (svarint_decode T v s HT); auto.
    + unfold wrap. now rewrite Hs.
    + unfold in_range, spec_zigzag. rewrite Hs.
      destruct (Z.ltb_spec v 0); lia.
Qed.

End Decoder.

(** *** Concrete runs *)

(** C2 fails for the default accumulator: [2^32 < 2^35] is encoded in five
    bytes, and [varint<uint32_t>] returns 0 on them. *)
Lemma varint_uint32_truncates :
  spec_encode_varint (2 ^ 32) = [x80; x80; x80; x80; x10] /\
  fst (@varint masking_platform uint32_t
         (new_pbf (spec_encode_varint (2 ^ 32)) 0 5)) = Ok 0.
Proof. split; reflexivity. Qed.

(** Beyond that range a signed accumulator loses the value: the shift
    [n >> 1] of [svarint<int32_t>] is arithmetic, and the zig-zag image of
    [2^30] comes back as [-2^30]. *)
Lemma svarint_int32_beyond_range :
  fst (@svarint masking_platform int32_t
         (new_pbf (spec_encode_varint (spec_zigzag (2 ^ 30))) 0 5))
  = Ok (- 2 ^ 30).
Proof. reflexivity. Qed.

(** C3 fails as stated: the six-byte varint [80 80 80 80 80 00] has no
    terminating byte within the five bytes a 32-bit value needs, and
    [varint<uint32_t>] throws nothing on it. *)
Lemma varint_uint32_six_bytes_accepted :
  forallb (fun i => continues (load [x80; x80; x80; x80; x80; x00] i))
          [0; 1; 2; 3; 4] = true /\
  fst (@varint masking_platform uint32_t
         (new_pbf [x80; x80; x80; x80; x80; x00] 0 6)) = Ok 0.
Proof. split; reflexivity. Qed.

Lemma holds_new_pbf bs :
  Z.of_nat (length bs) < 2 ^ 32 ->
  holds (new_pbf bs 0 (Z.of_nat (length bs))) bs.
Proof.
  intros Hlen. unfold holds, new_pbf. simpl.
  rewrite wrap_id by (simpl; unfold in_range; simpl; lia).
  split; [lia|]. intros i Hi. unfold load.
  rewrite Z.add_0_l.
  destruct (Z.ltb_spec (Z.of_nat i) 0); [lia|]. now rewrite Nat2Z.id.
Qed.

(** [varint<uint64_t>] on the two-byte encoding of 300. *)
Lemma varint_roundtrip_witness :
  fst (@varint masking_platform uint64_t
         (new_pbf (spec_encode_varint 300) 0 2)) = Ok 300 /\
  data (snd (@varint masking_platform uint64_t
               (new_pbf (spec_encode_varint 300) 0 2))) = 0 + 2.
Proof.
  apply (proj1 (@varint_roundtrip masking_platform) uint64_t 300).
  - simpl; lia.
  - lia.
  - unfold in_range; simpl; lia.
  - apply (holds_new_pbf (spec_encode_varint 300)). simpl; lia.
Defined.

(** [skipBytes(4)] on a one-byte buffer. *)
Lemma skipBytes_failure_witness :
  fst (skipBytes 4 (new_pbf [x01] 0 1))
  = Throw end_of_buffer_exception /\
  (data (snd (skipBytes 4 (new_pbf [x01] 0 1))) = 0 + 4 /\
   end_ (snd (skipBytes 4 (new_pbf [x01] 0 1)))
   < data (snd (skipBytes 4 (new_pbf [x01] 0 1))) /\
   forall cs,
     @next masking_platform
       (@exec_all masking_platform cs
          (snd (skipBytes 4 (new_pbf [x01] 0 1))))
     = (Ok false,
        @exec_all masking_platform cs
          (snd (skipBytes 4 (new_pbf [x01] 0 1))))).
Proof.
  split; [reflexivity|].
  apply (@skipBytes_failure_leaves_cursor_past_end masking_platform 4
           (new_pbf [x01] 0 1)).
  reflexivity.
Defined.

End PbfFacts.

(** ** The lifecycle of a tile *)

Module TileDataFacts.
Import TileData.

Section Lifecycle.
Variable Bucket : Type.
Variable decode : string -> option (list (string * Bucket)).

Implicit Types t : tile Bucket.

(** Nothing leaves [obsolete]. *)
Lemma step_obsolete o t :
  state t = obsolete -> state (step decode o t) = obsolete.
Proof.
  intros E. destruct o as [| | |r]; simpl;
    unfold request, parse, cancel, complete; rewrite E; simpl; auto.
Qed.

Lemma run_obsolete os : forall t,
  state t = obsolete -> state (run decode os t) = obsolete.
Proof.
  induction os as [|o os IH]; intros t E; simpl; auto.
  apply IH, step_obsolete, E.
Qed.

(** A step never moves back in the order of the declaration. *)
Lemma step_monotone o t :
  (rank (state t) <= rank (state (step decode o t)))%nat.
Proof.
  destruct t as [st d b r]. destruct o as [| | |[bytes|]]; simpl;
    unfold request, parse, cancel, complete; simpl;
    destruct st; simpl; try lia;
    destruct (decode d); simpl; lia.
Qed.

Lemma run_monotone os : forall t,
  (rank (state t) <= rank (state (run decode os t)))%nat.
Proof.
  induction os as [|o os IH]; intros t; simpl; [lia|].
  etransitivity; [apply (step_monotone o)|apply IH].
Qed.

(** [parsed] is entered by a successful [parse()] of a [loaded] tile, and
    in no other way. *)
Lemma step_parsed o t :
  state (step decode o t) = parsed ->
  state t = parsed \/
  (state t = loaded /\ o = Parse /\
   exists bs, decode (data t) = Some bs).
Proof.
  destruct t as [st d b r]. destruct o as [| | |[bytes|]]; simpl;
    unfold request, parse, cancel, complete; simpl;
    destruct st; simpl; try discriminate; auto.
  destruct (decode d) as [bs|]; simpl; [|discriminate].
  intros _. right. eauto.
Qed.

Lemma run_parsed os : forall t,
  state t <> parsed -> state (run decode os t) = parsed ->
  exists os1 os2,
    os = os1 ++ Parse :: os2 /\ state (run decode os1 t) = loaded /\
    exists bs, decode (data (run decode os1 t)) = Some bs.
Proof.
  induction os as [|o os IH]; intros t N E; simpl in E; [contradiction|].
  destruct (State_eqb (state (step decode o t)) parsed) eqn:P.
  - assert (state (step decode o t) = parsed) as P'.
    { destruct (state (step decode o t)); unfold State_eqb in P; simpl in P;
        congruence. }
    destruct (step_parsed o t P') as [C|(L & -> & D)]; [contradiction|].
    exists [], os. simpl. auto.
  - destruct (IH (step decode o t)) as (os1 & os2 & -> & L & D); auto.
    { intros C. rewrite C in P. unfold State_eqb in P. simpl in P.
      discriminate. }
    exists (o :: os1), os2. simpl. auto.
Qed.

(** C4 (lifecycle monotonicity).  For every tile and every sequence of
    [request()], [parse()], [cancel()] and completion callbacks: nothing
    leaves [obsolete]; a state never moves back in the order [invalid],
    [initial], [loading], [loaded], [parsed], [obsolete]; [parsed] is
    entered only from [loaded], by a [parse()] whose decode succeeds; and
    [cancel()] takes every state to [obsolete]. *)
Theorem lifecycle_monotone :
  (forall os t,
     state t = obsolete -> state (run decode os t) = obsolete)
  /\ (forall os t,
     (rank (state t) <= rank (state (run decode os t)))%nat)
  /\ (forall o t,
     state (step decode o t) = parsed ->
     state t = parsed \/
     (state t = loaded /\ o = Parse /\
      exists bs, decode (data t) = Some bs))
  /\ (forall os t,
     state t <> parsed -> state (run decode os t) = parsed ->
     exists os1 os2,
       os = os1 ++ Parse :: os2 /\ state (run decode os1 t) = loaded /\
       exists bs, decode (data (run decode os1 t)) = Some bs)
  /\ (forall t, state (step decode Cancel t) = obsolete).
Proof.
  split; [exact run_obsolete|].
  split; [exact run_monotone|].
  split; [exact step_parsed|].
  split; [exact run_parsed|].
  intros [st d b r]. simpl. unfold cancel. simpl. destruct st; reflexivity.
Qed.

End Lifecycle.

(** A tile that is requested, loaded and parsed went through [loaded]. *)
Lemma lifecycle_witness :
  exists os1 os2,
    [Request; Completion (Some "tile"%string); Parse] = os1 ++ Parse :: os2 /\
    state (run (fun _ => Some ([] : list (string * unit))) os1
             (mk_tile initial EmptyString [] false)) = loaded /\
    exists bs,
      (fun _ : string => Some ([] : list (string * unit)))
        (data (run (fun _ => Some ([] : list (string * unit))) os1
                 (mk_tile initial EmptyString [] false))) = Some bs.
Proof.
  apply (proj1 (proj2 (proj2 (proj2
           (lifecycle_monotone unit (fun _ => Some []))))));
    [discriminate|reflexivity].
Defined.

End TileDataFacts.

(** ** Request coalescing *)

Module FileSourceFacts.
Import FileSource.

Section Source.
Variable key_of : ResourceType -> string -> string.

Lemma started_app key ops k :
  started key (ops ++ [k])
  = (started key ops + if String.eqb k key then 1 else 0)%nat.
Proof.
  unfold started. rewrite List.filter_app, length_app. simpl.
  destruct (String.eqb k key); reflexivity.
Qed.

(** An event on another key leaves the entry and the count for [key]. *)
Lemma step_other_key key e s :
  match e with
  | Req _ type url => key_of type url <> key
  | Done k _ => k <> key
  end ->
  pending (step key_of e s) !! key = pending s !! key /\
  started key (operations (step key_of e s)) = started key (operations s).
Proof.
  destruct e as [w type url|k o]; simpl; intros N.
  - unfold request.
    destruct (pending s !! key_of type url) as [ws|]; simpl.
    + split; [apply lookup_insert_ne; auto|reflexivity].
    + split; [apply lookup_insert_ne; auto|].
      rewrite started_app.
      destruct (String.eqb_spec (key_of type url) key); [contradiction|lia].
  - unfold complete. destruct (pending s !! k) as [ws|]; simpl; auto.
    split; [apply lookup_delete_ne; auto|reflexivity].
Qed.

(** While an operation for [key] is in flight, every further request for
    [key] joins it: the waiters grow, the operations do not. *)
Lemma run_attached key es : forall s ws,
  in_flight key es = true ->
  pending s !! key = Some ws ->
  pending (run key_of es s) !! key = Some (ws ++ requesters key_of key es) /\
  started key (operations (run key_of es s)) = started key (operations s).
Proof.
  induction es as [|e es IH]; intros s ws F P; simpl.
  - rewrite app_nil_r. auto.
  - destruct e as [w type url|k o]; simpl in F |- *.
    + destruct (String.eqb_spec (key_of type url) key) as [E|N].
      * destruct (IH (request key_of w type url s) (ws ++ [w]) F)
          as [P' S'].
        { unfold request. rewrite E, P. simpl. apply lookup_insert_eq. }
        rewrite P', S', <- app_assoc. split; [reflexivity|].
        unfold request. rewrite E, P. reflexivity.
      * destruct (step_other_key key (Req w type url) s N) as [P1 S1].
        simpl in P1, S1.
        destruct (IH (request key_of w type url s) ws F) as [P' S'];
          [congruence|].
        rewrite P', S'. auto.
    + apply andb_true_iff in F as [N F]. apply negb_true_iff in N.
      apply String.eqb_neq in N.
      destruct (step_other_key key (Done k o) s N) as [P1 S1].
      simpl in P1, S1.
      destruct (IH (complete k o s) ws F) as [P' S']; [congruence|].
      rewrite P', S'. auto.
Qed.

(** From no entry for [key]: the first request for it starts the one
    operation, and the rest join. *)
Lemma run_fresh key es : forall s,
  in_flight key es = true ->
  pending s !! key = None ->
  requesters key_of key es <> [] ->
  pending (run key_of es s) !! key = Some (requesters key_of key es) /\
  started key (operations (run key_of es s))
  = S (started key (operations s)).
Proof.
  induction es as [|e es IH]; intros s F P R; simpl in *; [contradiction|].
  destruct e as [w type url|k o]; simpl in F |- *.
  - destruct (String.eqb_spec (key_of type url) key) as [E|N].
    + destruct (run_attached key es (request key_of w type url s) [w] F)
        as [P' S'].
      { unfold request. rewrite E, P. simpl. apply lookup_insert_eq. }
      rewrite P', S'. split; [reflexivity|].
      unfold request. rewrite E, P. simpl. rewrite started_app.
      rewrite String.eqb_refl. lia.
    + destruct (step_other_key key (Req w type url) s N) as [P1 S1].
      simpl in P1, S1.
      destruct (IH (request key_of w type url s) F) as [P' S'];
        [congruence|auto|].
      rewrite P', S'. auto.
  - apply andb_true_iff in F as [N F]. apply negb_true_iff in N.
    apply String.eqb_neq in N.
    destruct (step_other_key key (Done k o) s N) as [P1 S1].
    simpl in P1, S1.
    destruct (IH (complete k o s) F) as [P' S']; [congruence|auto|].
    rewrite P', S'. auto.
Qed.

(** C5 (coalescing).  From a state with no operation in flight for [key],
    let any events happen among which [N >= 1] requests are for [key] and
    none completes it: exactly one operation for [key] has been started,
    the [N] requesters are the waiters attached to it, and its completion
    hands every one of them the same outcome and removes the entry. *)
Theorem coalescing key es s o :
  pending s !! key = None ->
  in_flight key es = true ->
  requesters key_of key es <> [] ->
  let s' := run key_of es s in
  started key (operations s') = S (started key (operations s)) /\
  pending s' !! key = Some (requesters key_of key es) /\
  delivered (complete key o s')
  = delivered s' ++ map (fun w => (w, o)) (requesters key_of key es) /\
  operations (complete key o s') = operations s' /\
  pending (complete key o s') !! key = None.
Proof.
  intros P F R s'. destruct (run_fresh key es s F P R) as [P' S'].
  fold s' in P', S'. split; [exact S'|]. split; [exact P'|].
  unfold complete. rewrite P'. simpl.
  split; [reflexivity|]. split; [reflexivity|]. apply lookup_delete_eq.
Qed.

End Source.

(** Three requests, two of them for "a". *)
Lemma coalescing_witness :
  let key_of := fun (_ : ResourceType) (url : string) => url in
  let es := [Req 1 Tile "a"; Req 2 Style "b"; Req 3 Tile "a"]%string in
  let s' := run key_of es (mk_source ∅ [] []) in
  started "a" (operations s') = 1%nat /\
  pending s' !! "a"%string = Some [1%nat; 3%nat] /\
  delivered (complete "a" (Success "body") s')
  = delivered s' ++ [(1%nat, Success "body"); (3%nat, Success "body")] /\
  operations (complete "a" (Success "body") s') = operations s' /\
  pending (complete "a" (Success "body") s') !! "a"%string = None.
Proof.
  apply (coalescing (fun _ url => url) "a"
           [Req 1 Tile "a"; Req 2 Style "b"; Req 3 Tile "a"]%string
           (mk_source ∅ [] []) (Success "body")).
  - reflexivity.
  - reflexivity.
  - discriminate.
Defined.

End FileSourceFacts.

(** ** The zoom range of a parsed bucket *)

Module StyleParserFacts.
Import StyleParser.

Section Parser.
Variables (double float : Type) (to_float : double -> float).
Variables (StyleSource FilterExpression VisibilityType : Type).
Variables (StyleBucketFill StyleBucketLine StyleBucketSymbol
           StyleBucketRaster : Type).
Variables (default_filter : FilterExpression)
          (default_min_zoom default_max_zoom : float)
          (default_visibility : VisibilityType)
          (default_fill : StyleBucketFill) (default_line : StyleBucketLine)
          (default_symbol : StyleBucketSymbol)
          (default_raster : StyleBucketRaster).
Variable parseFilterExpression :
  parser double StyleSource -> JSValue double -> FilterExpression.
Variable parseLayoutProperties :
  parser double StyleSource -> JSValue double -> StyleLayerType ->
  VisibilityType *
  StyleBucketRender StyleBucketFill StyleBucketLine StyleBucketSymbol
                    StyleBucketRaster ->
  VisibilityType *
  StyleBucketRender StyleBucketFill StyleBucketLine StyleBucketSymbol
                    StyleBucketRaster.

(** The bucket [parseBucket] leaves in the layer: its [max_zoom] is the
    initial one, and its [min_zoom] is decided by the last two stages. *)
Lemma parseBucket_zooms p value layer :
  exists b,
    bucket (fst (parseBucket to_float default_filter default_min_zoom
                   default_max_zoom default_visibility default_fill
                   default_line default_symbol default_raster
                   parseFilterExpression parseLayoutProperties
                   p value layer)) = Some b /\
    max_zoom b = default_max_zoom /\
    min_zoom b =
      match member value "maxzoom" with
      | Some (JNumber d) => to_float d
      | _ =>
          match member value "minzoom" with
          | Some (JNumber d) => to_float d
          | _ => default_min_zoom
          end
      end.
Proof.
  unfold parseBucket.
  set (b0 := mk_bucket _ _ _ _ _ _ _ _).
  assert (max_zoom b0 = default_max_zoom /\ min_zoom b0 = default_min_zoom)
    as [X0 N0] by (split; reflexivity).
  clearbody b0.
  match goal with |- context [let '(_, _) := ?X in _] =>
    destruct X as [b1 w1] eqn:E1 end.
  assert (max_zoom b1 = default_max_zoom /\ min_zoom b1 = default_min_zoom)
    as [X1 N1] by (crack E1).
  clear E1 X0 N0.
  match goal with |- context [let '(_, _) := ?X in _] =>
    destruct X as [b2 w2] eqn:E2 end.
  assert (max_zoom b2 = default_max_zoom /\ min_zoom b2 = default_min_zoom)
    as [X2 N2] by (crack E2).
  clear E2 X1 N1.
  match goal with |- context [let '(_, _) := ?X in _] =>
    destruct X as [b3 w3] eqn:E3 end.
  assert (max_zoom b3 = default_max_zoom /\ min_zoom b3 = default_min_zoom)
    as [X3 N3].
  { revert E3. unfold parseLayout. intros E3. crack E3. }
  clear E3 X2 N2.
  match goal with |- context [let '(_, _) := ?X in _] =>
    destruct X as [b4 w4] eqn:E4 end.
  match goal with |- context [let '(_, _) := ?X in _] =>
    destruct X as [b5 w5] eqn:E5 end.
  exists b5. simpl. split; [reflexivity|].
  destruct (member value "maxzoom") as [[]|];
    destruct (member value "minzoom") as [[]|];
    inversion E4; subst; inversion E5; subst; simpl; auto.
Qed.

(** C10.  A numeric "maxzoom" member is stored into [min_zoom], the field
    a numeric "minzoom" member writes (and which "maxzoom" then
    overwrites); [max_zoom] keeps its initial value whatever the input. *)
Theorem maxzoom_stored_in_min_zoom :
  (forall p value layer d,
     member value "maxzoom" = Some (JNumber d) ->
     exists b,
       bucket (fst (parseBucket to_float default_filter default_min_zoom
                      default_max_zoom default_visibility default_fill
                      default_line default_symbol default_raster
                      parseFilterExpression parseLayoutProperties
                      p value layer)) = Some b /\
       min_zoom b = to_float d /\ max_zoom b = default_max_zoom)
  /\ (forall p value layer d,
     member value "maxzoom" = None ->
     member value "minzoom" = Some (JNumber d) ->
     exists b,
       bucket (fst (parseBucket to_float default_filter default_min_zoom
                      default_max_zoom default_visibility default_fill
                      default_line default_symbol default_raster
                      parseFilterExpression parseLayoutProperties
                      p value layer)) = Some b /\
       min_zoom b = to_float d)
  /\ (forall p value layer,
     exists b,
       bucket (fst (parseBucket to_float default_filter default_min_zoom
                      default_max_zoom default_visibility default_fill
                      default_line default_symbol default_raster
                      parseFilterExpression parseLayoutProperties
                      p value layer)) = Some b /\
       max_zoom b = default_max_zoom).
Proof.
  split; [|split].
  - intros p value layer d Hmax.
    destruct (parseBucket_zooms p value layer) as (b & Hb & Hx & Hn).
    rewrite Hmax in Hn. eauto.
  - intros p value layer d Hmax Hmin.
    destruct (parseBucket_zooms p value layer) as (b & Hb & Hx & Hn).
    rewrite Hmax, Hmin in Hn. eauto.
  - intros p value layer.
    destruct (parseBucket_zooms p value layer) as (b & Hb & Hx & Hn).
    eauto.
Qed.

End Parser.

(** A layer with "minzoom": 3 and "maxzoom": 10, zooms being integers
    here: the bucket has [min_zoom = 10] and the initial [max_zoom = 22]. *)
Lemma maxzoom_witness :
  exists b,
    bucket (fst (parseBucket (fun d : Z => d) tt 0%Z 22%Z tt tt tt tt tt
                   (fun _ _ => tt) (fun _ _ _ x => x)
                   (mk_parser ∅ (∅ : gmap string unit))
                   (JObject [("minzoom"%string, JNumber 3%Z);
                             ("maxzoom"%string, JNumber 10%Z)])
                   (mk_layer "water" Fill None))) = Some b /\
    min_zoom b = 10%Z /\ max_zoom b = 22%Z.
Proof.
  apply (proj1 (maxzoom_stored_in_min_zoom Z Z (fun d => d) unit unit unit
                  unit unit unit unit tt 0%Z 22%Z tt tt tt tt tt
                  (fun _ _ => tt) (fun _ _ _ x => x))).
  reflexivity.
Defined.

End StyleParserFacts.

(** ** The decoder on arbitrary well-formed input *)

Module PbfWireFacts.
Import CInt CIntFacts Pbf PbfFacts PbfWire.
Local Open Scope Z_scope.

Lemma byte_value_range b : 0 <= byte_value b < 256.
Proof.
  unfold byte_value. pose proof (Byte.to_N_bounded b). lia.
Qed.

Lemma groups_value_nonneg bs : 0 <= groups_value bs.
Proof.
  induction bs as [|b bs IH]; simpl; [lia|].
  assert (0 <= Z.land (byte_value b) 127).
  { apply Z.land_nonneg. right. lia. }
  lia.
Qed.

Lemma terminated_cons b bs :
  terminated (b :: bs) = true ->
  (bs = [] /\ continues (byte_value b) = false) \/
  (bs <> [] /\ continues (byte_value b) = true /\ terminated bs = true).
Proof.
  simpl. destruct bs as [|b' bs'].
  - intros E. left. split; auto. now apply negb_true_iff in E.
  - intros E. apply andb_true_iff in E as [E1 E2]. right.
    split; [discriminate|]. auto.
Qed.

(** Groups placed at [bitpos]: the first group, then the others seven bits
    higher. *)
Lemma shiftl_groups c g bitpos :
  0 <= bitpos -> 0 <= c < 128 -> 0 <= g ->
  Z.shiftl (c + 128 * g) bitpos
  = Z.lor (Z.shiftl c bitpos) (Z.shiftl g (bitpos + 7)).
Proof.
  intros Hb Hc Hg. rewrite (shiftl_split7 (c + 128 * g) bitpos) by lia.
  replace (c + 128 * g) with (c + g * 128) by lia.
  f_equal; f_equal.
  - change 127 with (Z.ones 7). rewrite Z.land_ones by lia.
    change (2 ^ 7) with 128. rewrite Z.mod_add by lia.
    apply Z.mod_small. lia.
  - rewrite Z.shiftr_div_pow2 by lia. change (2 ^ 7) with 128.
    rewrite Z.div_add by lia. rewrite (Z.div_small c) by lia. lia.
Qed.

Section Decoder.
Context `{Platform}.

(** The loop over any terminated sequence of groups: it stops on the last
    byte with [result] extended by the groups placed at [bitpos], modulo
    the width of [T], provided every shift count stays below the width of
    the promoted type. *)
Lemma varint_loop_groups T :
  8 <= bits T ->
  forall bs fuel byte result bitpos s,
  terminated bs = true ->
  (length bs <= fuel)%nat ->
  continues byte = true ->
  0 <= bitpos ->
  bitpos + 7 * Z.of_nat (length bs) <= 70 ->
  bitpos + 7 * (Z.of_nat (length bs) - 1) < bits (promote T) ->
  holds s bs ->
  exists b R bp s',
    varint_loop T fuel byte result bitpos s = (Ok (b, R, bp), s') /\
    continues b = false /\
    eqm (bits T) R (Z.lor result (Z.shiftl (groups_value bs) bitpos)) /\
    in_range T R /\
    s' = mk_pbf (mem s) (data s + Z.of_nat (length bs)) (end_ s)
                (value s) (tag s) (trace s').
Proof.
  intros HT. pose proof (bits_promote T) as HP.
  induction bs as [|b0 bs IH];
    intros fuel byte result bitpos s Hterm Hfuel Hc Hbp Hmax Hfit Hholds;
    [discriminate|].
  destruct fuel as [|fuel]; [simpl in Hfuel; lia|].
  simpl length in *.
  destruct (holds_tail _ _ _ Hholds) as (Hlt & Hload & Htail).
  fold (byte_value b0) in Hload.
  pose proof (byte_value_range b0) as Hrange.
  rewrite varint_loop_eq, Hc, andb_true_r.
  replace (bitpos <? 70) with true by (symmetry; apply Z.ltb_lt; lia).
  destruct (Z.geb_spec (data s) (end_ s)) as [G|_]; [lia|].
  rewrite Hload.
  assert (0 <= Z.land (byte_value b0) 127 < 128) as Hchunk.
  { change 127 with (Z.ones 7). rewrite Z.land_ones by lia.
    apply Z.mod_pos_bound. lia. }
  assert (eqm (bits T)
            (wrap T (Z.lor result
               (shl T (Z.land (wrap T (byte_value b0)) 127) bitpos)))
            (Z.lor result (Z.shiftl (Z.land (byte_value b0) 127) bitpos)))
    as Hstep.
  { eapply eqm_trans; [apply eqm_wrap; lia|].
    apply eqm_lor; [lia|apply eqm_refl|].
    rewrite shl_defined by lia.
    eapply eqm_trans; [apply eqm_wrap_promote; lia|].
    rewrite low7_wrap by lia. apply eqm_refl. }
  destruct (terminated_cons _ _ Hterm) as [[-> Hstop]|(Hne & Hcont & Hrest)].
  - rewrite varint_loop_stop by exact Hstop.
    do 4 eexists. split; [reflexivity|]. split; [exact Hstop|].
    split; [|split; [apply wrap_in_range; lia|reflexivity]].
    simpl groups_value. rewrite Z.mul_0_r, Z.add_0_r. exact Hstep.
  - match goal with |- context [varint_loop T fuel ?b ?r ?bp ?s1] =>
      destruct (IH fuel b r bp s1) as (b' & R & bp' & s' & E & Hb' & HR
                                       & Hin & Hs')
    end; auto; try lia.
    exists b', R, bp', s'. split; [exact E|]. split; [exact Hb'|].
    split; [|split; [exact Hin|]].
    + eapply eqm_trans; [exact HR|]. simpl groups_value.
      rewrite (shiftl_groups _ (groups_value bs) bitpos);
        auto using groups_value_nonneg.
      rewrite Z.lor_assoc.
      apply eqm_lor; [lia|exact Hstep|apply eqm_refl].
    + rewrite Hs' at 1. simpl. f_equal. lia.
Qed.

(** [varint<T>] on a terminated sequence of groups. *)
Lemma varint_groups T bs s :
  8 <= bits T ->
  terminated bs = true ->
  (length bs <= 10)%nat ->
  7 * (Z.of_nat (length bs) - 1) < bits (promote T) ->
  holds s bs ->
  fst (varint T s) = Ok (wrap T (groups_value bs)) /\
  snd (varint T s)
  = mk_pbf (mem s) (data s + Z.of_nat (length bs)) (end_ s) (value s)
           (tag s) (trace (snd (varint T s))).
Proof.
  intros HT Hterm Hlen Hfit Hholds.
  destruct (varint_loop_groups T HT bs 10 0x80 0 0 s)
    as (b & R & bp & s' & E & Hb & HR & Hin & Hs'); auto; try lia.
  rewrite varint_eq, E, Hb, andb_false_r. simpl. split; [|exact Hs'].
  f_equal. apply (in_range_eqm_inj T); auto; try lia.
  - apply wrap_in_range. lia.
  - eapply eqm_trans; [exact HR|]. rewrite Z.lor_0_l, Z.shiftl_0_r.
    apply eqm_sym, eqm_wrap. lia.
Qed.


(** *** Buffers and encodings *)

Lemma holds_ext s s' bs :
  mem s' = mem s -> data s' = data s -> end_ s' = end_ s ->
  holds s bs -> holds s' bs.
Proof.
  unfold holds. intros -> -> ->. auto.
Qed.

Lemma holds_app s a b :
  holds s (a ++ b) ->
  holds s a /\ holds (at_cursor s (data s + Z.of_nat (length a))) b.
Proof.
  unfold holds, at_cursor. intros [Hlen Hall]. simpl.
  rewrite length_app, Nat2Z.inj_add in Hlen. split; split; try lia.
  - intros i Hi. rewrite (Hall i) by (rewrite length_app; lia).
    now rewrite app_nth1.
  - intros i Hi.
    specialize (Hall (length a + i)%nat ltac:(rewrite length_app; lia)).
    rewrite app_nth2_plus in Hall. rewrite <- Hall. f_equal. lia.
Qed.

(** What [read_bytes] returns: the bytes stored at [p, p+n). *)
Lemma read_bytes_value n : forall p s,
  fst (read_bytes n p s)
  = Ok (map (fun i => load (mem s) (p + Z.of_nat i)) (seq 0 n)).
Proof.
  induction n as [|n IH]; intros p s; [reflexivity|].
  cbn [read_bytes]. unfold bind, deref.
  match goal with |- context [read_bytes n (p + 1) ?s1] =>
    specialize (IH (p + 1) s1);
    destruct (read_bytes n (p + 1) s1) as [[bs|e] s2] end;
    simpl in IH; [|discriminate].
  inversion IH; subst. simpl. rewrite Z.add_0_r. do 2 f_equal.
  rewrite <- seq_shift, map_map. apply map_ext. intros i. f_equal. lia.
Qed.

Lemma loads_of_bytes m bs : forall p,
  (forall i, (i < length bs)%nat ->
     load m (p + Z.of_nat i) = byte_value (nth i bs x00)) ->
  map (fun i => load m (p + Z.of_nat i)) (seq 0 (length bs))
  = map byte_value bs.
Proof.
  induction bs as [|b bs IH]; intros p Hall; [reflexivity|].
  simpl. f_equal.
  - apply (Hall 0%nat). simpl. lia.
  - rewrite <- seq_shift, map_map. rewrite <- (IH (p + 1)).
    + apply map_ext. intros i. f_equal. lia.
    + intros i Hi. specialize (Hall (S i) ltac:(simpl; lia)).
      simpl nth in Hall. rewrite <- Hall. f_equal. lia.
Qed.

Lemma holds_loads s bs :
  holds s bs ->
  map (fun i => load (mem s) (data s + Z.of_nat i)) (seq 0 (length bs))
  = map byte_value bs.
Proof.
  intros [_ Hall]. apply loads_of_bytes. exact Hall.
Qed.

Lemma string_of_byte_values bs :
  string_of_bytes (map byte_value bs) = string_of_list_byte bs.
Proof.
  unfold string_of_bytes, string_of_list_byte. f_equal.
  rewrite map_map. apply map_ext. intros b. unfold byte_value.
  rewrite N2Z.id. symmetry. apply ascii_of_byte_via_N.
Qed.

(** The minimal encoding is a terminated sequence of groups standing for
    the number it encodes, of at most [k] bytes for a number below
    [2^(7k)]. *)
Lemma encode_varint_aux_facts fuel : forall v,
  (1 <= fuel)%nat -> 0 <= v < 2 ^ (7 * Z.of_nat fuel) ->
  terminated (encode_varint_aux fuel v) = true /\
  groups_value (encode_varint_aux fuel v) = v /\
  (length (encode_varint_aux fuel v) <= fuel)%nat /\
  forall k, (1 <= k)%nat -> v < 2 ^ (7 * Z.of_nat k) ->
            (length (encode_varint_aux fuel v) <= k)%nat.
Proof.
  induction fuel as [|fuel IH]; intros v Hfuel Hv; [lia|].
  cbn [encode_varint_aux].
  destruct (Z.ltb_spec v 128) as [Hsmall|Hbig].
  - simpl. unfold byte_value. rewrite byte_of_Z_value by lia.
    rewrite small_byte_stops by lia. simpl.
    split; [reflexivity|]. split; [|split; [lia|intros; lia]].
    change 127 with (Z.ones 7). rewrite Z.land_ones by lia.
    rewrite Z.mod_small by lia. lia.
  - assert (1 <= Z.shiftr v 7) as Hrest.
    { rewrite Z.shiftr_div_pow2 by lia. change (2 ^ 7) with 128.
      apply Z.div_le_lower_bound; lia. }
    assert (forall k, v < 2 ^ (7 * Z.of_nat (S k)) ->
                      Z.shiftr v 7 < 2 ^ (7 * Z.of_nat k)) as Hshift.
    { intros k Hk. rewrite Z.shiftr_div_pow2 by lia.
      apply Z.div_lt_upper_bound; [lia|].
      rewrite <- Z.pow_add_r by lia.
      replace (7 + 7 * Z.of_nat k) with (7 * Z.of_nat (S k)) by lia.
      exact Hk. }
    pose proof (Hshift fuel ltac:(lia)) as Hrest'.
    assert (1 <= fuel)%nat as Hfuel'.
    { destruct fuel; [simpl in Hrest'; lia|lia]. }
    destruct (IH (Z.shiftr v 7) Hfuel' ltac:(lia)) as (Ht & Hg & Hl & Hk).
    assert (byte_value (byte_of_Z (Z.lor (Z.land v 127) 128))
            = Z.lor (Z.land v 127) 128) as Hb.
    { unfold byte_value. apply byte_of_Z_value, group_byte_range. }
    split; [|split; [|split]].
    + simpl. rewrite Hb, group_byte_continues, Ht.
      destruct (encode_varint_aux fuel (Z.shiftr v 7)); [discriminate|].
      reflexivity.
    + simpl groups_value. rewrite Hb, group_byte_low7, Hg.
      change 127 with (Z.ones 7). rewrite Z.land_ones by lia.
      rewrite Z.shiftr_div_pow2 by lia. change (2 ^ 7) with 128.
      pose proof (Z.div_mod v 128). lia.
    + simpl. lia.
    + intros k Hk1 Hvk. simpl.
      destruct k as [|k]; [lia|].
      assert (1 <= k)%nat.
      { destruct k; [|lia]. change (2 ^ (7 * Z.of_nat 1)) with 128 in Hvk.
        lia. }
      specialize (Hk k ltac:(lia) (Hshift k Hvk)). lia.
Qed.

Lemma encode_varint_facts v k :
  0 <= v < 2 ^ (7 * Z.of_nat k) -> (1 <= k <= 10)%nat ->
  terminated (spec_encode_varint v) = true /\
  groups_value (spec_encode_varint v) = v /\
  (1 <= length (spec_encode_varint v) <= k)%nat.
Proof.
  intros Hv Hk.
  destruct (encode_varint_aux_facts 10 v) as (Ht & Hg & Hl & Hlk); [lia| |].
  { split; [lia|]. apply Z.lt_le_trans with (2 ^ (7 * Z.of_nat k)); [lia|].
    apply Z.pow_le_mono_r; lia. }
  unfold spec_encode_varint. split; [exact Ht|]. split; [exact Hg|].
  split; [|apply Hlk; lia].
  destruct (encode_varint_aux 10 v); [discriminate|simpl; lia].
Qed.

Lemma terminated_nth bs :
  terminated bs = true ->
  forall i, (i < length bs)%nat ->
    continues (byte_value (nth i bs x00))
    = negb (Nat.eqb (S i) (length bs)).
Proof.
  induction bs as [|b bs IH]; intros Hterm i Hi; [discriminate|].
  destruct (terminated_cons _ _ Hterm) as [[-> Hstop]|(Hne & Hcont & Hrest)].
  - simpl in Hi. assert (i = 0)%nat as -> by lia. simpl. exact Hstop.
  - destruct i as [|i]; simpl.
    + rewrite Hcont. destruct bs; [contradiction|reflexivity].
    + simpl in Hi. rewrite (IH Hrest i) by lia. reflexivity.
Qed.

(** A terminated sequence at the cursor ends a varint of any accumulator
    type there, whatever shifts it took. *)
Lemma varint_skips T bs s :
  terminated bs = true -> (length bs <= 10)%nat -> holds s bs ->
  exists res s1,
    varint T s = (Ok res, s1) /\
    data s1 = data s + Z.of_nat (length bs) /\
    mem s1 = mem s /\ end_ s1 = end_ s /\
    value s1 = value s /\ tag s1 = tag s.
Proof.
  intros Hterm Hlen [Hend Hall].
  assert (1 <= length bs)%nat as Hpos by (destruct bs; [discriminate|simpl; lia]).
  destruct (varint_terminated T s (Z.of_nat (length bs) - 1))
    as (res & s1 & E & Hd); try lia.
  - intros i Hi. replace i with (Z.of_nat (Z.to_nat i)) by lia.
    rewrite Hall by lia. fold (byte_value (nth (Z.to_nat i) bs x00)).
    rewrite (terminated_nth bs Hterm) by lia.
    apply negb_true_iff, Nat.eqb_neq. lia.
  - replace (Z.of_nat (length bs) - 1) with (Z.of_nat (length bs - 1)) by lia.
    rewrite Hall by lia. fold (byte_value (nth (length bs - 1) bs x00)).
    rewrite (terminated_nth bs Hterm) by lia.
    apply negb_false_iff, Nat.eqb_eq. lia.
  - exists res, s1. split; [exact E|].
    destruct (varint_advances T s) as (Hm & He & _).
    destruct (varint_fields T s) as (Hv & Ht).
    rewrite E in *. simpl in *. repeat split; auto. lia.
Qed.

(** [next()] on the minimal encoding of a field header. *)
Lemma next_header t w s :
  0 <= t < 2 ^ 29 -> 0 <= w < 8 ->
  holds s (spec_encode_varint (t * 8 + w)) ->
  fst (next s) = Ok true /\
  tag (snd (next s)) = t /\
  value (snd (next s)) = t * 8 + w /\
  Z.land (value (snd (next s))) 7 = w /\
  data (snd (next s))
  = data s + Z.of_nat (length (spec_encode_varint (t * 8 + w))) /\
  end_ (snd (next s)) = end_ s /\ mem (snd (next s)) = mem s.
Proof.
  intros Ht Hw Hholds.
  assert (0 <= t * 8 + w < 2 ^ 32) as Hv by lia.
  destruct (encode_varint_facts (t * 8 + w) 5) as (Hterm & Hg & Hlen);
    [simpl; lia|lia|].
  destruct (varint_groups uint32_t _ s ltac:(simpl; lia) Hterm ltac:(lia)
              ltac:(simpl; lia) Hholds) as [Hr Hs].
  rewrite Hg in Hr.
  rewrite (wrap_id uint32_t) in Hr by (simpl; unfold in_range; simpl; lia).
  assert (data s < end_ s) as Hlt by (destruct Hholds; lia).
  assert (Z.shiftr (t * 8 + w) 3 = t) as Htag.
  { rewrite Z.shiftr_div_pow2 by lia. change (2 ^ 3) with 8.
    rewrite Z.div_add_l by lia. rewrite Z.div_small by lia. lia. }
  assert (Z.land (t * 8 + w) 7 = w) as Hlow.
  { change 7 with (Z.ones 3). rewrite Z.land_ones by lia.
    change (2 ^ 3) with 8. rewrite Z.add_comm, Z.mod_add by lia.
    apply Z.mod_small. lia. }
  destruct (next s) as [r sf] eqn:E.
  unfold next, bind, get_data, get_end, set_value, set_tag, ret in E.
  replace (data s <? end_ s) with true in E
    by (symmetry; apply Z.ltb_lt; lia).
  destruct (varint uint32_t s) as [r1 s1]. simpl in Hr, Hs. subst r1.
  rewrite (wrap_id uint32_t) in E by (simpl; unfold in_range; simpl; lia).
  rewrite Htag, Hs in E. inversion E; subst r sf.
  cbn [fst snd mem data end_ value tag trace]. auto 10.
Qed.

(** X3.  [string()] on a length-delimited payload: when the minimal
    encoding of the length and then the bytes of [payload] lie at the
    cursor, [string()] returns exactly those bytes and leaves the cursor
    past them. *)
Theorem string_reads_payload payload s :
  Z.of_nat (length payload) < 2 ^ 32 ->
  holds s (spec_encode_varint (Z.of_nat (length payload)) ++ payload) ->
  fst (string_ s) = Ok (string_of_list_byte payload) /\
  data (snd (string_ s))
  = data s
    + Z.of_nat (length (spec_encode_varint (Z.of_nat (length payload))
                        ++ payload)) /\
  end_ (snd (string_ s)) = end_ s /\ mem (snd (string_ s)) = mem s.
Proof.
  intros Hn Hholds. set (n := Z.of_nat (length payload)) in *.
  destruct (holds_app _ _ _ Hholds) as [Hpre Hpay].
  destruct (encode_varint_facts n 5) as (Hterm & Hg & Hlen);
    [subst n; simpl; lia|lia|].
  destruct (varint_groups uint32_t _ s ltac:(simpl; lia) Hterm ltac:(lia)
              ltac:(simpl; lia) Hpre) as [Hr Hs].
  rewrite Hg in Hr.
  assert (wrap uint32_t n = n) as Hwn
    by (apply wrap_id; [simpl; lia|unfold in_range; simpl; lia]).
  rewrite Hwn in Hr.
  destruct (string_ s) as [rf sf] eqn:Ef.
  unfold string_ in Ef. unfold bind at 1 in Ef.
  destruct (varint uint32_t s) as [r s1]. simpl in Hr, Hs. subst r.
  unfold bind at 1, get_data in Ef. unfold bind at 1 in Ef.
  rewrite skipBytes_eq in Ef. cbv zeta in Ef. rewrite !Hwn in Ef.
  assert (data s1 = data s
                    + Z.of_nat (length (spec_encode_varint n))) as Hd1
    by (rewrite Hs; reflexivity).
  assert (mem s1 = mem s /\ end_ s1 = end_ s) as [Hm1 He1]
    by (rewrite Hs; simpl; auto).
  destruct Hpay as [Hpend Hpall]. simpl in Hpend, Hpall.
  destruct (Z.gtb_spec (data s1 + n) (end_ s1)) as [G|_];
    [subst n; lia|].
  unfold bind in Ef.
  match type of Ef with context [read_bytes ?k ?p ?s2] =>
    destruct (read_bytes_spec k p s2) as (bs & new & E & _ & _);
    pose proof (read_bytes_value k p s2) as Hval
  end.
  rewrite E in Ef, Hval. simpl in Hval. inversion Hval as [Hbs]. clear Hval.
  unfold ret in Ef. inversion Ef; subst rf sf.
  cbn [fst snd mem data end_ value tag trace].
  rewrite length_app, Nat2Z.inj_add. fold n.
  split; [|rewrite Hd1, He1, Hm1; repeat split; lia].
  f_equal. rewrite <- string_of_byte_values. f_equal.
  rewrite Hbs. simpl mem. simpl data. subst n. rewrite Nat2Z.id, Hm1, Hd1.
  apply loads_of_bytes. exact Hpall.
Qed.


(** *** Fields *)

Lemma skipBytes_ok n s :
  0 <= n < 2 ^ 32 -> data s + n <= end_ s ->
  skipBytes n s = (Ok tt, at_cursor s (data s + n)).
Proof.
  intros Hn Hle. rewrite skipBytes_eq. cbv zeta.
  rewrite (wrap_id uint32_t) by (simpl; unfold in_range; simpl; lia).
  destruct (Z.gtb_spec (data s + n) (end_ s)) as [G|_]; [lia|reflexivity].
Qed.

(** [next()] then [skip()] over one well-formed field. *)
Lemma next_skip t p s :
  0 <= t < 2 ^ 29 -> well_formed p -> holds s (field t p) ->
  exists sf,
    bind next (fun _ => skip) s = (Ok tt, sf) /\
    data sf = data s + Z.of_nat (length (field t p)) /\
    end_ sf = end_ s /\ mem sf = mem s /\ tag sf = t.
Proof.
  intros Ht Hwf Hholds. unfold field in *.
  destruct (holds_app _ _ _ Hholds) as [Hhead Hpay].
  assert (0 <= wire_type p < 8) as Hw by (destruct p; simpl; lia).
  destruct (next_header t (wire_type p) s Ht Hw Hhead)
    as (Hr & Htag & Hval & Hlow & Hd & He & Hm).
  unfold bind at 1. destruct (next s) as [r s1]. simpl in *. subst r.
  rewrite length_app, Nat2Z.inj_add.
  set (lh := Z.of_nat (length (spec_encode_varint (t * 8 + wire_type p))))
    in *.
  assert (holds s1 (payload_bytes p)) as Hpay1.
  { eapply holds_ext; [| | |exact Hpay]; simpl; auto. }
  rewrite Hval in Hlow.
  unfold skip, bind at 1, get_value. rewrite Hval. unfold skipValue.
  rewrite (wrap_id uint32_t) by (simpl; unfold in_range; simpl; lia).
  rewrite Hlow.
  destruct p as [bs|bs|bs|bs]; cbn [wire_type payload_bytes] in *;
    simpl in Hwf; cbv iota.
  - destruct Hwf as [Hterm Hlen].
    destruct (varint_skips uint32_t bs s1 Hterm Hlen Hpay1)
      as (res & s2 & E & Hd2 & Hm2 & He2 & Hv2 & Ht2).
    unfold bind. rewrite E. exists s2. unfold ret.
    repeat split; try congruence. lia.
  - destruct Hpay1 as [Hend _]. rewrite Hwf in Hend.
    rewrite skipBytes_ok by lia. eexists. split; [reflexivity|].
    simpl. rewrite Hwf. repeat split; auto; lia.
  - destruct (holds_app _ _ _ Hpay1) as [Hlenp Hbody].
    destruct (encode_varint_facts (Z.of_nat (length bs)) 5)
      as (Hterm & Hg & Hlen); [simpl; lia|lia|].
    destruct (varint_groups uint32_t _ s1 ltac:(simpl; lia) Hterm ltac:(lia)
                ltac:(simpl; lia) Hlenp) as [Hres Hs2].
    rewrite Hg in Hres.
    rewrite (wrap_id uint32_t) in Hres
      by (simpl; unfold in_range; simpl; lia).
    unfold bind. destruct (varint uint32_t s1) as [r2 s2].
    simpl in Hres, Hs2. subst r2.
    rewrite (wrap_id uint32_t) by (simpl; unfold in_range; simpl; lia).
    destruct Hbody as [Hend _]. simpl in Hend.
    assert (data s2 = data s1
                      + Z.of_nat (length (spec_encode_varint
                                            (Z.of_nat (length bs))))
            /\ end_ s2 = end_ s1 /\ mem s2 = mem s1 /\ tag s2 = tag s1)
      as (Hd2 & He2 & Hm2 & Ht2) by (rewrite Hs2; simpl; auto).
    clear Hs2.
    rewrite skipBytes_ok by lia.
    eexists. split; [reflexivity|].
    simpl. rewrite length_app, Nat2Z.inj_add.
    rewrite He2, Hm2, Ht2. split; [lia|]. auto.
  - destruct Hpay1 as [Hend _]. rewrite Hwf in Hend.
    rewrite skipBytes_ok by lia. eexists. split; [reflexivity|].
    simpl. rewrite Hwf. repeat split; auto; lia.
Qed.

(** *** Frame *)

Lemma keeps_fields_bind A B (m : M A) (k : A -> M B) :
  keeps_fields m -> (forall a, keeps_fields (k a)) -> keeps_fields (bind m k).
Proof.
  intros Hm Hk s. unfold bind. destruct (Hm s) as [Hv Ht].
  destruct (m s) as [[a|e] s1]; simpl in *; auto.
  destruct (Hk a s1) as [Hv' Ht']. split; congruence.
Qed.

Lemma keeps_fields_ret A (a : A) : keeps_fields (ret a).
Proof. intros s. auto. Qed.

Lemma keeps_fields_varint T : keeps_fields (varint T).
Proof. intros s. apply varint_fields. Qed.

Lemma keeps_fields_skipBytes n : keeps_fields (skipBytes n).
Proof.
  intros s. rewrite skipBytes_eq. cbv zeta. destruct (_ >? _); auto.
Qed.

Lemma keeps_fields_read_bytes n p : keeps_fields (read_bytes n p).
Proof.
  intros s. destruct (read_bytes_spec n p s) as (bs & new & E & _).
  rewrite E. auto.
Qed.

Lemma keeps_fields_get_data : keeps_fields get_data.
Proof. intros s. auto. Qed.

Lemma keeps_fields_skipValue val : keeps_fields (skipValue val).
Proof.
  unfold skipValue.
  destruct (Z.land (wrap uint32_t val) 7) as [|[[[]|[]|]|[[]|[]|]|]|];
    try (intros s; simpl; auto; fail); try apply keeps_fields_skipBytes.
  - apply keeps_fields_bind; [apply keeps_fields_varint|].
    intros; apply keeps_fields_ret.
  - apply keeps_fields_bind; [apply keeps_fields_varint|].
    intros; apply keeps_fields_skipBytes.
Qed.

Lemma exec_keeps_fields c s :
  c <> CallNext ->
  value (exec c s) = value s /\ tag (exec c s) = tag s.
Proof.
  intros Hc. destruct c; simpl; try contradiction.
  - apply keeps_fields_varint.
  - apply keeps_fields_bind; [apply keeps_fields_varint|].
    intros; apply keeps_fields_ret.
  - revert s. apply keeps_fields_bind; [apply keeps_fields_varint|].
    intros n. apply keeps_fields_bind; [apply keeps_fields_get_data|].
    intros d. apply keeps_fields_bind; [apply keeps_fields_skipBytes|].
    intros _. apply keeps_fields_bind; [apply keeps_fields_read_bytes|].
    intros; apply keeps_fields_ret.
  - revert s. apply keeps_fields_bind; [apply keeps_fields_skipBytes|].
    intros _. apply keeps_fields_bind; [apply keeps_fields_get_data|].
    intros; apply keeps_fields_read_bytes.
  - revert s. apply keeps_fields_bind; [apply keeps_fields_skipBytes|].
    intros _. apply keeps_fields_bind; [apply keeps_fields_get_data|].
    intros; apply keeps_fields_read_bytes.
  - revert s. apply keeps_fields_bind; [apply keeps_fields_skipBytes|].
    intros _. apply keeps_fields_bind; [apply keeps_fields_get_data|].
    intros d. apply keeps_fields_bind.
    + intros s. simpl. auto.
    + intros; apply keeps_fields_ret.
  - revert s. apply keeps_fields_bind; [intros s; simpl; auto|].
    apply keeps_fields_skipValue.
  - apply keeps_fields_skipValue.
  - apply keeps_fields_skipBytes.
Qed.

(** *** The properties *)

(** X1.  [varint<T>] returns the number the groups at the cursor stand
    for, converted to [T], for every terminated sequence of at most ten
    bytes, minimal or padded, whose last shift count [7 * (n - 1)] is below
    the width of the promoted type; the cursor ends just past it and nothing
    else of the object changes but the trace. *)
Theorem varint_value T bs s :
  8 <= bits T ->
  terminated bs = true ->
  (length bs <= 10)%nat ->
  7 * (Z.of_nat (length bs) - 1) < bits (promote T) ->
  holds s bs ->
  fst (varint T s) = Ok (wrap T (groups_value bs)) /\
  snd (varint T s)
  = mk_pbf (mem s) (data s + Z.of_nat (length bs)) (end_ s) (value s)
           (tag s) (trace (snd (varint T s))).
Proof. apply varint_groups. Qed.

(** X2.  [next()] on a field header: when the minimal encoding of
    [(t << 3) | w] lies at the cursor, for a tag [t < 2^29] and a wire type
    [w < 8], [next()] returns [true], stores [t] in [tag] and the header in
    [value] (whose low three bits are [w]), and leaves the cursor past the
    header. *)
Theorem next_reads_header t w s :
  0 <= t < 2 ^ 29 -> 0 <= w < 8 ->
  holds s (spec_encode_varint (t * 8 + w)) ->
  fst (next s) = Ok true /\
  tag (snd (next s)) = t /\
  value (snd (next s)) = t * 8 + w /\
  Z.land (value (snd (next s))) 7 = w /\
  data (snd (next s))
  = data s + Z.of_nat (length (spec_encode_varint (t * 8 + w))) /\
  end_ (snd (next s)) = end_ s /\ mem (snd (next s)) = mem s.
Proof. apply next_header. Qed.

(** X4.  [next()] followed by [skip()] steps over exactly one field: for a
    tag below [2^29] and a well-formed payload of any of the four wire
    types (a varint of up to ten bytes, 8 bytes, a length and that many
    bytes, 4 bytes), the pair returns normally with the cursor at the first
    byte after the field and [tag] holding the tag of the field. *)
Theorem next_skip_field t p s :
  0 <= t < 2 ^ 29 -> well_formed p -> holds s (field t p) ->
  fst (bind next (fun _ => skip) s) = Ok tt /\
  data (snd (bind next (fun _ => skip) s))
  = data s + Z.of_nat (length (field t p)) /\
  end_ (snd (bind next (fun _ => skip) s)) = end_ s /\
  mem (snd (bind next (fun _ => skip) s)) = mem s /\
  tag (snd (bind next (fun _ => skip) s)) = t.
Proof.
  intros Ht Hwf Hholds.
  destruct (next_skip t p s Ht Hwf Hholds) as (sf & E & R).
  rewrite E. simpl. split; [reflexivity|exact R].
Qed.


(** X6.  [varint<T>] consumes at most ten bytes.  It returns or throws
    one of its two exceptions, and in every case leaves the cursor at most
    ten bytes on.  When it returns, the cursor has moved by one to ten
    bytes and is not past [end]; when it throws
    [varint_too_long_exception] the cursor is ten bytes on; when it throws
    [unterminated_varint_exception] the cursor has moved by fewer than ten
    bytes and is at [end], or where it was if that was at or past [end],
    so that [next()] returns [false] from then on, whatever is called in
    between. *)
Theorem varint_consumption T s :
  ((exists r, fst (varint T s) = Ok r) \/
   fst (varint T s) = Throw varint_too_long_exception \/
   fst (varint T s) = Throw unterminated_varint_exception)
  /\ data s <= data (snd (varint T s)) <= data s + 10
  /\ (forall r, fst (varint T s) = Ok r ->
     data s < data (snd (varint T s)) <= data s + 10 /\
     data (snd (varint T s)) <= end_ s)
  /\ (fst (varint T s) = Throw varint_too_long_exception ->
     data (snd (varint T s)) = data s + 10 /\
     data (snd (varint T s)) <= end_ s)
  /\ (fst (varint T s) = Throw unterminated_varint_exception ->
     data (snd (varint T s)) < data s + 10 /\
     data (snd (varint T s)) = Z.max (data s) (end_ s) /\
     forall cs,
       next (exec_all cs (snd (varint T s)))
       = (Ok false, exec_all cs (snd (varint T s)))).
Proof.
  destruct (varint_spec T s)
    as [(k & Hk & Hlt & Hall & Hstop & (res & Hres) & Hd)
       |[(k & Hk & Hge & Hall & Ht & Hd)
        |(Hall & Ht & Hd)]].
  - split; [left; eauto|]. split; [lia|].
    split; [|split]; try congruence. intros r _. lia.
  - split; [right; right; exact Ht|]. split; [lia|].
    split; [|split]; try congruence. intros _.
    split; [lia|]. split.
    + destruct (Z.eq_dec k 0) as [->|N]; [lia|].
      destruct (Hall (k - 1) ltac:(lia)) as [Hin _]. lia.
    + intros cs. apply next_at_end.
      destruct (exec_all_advances cs (snd (varint T s)))
        as (_ & He & Hd' & _).
      destruct (varint_advances T s) as (_ & He' & _). lia.
  - split; [right; left; exact Ht|]. split; [lia|].
    split; [|split]; try congruence. intros _.
    destruct (Hall 9 ltac:(lia)) as [Hin _]. lia.
Qed.

(** X7.  Over any sequence of calls the buffer and [end] stay as they are
    and the cursor never moves back; and as long as [next()] is not among
    the calls, [value] and [tag] stay as they are too. *)
Theorem calls_frame cs s :
  mem (exec_all cs s) = mem s /\
  end_ (exec_all cs s) = end_ s /\
  data s <= data (exec_all cs s) /\
  (Forall (fun c => c <> CallNext) cs ->
   value (exec_all cs s) = value s /\ tag (exec_all cs s) = tag s).
Proof.
  destruct (exec_all_advances cs s) as (Hm & He & Hd & _).
  split; [exact Hm|]. split; [exact He|]. split; [exact Hd|].
  clear. revert s. induction cs as [|c cs IH]; intros s Hno; simpl; auto.
  inversion Hno as [|? ? Hc Hrest]; subst.
  destruct (IH (exec c s) Hrest) as [Hv Ht].
  destruct (exec_keeps_fields c s Hc) as [Hv' Ht'].
  unfold exec_all in *. split; congruence.
Qed.

(** *** Declared lengths *)










End Decoder.




(** [varint<uint32_t>] on the padded encoding [81 80 00] of 1. *)
Lemma varint_value_witness :
  fst (@varint masking_platform uint32_t (new_pbf [x81; x80; x00] 0 3))
  = Ok 1%Z.
Proof.
  apply (proj1 (@varint_value masking_platform uint32_t [x81; x80; x00]
                  (new_pbf [x81; x80; x00] 0 3)
                  ltac:(simpl; lia) eq_refl ltac:(simpl; lia)
                  ltac:(simpl; lia)
                  (holds_new_pbf [x81; x80; x00] ltac:(simpl; lia)))).
Defined.

(** [next()] on the header [1a] of field 3 with wire type 2. *)
Lemma next_reads_header_witness :
  tag (snd (@next masking_platform (new_pbf [x1a] 0 1))) = 3%Z.
Proof.
  apply (proj1 (proj2 (@next_reads_header masking_platform 3 2
                         (new_pbf [x1a] 0 1)
                         ltac:(lia) ltac:(lia)
                         (holds_new_pbf [x1a] ltac:(simpl; lia))))).
Defined.

(** [string()] on the length 2 followed by "hi". *)
Lemma string_reads_payload_witness :
  fst (@string_ masking_platform (new_pbf [x02; "h"%byte; "i"%byte] 0 3))
  = Ok "hi"%string.
Proof.
  apply (proj1 (@string_reads_payload masking_platform ["h"%byte; "i"%byte]
                  (new_pbf [x02; "h"%byte; "i"%byte] 0 3)
                  ltac:(simpl; lia)
                  (holds_new_pbf [x02; "h"%byte; "i"%byte]
                     ltac:(simpl; lia)))).
Defined.


(** [varint<uint32_t>] on the two bytes [80 80], which end the buffer:
    the cursor is left at [end]. *)
Lemma varint_consumption_witness :
  data (snd (@varint masking_platform uint32_t (new_pbf [x80; x80] 0 2)))
  = Z.max 0 2.
Proof.
  apply (proj2 (proj2 (proj2 (proj2
           (@varint_consumption masking_platform uint32_t
              (new_pbf [x80; x80] 0 2)))))).
  reflexivity.
Defined.

(** [next()] and [skip()] over field 3 holding "hi", followed by one
    more byte. *)
Lemma next_skip_field_witness :
  data (snd (bind (@next masking_platform) (fun _ => @skip masking_platform)
               (new_pbf [x1a; x02; "h"%byte; "i"%byte; x08] 0 5)))
  = (0 + 4)%Z.
Proof.
  assert (holds (new_pbf [x1a; x02; "h"%byte; "i"%byte; x08] 0 5)
            (field 3 (Delimited ["h"%byte; "i"%byte]))) as Hholds.
  { split; [apply Z.leb_le; reflexivity|].
    intros i Hi. change (i < 4)%nat in Hi.
    do 4 (destruct i as [|i]; [reflexivity|]). lia. }
  apply (proj1 (proj2 (@next_skip_field masking_platform 3
                         (Delimited ["h"%byte; "i"%byte])
                         (new_pbf [x1a; x02; "h"%byte; "i"%byte; x08] 0 5)
                         ltac:(lia) ltac:(simpl; lia) Hholds))).
Defined.

End PbfWireFacts.

(** ** Constants, arrays and functions of the style parser *)

Module StyleParserMoreFacts.
Import StyleParser StyleParserMore.

Section Parser.
Variables (double float : Type) (to_float : double -> float).
Variable StyleSource : Type.
Implicit Types (p : parser double StyleSource) (v : JSValue double).
Implicit Types (cs : gmap string (JSValue double)).

Lemma FindMember_app ms1 ms2 name :
  FindMember double (ms1 ++ ms2) name
  = match FindMember double ms1 name with
    | Some v => Some v
    | None => FindMember double ms2 name
    end.
Proof.
  induction ms1 as [|[k v] ms1 IH]; simpl; auto.
  destruct (String.eqb k name); auto.
Qed.

(** What the table holds after the loop, name by name. *)
Lemma parseConstants_members_lookup ms : forall cs name,
  parseConstants_members ms cs !! name
  = match cs !! name with
    | Some v => Some v
    | None => if starts_with_at name then FindMember double ms name else None
    end.
Proof.
  induction ms as [|[k v] ms IH]; intros cs name; simpl.
  - destruct (cs !! name), (starts_with_at name); reflexivity.
  - rewrite IH. destruct (String.eqb_spec k name) as [->|N].
    + destruct (starts_with_at name) eqn:A.
      * destruct (cs !! name) as [c|] eqn:L; [now rewrite L|].
        now rewrite lookup_insert_eq.
      * reflexivity.
    + destruct (starts_with_at k).
      * destruct (cs !! k) eqn:L; [reflexivity|].
        now rewrite lookup_insert_ne.
      * reflexivity.
Qed.

(** X8.  [parseConstants] on an object adds exactly the members whose
    name starts with "@": a name already in the table keeps its value, a
    repeated name keeps its first value, and any other name stays
    undefined.  [replaceConstant] then turns a string into the value the
    table had for it before, else into the value of the first member of
    that name when the name starts with "@"; it leaves alone every other
    string, whether the name does not start with "@" or is the name of no
    member, and every value that is not a string.  Anything but an object
    changes nothing. *)
Theorem parseConstants_lookup p :
  (forall ms name,
     constants (fst (parseConstants p (JObject ms))) !! name
     = match constants p !! name with
       | Some v => Some v
       | None =>
           if starts_with_at name then FindMember double ms name else None
       end)
  /\ (forall ms name v,
     constants p !! name = None -> starts_with_at name = true ->
     FindMember double ms name = Some v ->
     replaceConstant (fst (parseConstants p (JObject ms))) (JString name)
     = v)
  /\ (forall ms name,
     constants p !! name = None -> starts_with_at name = false ->
     replaceConstant (fst (parseConstants p (JObject ms))) (JString name)
     = JString name)
  /\ (forall ms name c,
     constants p !! name = Some c ->
     replaceConstant (fst (parseConstants p (JObject ms))) (JString name)
     = c)
  /\ (forall ms name,
     constants p !! name = None -> FindMember double ms name = None ->
     replaceConstant (fst (parseConstants p (JObject ms))) (JString name)
     = JString name)
  /\ (forall ms v,
     (forall s, v <> JString s) ->
     replaceConstant (fst (parseConstants p (JObject ms))) v = v)
  /\ (forall v,
     (forall ms, v <> JObject ms) -> fst (parseConstants p v) = p).
Proof.
  split; [|split; [|split; [|split; [|split; [|split]]]]].
  - intros ms name. simpl. apply parseConstants_members_lookup.
  - intros ms name v Hnew Hat Hfind. unfold replaceConstant. simpl.
    now rewrite parseConstants_members_lookup, Hnew, Hat, Hfind.
  - intros ms name Hnew Hat. unfold replaceConstant. simpl.
    now rewrite parseConstants_members_lookup, Hnew, Hat.
  - intros ms name c Hold. unfold replaceConstant. simpl.
    now rewrite parseConstants_members_lookup, Hold.
  - intros ms name Hnew Hfind. unfold replaceConstant. simpl.
    rewrite parseConstants_members_lookup, Hnew, Hfind.
    now destruct (starts_with_at name).
  - intros ms v Hv. destruct v; try reflexivity.
    exfalso. eapply Hv. reflexivity.
  - intros v Hv. destruct v; try reflexivity.
    exfalso. eapply Hv. reflexivity.
Qed.

Lemma parseFloatArray_parts_numbers ds : forall vec,
  parseFloatArray_parts double float to_float (map JNumber ds) vec
  = (true, vec ++ map to_float ds, []).
Proof.
  induction ds as [|d ds IH]; intros vec; simpl.
  - now rewrite app_nil_r.
  - rewrite IH, <- app_assoc. reflexivity.
Qed.

Lemma parseFloatArray_parts_result parts : forall vec,
  fst (fst (parseFloatArray_parts double float to_float parts vec))
  = forallb IsNumber parts /\
  (fst (fst (parseFloatArray_parts double float to_float parts vec)) = false
   -> snd (fst (parseFloatArray_parts double float to_float parts vec)) = []).
Proof.
  induction parts as [|part parts IH]; intros vec; simpl.
  - split; [reflexivity|discriminate].
  - destruct part; simpl; auto.
Qed.

Lemma all_numbers parts :
  forallb (@IsNumber double) parts = true ->
  exists ds, parts = map JNumber ds.
Proof.
  induction parts as [|part parts IH]; simpl.
  - exists []. reflexivity.
  - intros Hall. apply andb_true_iff in Hall as [Hn Hrest].
    destruct (IH Hrest) as (ds & ->).
    destruct part; try discriminate. exists (d :: ds). reflexivity.
Qed.

(** X9.  [parseFloatArray] succeeds exactly on an array whose parts are
    all numbers, and then returns them converted, in order; it fails on
    an array with a part that is no number and on every value that is no
    array, and then the vector it returns is empty, whatever was converted
    before the offending part. *)
Theorem parseFloatArray_result :
  (forall ds,
     parseFloatArray to_float (JArray (map JNumber ds))
     = (true, map to_float ds, []))
  /\ (forall parts,
     fst (fst (parseFloatArray to_float (JArray parts)))
     = forallb IsNumber parts)
  /\ (forall v,
     (forall parts, v <> JArray parts) ->
     parseFloatArray to_float v = (false, [], [DasharrayNotNumbers]))
  /\ (forall v,
     fst (fst (parseFloatArray to_float v)) = true <->
     exists ds, v = JArray (map JNumber ds))
  /\ (forall v,
     fst (fst (parseFloatArray to_float v)) = false ->
     snd (fst (parseFloatArray to_float v)) = []).
Proof.
  split; [|split; [|split; [|split]]].
  - intros ds. simpl. apply (parseFloatArray_parts_numbers ds []).
  - intros parts. simpl. apply parseFloatArray_parts_result.
  - intros v Hv. destruct v; try reflexivity.
    exfalso. eapply Hv. reflexivity.
  - intros v. split.
    + destruct v; simpl; try discriminate.
      rewrite (proj1 (parseFloatArray_parts_result elems [])).
      intros Hall. destruct (all_numbers elems Hall) as (ds & ->). eauto.
    + intros (ds & ->). simpl.
      now rewrite (parseFloatArray_parts_numbers ds []).
  - intros v. destruct v; simpl; auto. apply parseFloatArray_parts_result.
Qed.

Section Function.
Variable T : Type.
Variable default_T : T.
Variable defaultBaseValue : float.
Variable parseFunctionArgument : JSValue double -> T * list notice.

Lemma parseFunction_stops_accepted zxs : forall base stops ws,
  fst (parseFunction_stops double float to_float T default_T
         parseFunctionArgument (map stop_of zxs) base stops ws)
  = (true,
     StopsFunction
       (stops ++ map (fun zx => (to_float (fst zx),
                                 fst (parseFunctionArgument (snd zx)))) zxs)
       base).
Proof.
  induction zxs as [|[z x] zxs IH]; intros base stops ws; simpl.
  - now rewrite app_nil_r.
  - destruct (parseFunctionArgument x) as [v w] eqn:E.
    rewrite IH, <- app_assoc. simpl. reflexivity.
Qed.

Lemma parseFunction_stops_rejected vs : forall base stops ws f,
  fst (parseFunction_stops double float to_float T default_T
         parseFunctionArgument vs base stops ws) = (false, f) ->
  f = ConstantFunction default_T.
Proof.
  induction vs as [|v vs IH]; intros base stops ws f; simpl.
  - discriminate.
  - destruct v as [| | | |[|z [|x [|y members]]]|]; simpl;
      try (intros [= <-]; reflexivity).
    destruct z; simpl; try (intros [= <-]; reflexivity).
    destruct (parseFunctionArgument x) as [v w]. apply IH.
Qed.

(** X10.  [parseFunction<T>] on an object whose "stops" member is an array
    of two-member arrays starting with a number returns a stops function
    with one stop per array, in order, each with its zoom converted and its
    value parsed as a function argument (a value that fails to parse still
    makes a stop), with the numeric "base" member as base and the default
    base when "base" is missing or not numeric.  Whenever it reports
    failure the function it returns is the constant [T()]. *)
Theorem parseFunction_result value :
  (forall zxs,
     member value "stops" = Some (JArray (map stop_of zxs)) ->
     fst (parseFunction to_float default_T defaultBaseValue
            parseFunctionArgument value)
     = (true,
        StopsFunction
          (map (fun zx => (to_float (fst zx),
                           fst (parseFunctionArgument (snd zx)))) zxs)
          match member value "base" with
          | Some (JNumber d) => to_float d
          | _ => defaultBaseValue
          end))
  /\ (forall f,
     fst (parseFunction to_float default_T defaultBaseValue
            parseFunctionArgument value) = (false, f) ->
     f = ConstantFunction default_T)
  /\ (member value "stops" = None ->
     parseFunction to_float default_T defaultBaseValue
       parseFunctionArgument value
     = (false, ConstantFunction default_T, [FunctionWithoutStops])).
Proof.
  unfold parseFunction. split; [|split].
  - intros zxs ->.
    destruct (member value "base") as [[]|]; simpl;
      apply (parseFunction_stops_accepted zxs _ []).
  - intros f. destruct (member value "stops") as [vs|];
      [|simpl; intros [= <-]; reflexivity].
    destruct (match member value "base" with
              | Some (JNumber d) => (to_float d, [])
              | Some _ => (defaultBaseValue, [BaseNotNumeric])
              | None => (defaultBaseValue, [])
              end) as [base w1].
    destruct vs; simpl; try (intros [= <-]; reflexivity).
    apply parseFunction_stops_rejected.
  - intros ->. reflexivity.
Qed.

End Function.
End Parser.

(** A string is no array. *)
Lemma parseFloatArray_witness :
  parseFloatArray (fun d : Z => d) (JString "1,2")
  = (false, [], [DasharrayNotNumbers]).
Proof.
  apply (proj1 (proj2 (proj2 (parseFloatArray_result Z Z (fun d => d)))));
    discriminate.
Defined.

(** The constants of [{"@a": 1, "b": 2, "@a": 3}], numbers being integers
    here: "@a" stands for 1, "b" for itself. *)
Lemma parseConstants_witness :
  replaceConstant
    (fst (parseConstants (mk_parser ∅ (∅ : gmap string unit))
            (JObject [("@a"%string, JNumber 1%Z); ("b"%string, JNumber 2%Z);
                      ("@a"%string, JNumber 3%Z)])))
    (JString "@a")
  = JNumber 1%Z.
Proof.
  apply (proj1 (proj2 (parseConstants_lookup Z unit
                         (mk_parser ∅ (∅ : gmap string unit))))).
  - reflexivity.
  - reflexivity.
  - reflexivity.
Defined.

(** A function with two stops, the second with a value that is no
    number. *)
Lemma parseFunction_witness :
  fst (parseFunction (fun d : Z => d) 0%Z 175%Z
         (parseFunctionArgument_float (fun d : Z => d) 0%Z
            (mk_parser ∅ (∅ : gmap string unit)))
         (JObject [("stops"%string,
                    JArray (map stop_of
                              [(1%Z, JNumber 10%Z); (5%Z, JNull)]))]))
  = (true, StopsFunction [(1%Z, 10%Z); (5%Z, 0%Z)] 175%Z).
Proof.
  apply (proj1 (parseFunction_result Z Z (fun d => d) Z 0%Z 175%Z
                  (parseFunctionArgument_float (fun d : Z => d) 0%Z
                     (mk_parser ∅ (∅ : gmap string unit)))
                  (JObject [("stops"%string,
                             JArray (map stop_of
                                       [(1%Z, JNumber 10%Z); (5%Z, JNull)]))]))
           [(1%Z, JNumber 10%Z); (5%Z, JNull)]).
  reflexivity.
Defined.

End StyleParserMoreFacts.

(** ** Layers and references *)

Module StyleLayersFacts.
Import StyleParser StyleParserMore StyleLayers.

Section Layers.
Variables (double float : Type) (to_float : double -> float).
Variables (StyleSource FilterExpression VisibilityType : Type).
Variables (StyleBucketFill StyleBucketLine StyleBucketSymbol
           StyleBucketRaster : Type).
Variables (default_filter : FilterExpression)
          (default_min_zoom default_max_zoom : float)
          (default_visibility : VisibilityType)
          (default_fill : StyleBucketFill) (default_line : StyleBucketLine)
          (default_symbol : StyleBucketSymbol)
          (default_raster : StyleBucketRaster).
Variable parseFilterExpression :
  parser double StyleSource -> JSValue double -> FilterExpression.
Variable parseLayoutProperties :
  parser double StyleSource -> JSValue double -> StyleLayerType ->
  VisibilityType *
  StyleBucketRender StyleBucketFill StyleBucketLine StyleBucketSymbol
                    StyleBucketRaster ->
  VisibilityType *
  StyleBucketRender StyleBucketFill StyleBucketLine StyleBucketSymbol
                    StyleBucketRaster.
Variable StyleLayerTypeClass : string -> StyleLayerType.

Local Abbreviation Layer :=
  (StyleLayer float StyleSource FilterExpression VisibilityType
              StyleBucketFill StyleBucketLine StyleBucketSymbol
              StyleBucketRaster).
Local Abbreviation Table := (gmap string (JSValue double * Layer)).
Local Abbreviation parse_bucket :=
  (parseBucket to_float default_filter default_min_zoom default_max_zoom
     default_visibility default_fill default_line default_symbol
     default_raster parseFilterExpression parseLayoutProperties).
Local Abbreviation parse_layer :=
  (parseLayer to_float default_filter default_min_zoom default_max_zoom
     default_visibility default_fill default_line default_symbol
     default_raster parseFilterExpression parseLayoutProperties
     StyleLayerTypeClass).

Implicit Types (p : parser double StyleSource) (layers : Table).
Implicit Types (layer : Layer) (value : JSValue double).

(** [parseBucket] keeps the id and the type of the layer and gives it a
    bucket. *)
Lemma parseBucket_layer p value layer :
  id (fst (parse_bucket p value layer)) = id layer /\
  type (fst (parse_bucket p value layer)) = type layer /\
  exists b, bucket (fst (parse_bucket p value layer)) = Some b.
Proof.
  unfold parseBucket.
  repeat match goal with
         | |- context [let '(_, _) := ?X in _] => destruct X
         end.
  simpl. eauto.
Qed.

Lemma preserves_refl layers : preserves layers layers.
Proof.
  intros k. destruct (layers !! k) as [[v l]|]; eauto.
Qed.

Lemma preserves_trans layers1 layers2 layers3 :
  preserves layers1 layers2 -> preserves layers2 layers3 ->
  preserves layers1 layers3.
Proof.
  intros H12 H23 k. specialize (H12 k). specialize (H23 k).
  destruct (layers1 !! k) as [[v l]|].
  - destruct H12 as (l2 & E2 & I2 & B2). rewrite E2 in H23.
    destruct H23 as (l3 & E3 & I3 & B3). exists l3.
    split; [exact E3|]. split; [congruence|]. auto.
  - rewrite H12 in H23. exact H23.
Qed.

Lemma preserves_insert layers lid value layer layer' :
  layers !! lid = Some (value, layer) ->
  id layer' = id layer ->
  (forall b, bucket layer = Some b -> bucket layer' = Some b) ->
  preserves layers (<[lid := (value, layer')]> layers).
Proof.
  intros E I B k. destruct (decide (lid = k)) as [->|N].
  - rewrite E. exists layer'. split; [apply lookup_insert_eq|]. auto.
  - destruct (layers !! k) as [[v l]|] eqn:Ek.
    + exists l. split; [|auto]. now rewrite lookup_insert_ne.
    + now rewrite lookup_insert_ne.
Qed.

(** The first step of [parseLayer]: the layer with its type read from the
    "type" member. *)
Lemma retype_layer value layer :
  let r :=
    match member value "type" with
    | Some (JString s) =>
        (mk_layer (id layer) (StyleLayerTypeClass s) (bucket layer), [])
    | Some _ => (layer, [TypeNotString (id layer)])
    | None => (layer, [])
    end in
  id (fst r) = id layer /\ bucket (fst r) = bucket layer.
Proof.
  destruct (member value "type") as [[]|]; simpl; auto.
Qed.

Lemma preserves_insert_after layers layers' lid v layer new :
  preserves layers layers' ->
  layers' !! lid = Some (v, layer) ->
  id new = id layer ->
  (forall v0 l0, layers !! lid = Some (v0, l0) -> bucket l0 = None) ->
  preserves layers (<[lid := (v, new)]> layers').
Proof.
  intros P E I B k. specialize (P k). destruct (decide (lid = k)) as [->|N].
  - destruct (layers !! k) as [[v0 l0]|] eqn:Ek.
    + destruct P as (l' & E' & I' & _). rewrite E in E'.
      inversion E'; subst. exists new.
      split; [apply lookup_insert_eq|]. split; [congruence|].
      intros b Hb. rewrite (B _ _ eq_refl) in Hb. discriminate.
    + congruence.
  - destruct (layers !! k) as [[v0 l0]|] eqn:Ek.
    + destruct P as (l' & E' & I' & B'). exists l'.
      split; [now rewrite lookup_insert_ne|]. auto.
    + now rewrite lookup_insert_ne.
Qed.

Lemma parseReference_preserves
    (rec : list string -> string -> Table ->
           option (Table * list layer_notice))
    stack value lid layer_id layers r ws :
  (forall stack lid layers r ws,
     rec stack lid layers = Some (r, ws) -> preserves layers r) ->
  (forall v l, layers !! lid = Some (v, l) -> bucket l = None) ->
  parseReference rec stack value lid layer_id layers = Some (r, ws) ->
  preserves layers r.
Proof.
  intros Hrec Hno. unfold parseReference.
  destruct value as [| | |ref| |]; try (intros [= <- <-]; apply preserves_refl).
  destruct (layers !! ref); [|intros [= <- <-]; apply preserves_refl].
  destruct (rec (lid :: stack) ref layers) as [[layers' ws']|] eqn:E;
    [|discriminate].
  apply Hrec in E.
  destruct (layers' !! ref) as [[vr reference]|];
    [|intros [= <- <-]; exact E].
  destruct (layers' !! lid) as [[v layer]|] eqn:El;
    [|intros [= <- <-]; exact E].
  intros [= <- <-]. eapply preserves_insert_after; eauto.
Qed.

Lemma parseLayer_preserves p fuel : forall stack lid layers r ws,
  parse_layer fuel p stack lid layers = Some (r, ws) ->
  preserves layers r.
Proof.
  induction fuel as [|fuel IH]; intros stack lid layers r ws; [discriminate|].
  cbn [parseLayer].
  destruct (layers !! lid) as [[value layer]|] eqn:E;
    [|intros [= <- <-]; apply preserves_refl].
  pose proof (retype_layer value layer) as R. cbv zeta in R.
  destruct (match member value "type" with
            | Some (JString s) => _ | Some _ => _ | None => _ end)
    as [layer1 w1]. simpl in R. destruct R as [I1 B1].
  assert (preserves layers (<[lid := (value, layer1)]> layers)) as P1.
  { apply (preserves_insert _ _ _ layer); auto. intros b. now rewrite B1. }
  destruct (bucket layer1) as [b1|] eqn:Eb; [intros [= <- <-]; exact P1|].
  destruct (existsb (String.eqb lid) stack); [intros [= <- <-]; exact P1|].
  destruct (member value "ref") as [ref|].
  - destruct (parseReference _ _ _ _ _ _) as [[layers' w2]|] eqn:Er;
      [|discriminate].
    intros [= <- <-]. eapply preserves_trans; [exact P1|].
    eapply parseReference_preserves; [exact IH| |exact Er].
    intros v l. rewrite lookup_insert_eq. intros [= <- <-]. exact Eb.
  - destruct (parse_bucket p value layer1) as [layer' wb] eqn:Ebk.
    intros [= <- <-]. eapply preserves_trans; [exact P1|].
    apply (preserves_insert _ _ _ layer1).
    + apply lookup_insert_eq.
    + pose proof (parseBucket_layer p value layer1) as (Hid & _).
      rewrite Ebk in Hid. exact Hid.
    + intros b. rewrite Eb. discriminate.
Qed.

(** The layers on the stack are distinct layers of the table, so there
    are no more of them than the table has. *)
Lemma stack_bound layers (stack : list string) :
  NoDup stack -> (forall x, x ∈ stack -> is_Some (layers !! x)) ->
  length stack <= size layers.
Proof.
  intros Hnd Hin. rewrite <- size_dom, <- (size_list_to_set (C := gset string)) by exact Hnd.
  apply subseteq_size. intros x Hx. apply elem_of_list_to_set in Hx.
  apply elem_of_dom. auto.
Qed.

Lemma not_on_stack lid (stack : list string) :
  existsb (String.eqb lid) stack = false -> lid ∉ stack.
Proof.
  intros E Hin. apply list_elem_of_In in Hin.
  assert (existsb (String.eqb lid) stack = true) as C; [|congruence].
  apply existsb_exists. exists lid. split; [exact Hin|apply String.eqb_refl].
Qed.

Lemma parseLayer_terminates p fuel : forall stack lid layers,
  NoDup stack -> (forall x, x ∈ stack -> is_Some (layers !! x)) ->
  size layers < fuel + length stack ->
  is_Some (parse_layer fuel p stack lid layers).
Proof.
  induction fuel as [|fuel IH]; intros stack lid layers Hnd Hin Hsize.
  - pose proof (stack_bound layers stack Hnd Hin). lia.
  - cbn [parseLayer].
    destruct (layers !! lid) as [[value layer]|] eqn:E; [|eauto].
    destruct (match member value "type" with
              | Some (JString s) => _ | Some _ => _ | None => _ end)
      as [layer1 w1].
    destruct (bucket layer1); [eauto|].
    destruct (existsb (String.eqb lid) stack) eqn:Est; [eauto|].
    destruct (member value "ref") as [ref|].
    + unfold parseReference.
      destruct (replaceConstant p ref); eauto.
      destruct (_ !! s); [|eauto].
      destruct (IH (lid :: stack) s (<[lid := (value, layer1)]> layers))
        as [[layers' ws'] Erec].
      * constructor; [apply not_on_stack, Est|exact Hnd].
      * intros x Hx. apply lookup_insert_is_Some.
        destruct (decide (lid = x)); [auto|]. right. split; [auto|].
        apply Hin. apply elem_of_cons in Hx as [->|Hx]; [congruence|auto].
      * rewrite map_size_insert_Some by eauto. simpl. lia.
      * rewrite Erec.
        destruct (layers' !! s) as [[]|], (layers' !! lid) as [[]|]; eauto.
    + destruct (parse_bucket p value layer1). eauto.
Qed.

Lemma parseLayer_fuel_mono p fuel : forall fuel' stack lid layers r,
  fuel <= fuel' ->
  parse_layer fuel p stack lid layers = Some r ->
  parse_layer fuel' p stack lid layers = Some r.
Proof.
  induction fuel as [|fuel IH]; intros fuel' stack lid layers r Hle;
    [discriminate|].
  destruct fuel' as [|fuel']; [lia|]. cbn [parseLayer].
  destruct (layers !! lid) as [[value layer]|]; [|auto].
  destruct (match member value "type" with
            | Some (JString s) => _ | Some _ => _ | None => _ end)
    as [layer1 w1].
  destruct (bucket layer1); [auto|].
  destruct (existsb (String.eqb lid) stack); [auto|].
  destruct (member value "ref") as [ref|]; [|auto].
  unfold parseReference.
  destruct (replaceConstant p ref); auto.
  destruct (_ !! s); [|auto].
  destruct (parse_layer fuel p (lid :: stack) s _) as [[layers' ws']|] eqn:E;
    [|discriminate].
  rewrite (IH fuel' _ _ _ _ ltac:(lia) E). auto.
Qed.

(** The bucket [parseBucket] builds bears the id of the layer. *)
Lemma parseBucket_name p value layer b :
  bucket (fst (parse_bucket p value layer)) = Some b -> name b = id layer.
Proof.
  unfold parseBucket.
  set (b0 := mk_bucket _ _ _ _ _ _ _ _).
  assert (name b0 = id layer) as N0 by reflexivity. clearbody b0.
  match goal with |- context [let '(_, _) := ?X in _] =>
    destruct X as [b1 w1] eqn:E1 end.
  assert (name b1 = id layer) as N1 by (crack E1). clear E1 N0.
  match goal with |- context [let '(_, _) := ?X in _] =>
    destruct X as [b2 w2] eqn:E2 end.
  assert (name b2 = id layer) as N2 by (crack E2). clear E2 N1.
  match goal with |- context [let '(_, _) := ?X in _] =>
    destruct X as [b3 w3] eqn:E3 end.
  assert (name b3 = id layer) as N3.
  { revert E3. unfold parseLayout. intros E3. crack E3. }
  clear E3 N2.
  match goal with |- context [let '(_, _) := ?X in _] =>
    destruct X as [b4 w4] eqn:E4 end.
  assert (name b4 = id layer) as N4 by (crack E4). clear E4 N3.
  match goal with |- context [let '(_, _) := ?X in _] =>
    destruct X as [b5 w5] eqn:E5 end.
  assert (name b5 = id layer) as N5 by (crack E5). clear E5 N4.
  simpl. intros [= <-]. exact N5.
Qed.

Lemma preserves_size layers layers' :
  preserves layers layers' -> size layers' = size layers.
Proof.
  intros P. rewrite <- !size_dom. f_equal. apply set_eq. intros k.
  rewrite !elem_of_dom. specialize (P k).
  destruct (layers !! k) as [[v l]|].
  - destruct P as (l' & -> & _). split; eauto.
  - rewrite P. reflexivity.
Qed.

(** Writing a layer into the table keeps the buckets owned, when the new
    bucket of the layer is its own or that of an owner elsewhere, and an
    owner keeps its bucket. *)
Lemma owned_insert layers lid v l new :
  owned layers -> layers !! lid = Some (v, l) ->
  (forall b, bucket new = Some b ->
     match member v "ref" with
     | None => name b = id new
     | Some _ =>
         exists k' v' l', k' <> lid /\ layers !! k' = Some (v', l') /\
           member v' "ref" = None /\ bucket l' = Some b
     end) ->
  (member v "ref" = None -> forall b, bucket l = Some b ->
     bucket new = Some b) ->
  owned (<[lid := (v, new)]> layers).
Proof.
  intros O E Hnew Hold k v0 l0 b Ek Eb.
  destruct (decide (k = lid)) as [->|Nk].
  - rewrite lookup_insert_eq in Ek. injection Ek as <- <-.
    specialize (Hnew b Eb). destruct (member v "ref"); [|exact Hnew].
    destruct Hnew as (k' & v' & l' & Nk' & E' & M' & B').
    exists k', v', l'. rewrite lookup_insert_ne by auto. auto.
  - rewrite lookup_insert_ne in Ek by auto.
    specialize (O k v0 l0 b Ek Eb). destruct (member v0 "ref"); [|exact O].
    destruct O as (k' & v' & l' & E' & M' & B').
    destruct (decide (k' = lid)) as [->|Nk'].
    + rewrite E in E'. injection E' as <- <-.
      exists lid, v, new. rewrite lookup_insert_eq. auto.
    + exists k', v', l'. rewrite lookup_insert_ne by auto. auto.
Qed.

Lemma owned_insert_same layers lid v l l1 :
  layers !! lid = Some (v, l) -> id l1 = id l -> bucket l1 = bucket l ->
  owned layers -> owned (<[lid := (v, l1)]> layers).
Proof.
  intros E I B O. apply (owned_insert _ _ _ l); auto.
  - intros b Eb. rewrite B in Eb. specialize (O lid v l b E Eb).
    destruct (member v "ref") eqn:M; [|congruence].
    destruct O as (k' & v' & l' & E' & M' & B').
    exists k', v', l'. split; [|auto]. intros ->. congruence.
  - intros _ b Eb. congruence.
Qed.

Lemma owned_insert_shared layers lid v layer x ref vr reference :
  owned layers -> layers !! ref = Some (vr, reference) ->
  layers !! lid = Some (v, layer) -> member v "ref" = Some x ->
  owned (<[lid := (v, mk_layer (id layer) (type reference)
                              (bucket reference))]> layers).
Proof.
  intros O Er E M. apply (owned_insert _ _ _ layer); auto.
  - simpl. intros b Eb. rewrite M.
    specialize (O ref vr reference b Er Eb).
    destruct (member vr "ref") eqn:Mr.
    + destruct O as (k' & v' & l' & E' & M' & B').
      exists k', v', l'. split; [|auto]. intros ->. congruence.
    + exists ref, vr, reference. split; [|auto]. intros ->. congruence.
  - congruence.
Qed.

Lemma parseReference_owned
    (rec : list string -> string -> Table ->
           option (Table * list layer_notice))
    stack value lid layer_id layers v l x r ws :
  (forall stack lid layers r ws,
     rec stack lid layers = Some (r, ws) -> preserves layers r) ->
  (forall stack lid layers r ws,
     rec stack lid layers = Some (r, ws) -> owned layers -> owned r) ->
  layers !! lid = Some (v, l) -> member v "ref" = Some x ->
  parseReference rec stack value lid layer_id layers = Some (r, ws) ->
  owned layers -> owned r.
Proof.
  intros Hpres Hown E M. unfold parseReference.
  destruct value as [| | |ref| |]; try (intros [= <- <-]; auto).
  destruct (layers !! ref); [|intros [= <- <-]; auto].
  destruct (rec (lid :: stack) ref layers) as [[layers' ws']|] eqn:Er;
    [|discriminate].
  pose proof (Hpres _ _ _ _ _ Er lid) as P. rewrite E in P.
  destruct P as (l' & El' & _).
  destruct (layers' !! ref) as [[vr reference]|] eqn:Eref;
    [|intros [= <- <-]; eauto].
  rewrite El'. intros [= <- <-] O.
  eapply owned_insert_shared; eauto.
Qed.

Lemma parseLayer_owned p fuel : forall stack lid layers r ws,
  parse_layer fuel p stack lid layers = Some (r, ws) ->
  owned layers -> owned r.
Proof.
  induction fuel as [|fuel IH]; intros stack lid layers r ws; [discriminate|].
  cbn [parseLayer].
  destruct (layers !! lid) as [[value layer]|] eqn:E;
    [|intros [= <- <-]; auto].
  pose proof (retype_layer value layer) as R. cbv zeta in R.
  destruct (match member value "type" with
            | Some (JString s) => _ | Some _ => _ | None => _ end)
    as [layer1 w1]. simpl in R. destruct R as [I1 B1].
  intros H O.
  assert (owned (<[lid := (value, layer1)]> layers)) as O1
    by (apply (owned_insert_same _ _ _ layer); auto).
  revert H.
  destruct (bucket layer1) as [b1|] eqn:Eb; [intros [= <- <-]; exact O1|].
  destruct (existsb (String.eqb lid) stack); [intros [= <- <-]; exact O1|].
  destruct (member value "ref") as [ref|] eqn:M.
  - destruct (parseReference _ _ _ _ _ _) as [[layers' w2]|] eqn:Er;
      [|discriminate].
    intros [= <- <-].
    eapply (parseReference_owned (parse_layer fuel p));
      [apply parseLayer_preserves|exact IH| |exact M|exact Er|exact O1].
    apply lookup_insert_eq.
  - destruct (parse_bucket p value layer1) as [layer' wb] eqn:Ebk.
    intros [= <- <-].
    pose proof (parseBucket_layer p value layer1) as (Hid & _ & b & Hb).
    pose proof (parseBucket_name p value layer1 b Hb) as Hn.
    rewrite Ebk in Hid, Hb. simpl in Hid, Hb.
    apply (owned_insert _ _ _ layer1); auto.
    + apply lookup_insert_eq.
    + intros b' Eb'. rewrite M. congruence.
    + intros _ b'. congruence.
Qed.

(** A layer with no "ref" member that is not on the stack leaves
    [parseLayer] with a bucket. *)
Lemma parseLayer_bucket p fuel stack lid layers r ws v l :
  parse_layer fuel p stack lid layers = Some (r, ws) ->
  layers !! lid = Some (v, l) -> member v "ref" = None ->
  existsb (String.eqb lid) stack = false ->
  exists l' b, r !! lid = Some (v, l') /\ bucket l' = Some b.
Proof.
  destruct fuel as [|fuel]; [discriminate|]. cbn [parseLayer].
  intros H E M S. rewrite E, M, S in H.
  destruct (match member v "type" with
            | Some (JString s) => _ | Some _ => _ | None => _ end)
    as [layer1 w1].
  destruct (bucket layer1) as [b1|] eqn:Eb.
  - injection H as <- <-. exists layer1, b1.
    split; [apply lookup_insert_eq|exact Eb].
  - pose proof (parseBucket_layer p v layer1) as (_ & _ & b & Hb).
    destruct (parse_bucket p v layer1) as [layer' wb].
    injection H as <- <-. exists layer', b.
    split; [apply lookup_insert_eq|exact Hb].
Qed.

Lemma parseLayers_preserves p fuel order : forall layers r ws,
  parseLayers to_float default_filter default_min_zoom default_max_zoom
    default_visibility default_fill default_line default_symbol
    default_raster parseFilterExpression parseLayoutProperties
    StyleLayerTypeClass fuel p order layers = Some (r, ws) ->
  preserves layers r /\ (owned layers -> owned r).
Proof.
  induction order as [|lid order IH]; intros layers r ws; cbn [parseLayers].
  - intros [= <- <-]. split; [apply preserves_refl|auto].
  - destruct (parse_layer fuel p [] lid layers) as [[layers1 w1]|] eqn:E1;
      [|discriminate].
    destruct (parseLayers _ _ _ _ _ _ _ _ _ _ _ _ _ _ _ _) as [[layers2 w2]|]
      eqn:E2; [|discriminate].
    intros [= <- <-]. destruct (IH _ _ _ E2) as [P2 O2]. split.
    + eapply preserves_trans; [|exact P2].
      eapply parseLayer_preserves; exact E1.
    + intros O. apply O2. eapply parseLayer_owned; eauto.
Qed.

Lemma parseLayers_terminates p fuel order : forall layers,
  size layers < fuel ->
  is_Some (parseLayers to_float default_filter default_min_zoom
             default_max_zoom default_visibility default_fill default_line
             default_symbol default_raster parseFilterExpression
             parseLayoutProperties StyleLayerTypeClass fuel p order layers).
Proof.
  induction order as [|lid order IH]; intros layers Hs; cbn [parseLayers];
    [eauto|].
  destruct (parseLayer_terminates p fuel [] lid layers) as [[layers1 w1] E1].
  - constructor.
  - intros x Hx. inversion Hx.
  - simpl. lia.
  - rewrite E1.
    destruct (IH layers1) as [[layers2 w2] E2].
    + apply parseLayer_preserves, preserves_size in E1. lia.
    + rewrite E2. eauto.
Qed.

Lemma parseLayers_buckets p fuel order : forall layers r ws lid v l,
  parseLayers to_float default_filter default_min_zoom default_max_zoom
    default_visibility default_fill default_line default_symbol
    default_raster parseFilterExpression parseLayoutProperties
    StyleLayerTypeClass fuel p order layers = Some (r, ws) ->
  In lid order -> layers !! lid = Some (v, l) -> member v "ref" = None ->
  exists l' b, r !! lid = Some (v, l') /\ bucket l' = Some b.
Proof.
  induction order as [|k order IH]; intros layers r ws lid v l;
    cbn [parseLayers]; [intros _ []|].
  destruct (parse_layer fuel p [] k layers) as [[layers1 w1]|] eqn:E1;
    [|discriminate].
  destruct (parseLayers _ _ _ _ _ _ _ _ _ _ _ _ _ _ _ _) as [[layers2 w2]|]
    eqn:E2; [|discriminate].
  intros [= <- <-] Hin E M.
  destruct (string_dec k lid) as [->|Nk].
  - destruct (parseLayer_bucket _ _ _ _ _ _ _ _ _ E1 E M eq_refl)
      as (l1 & b & El1 & Eb).
    destruct (parseLayers_preserves _ _ _ _ _ _ E2) as [P _].
    specialize (P lid). rewrite El1 in P.
    destruct P as (l' & E' & _ & B'). eauto.
  - destruct Hin as [->|Hin]; [congruence|].
    pose proof (parseLayer_preserves _ _ _ _ _ _ _ E1 lid) as P.
    rewrite E in P. destruct P as (l1 & El1 & _).
    eapply IH; eauto.
Qed.

Lemma on_stack lid (stack : list string) :
  In lid stack -> existsb (String.eqb lid) stack = true.
Proof.
  intros Hin. apply existsb_exists. exists lid.
  split; [exact Hin|apply String.eqb_refl].
Qed.

(** A layer that refers back leaves [parseLayer] without a bucket, and
    with a warning about the circular reference, from any table that has
    the JSON values of [layers] and no bucket where [layers] has none. *)
Lemma refers_back_no_bucket p layers stack lid :
  refers_back p layers stack lid ->
  forall layers' fuel r ws,
    (forall k v l, layers !! k = Some (v, l) -> bucket l = None ->
       exists l', layers' !! k = Some (v, l') /\ bucket l' = None) ->
    parse_layer fuel p stack lid layers' = Some (r, ws) ->
    (exists v l', r !! lid = Some (v, l') /\ bucket l' = None) /\
    exists x, In (CircularReference x) ws.
Proof.
  assert (forall layers' lid v l l1,
            (forall k v l, layers !! k = Some (v, l) -> bucket l = None ->
               exists l', layers' !! k = Some (v, l') /\ bucket l' = None) ->
            layers' !! lid = Some (v, l) -> bucket l1 = bucket l ->
            forall k v0 l0, layers !! k = Some (v0, l0) -> bucket l0 = None ->
               exists l', <[lid := (v, l1)]> layers' !! k = Some (v0, l') /\
                          bucket l' = None) as Step.
  { intros layers' lid0 v l l1 Sim E B k v0 l0 Ek Eb.
    destruct (Sim k v0 l0 Ek Eb) as (l' & E' & B').
    destruct (decide (lid0 = k)) as [->|N].
    - rewrite E in E'. injection E' as <- <-. exists l1.
      rewrite lookup_insert_eq. split; congruence.
    - exists l'. rewrite lookup_insert_ne by auto. auto. }
  induction 1 as [stack lid v l E B Hin|stack lid v l x ref E B M C Hback IH];
    intros layers' fuel r ws Sim; (destruct fuel as [|fuel]; [discriminate|]);
    cbn [parseLayer];
    destruct (Sim lid v l E B) as (l' & E' & B'); rewrite E';
    pose proof (retype_layer v l') as R; cbv zeta in R;
    destruct (match member v "type" with
              | Some (JString s) => _ | Some _ => _ | None => _ end)
      as [layer1 w1]; simpl in R; destruct R as [I1 B1];
    rewrite B1, B'.
  - rewrite (on_stack _ _ Hin). intros [= <- <-]. split.
    + exists v, layer1. rewrite lookup_insert_eq. split; congruence.
    + eexists. apply in_or_app. right. left. reflexivity.
  - destruct (existsb (String.eqb lid) stack).
    { intros [= <- <-]. split.
      + exists v, layer1. rewrite lookup_insert_eq. split; congruence.
      + eexists. apply in_or_app. right. left. reflexivity. }
    rewrite M, C. unfold parseReference.
    assert (B1' : bucket layer1 = bucket l') by exact B1.
    pose proof (Step layers' lid v l' layer1 Sim E' B1') as Sim1.
    assert (exists vr lr, layers !! ref = Some (vr, lr) /\ bucket lr = None)
      as (vr & lr & Eref & Bref) by (inversion Hback; eauto).
    destruct (Sim1 ref vr lr Eref Bref) as (lr' & Eref' & _). rewrite Eref'.
    destruct (parse_layer fuel p (lid :: stack) ref _)
      as [[layers2 w2]|] eqn:Erec; [|discriminate].
    destruct (IH _ _ _ _ Sim1 Erec) as [(v2 & l2 & E2 & B2) [y Hy]].
    rewrite E2.
    pose proof (parseLayer_preserves _ _ _ _ _ _ _ Erec lid) as P.
    rewrite lookup_insert_eq in P. destruct P as (l3 & E3 & _). rewrite E3.
    intros [= <- <-]. split.
    + eexists _, _. rewrite lookup_insert_eq. split; [reflexivity|exact B2].
    + exists y. apply in_or_app. right. exact Hy.
Qed.

(** The layer and its reference after [parseLayer] has followed the
    "ref" member. *)
Lemma parseLayer_inherits p fuel stack lid layers r ws v l x ref :
  parse_layer fuel p stack lid layers = Some (r, ws) ->
  layers !! lid = Some (v, l) -> bucket l = None ->
  existsb (String.eqb lid) stack = false ->
  member v "ref" = Some x -> replaceConstant p x = JString ref ->
  is_Some (layers !! ref) ->
  exists l' vr lr,
    r !! lid = Some (v, l') /\ r !! ref = Some (vr, lr) /\
    id l' = id l /\ type l' = type lr /\ bucket l' = bucket lr.
Proof.
  destruct fuel as [|fuel]; [discriminate|]. cbn [parseLayer].
  intros H E B S M C [[vr0 lr0] Eref]. rewrite E in H.
  pose proof (retype_layer v l) as R. cbv zeta in R.
  destruct (match member v "type" with
            | Some (JString s) => _ | Some _ => _ | None => _ end)
    as [layer1 w1]. simpl in R. destruct R as [I1 B1].
  rewrite B1, B, S, M, C in H. unfold parseReference in H.
  set (layers1 := <[lid := (v, layer1)]> layers) in *.
  assert (is_Some (layers1 !! ref)) as [e1 Eref1].
  { apply lookup_insert_is_Some. destruct (decide (lid = ref)); eauto. }
  rewrite Eref1 in H.
  destruct (parse_layer fuel p (lid :: stack) ref layers1)
    as [[layers2 w2]|] eqn:Erec; [|discriminate].
  pose proof (parseLayer_preserves _ _ _ _ _ _ _ Erec) as P.
  pose proof (P lid) as Pl. pose proof (P ref) as Pr.
  unfold layers1 in Pl at 1. rewrite lookup_insert_eq in Pl.
  destruct Pl as (l2 & El2 & Il2 & _).
  rewrite Eref1 in Pr. destruct e1 as [vr lr1].
  destruct Pr as (lr & Er & _).
  rewrite Er, El2 in H. injection H as <- <-.
  destruct (decide (lid = ref)) as [<-|N].
  - eexists _, _, _. rewrite lookup_insert_eq.
    split; [reflexivity|]. split; [reflexivity|]. simpl.
    split; [congruence|]. auto.
  - eexists _, vr, lr. rewrite lookup_insert_eq, lookup_insert_ne by auto.
    split; [reflexivity|]. split; [exact Er|]. simpl.
    split; [congruence|]. auto.
Qed.

(** X17.  [parseBucket] always gives the layer a bucket and keeps its id
    and type.  The bucket is named by the layer's id; its source is the
    one registered in [sources] under the "source" member once its
    constant is replaced, and none when that is no string or names no
    source; its source layer is the "source-layer" member when that is a
    string, and empty otherwise; its filter is parsed from the "filter"
    member, the default filter when there is none. *)
Theorem parseBucket_fields p value layer :
  exists b,
    fst (parseBucket to_float default_filter default_min_zoom
           default_max_zoom default_visibility default_fill default_line
           default_symbol default_raster parseFilterExpression
           parseLayoutProperties p value layer)
      = mk_layer (id layer) (type layer) (Some b) /\
    name b = id layer /\
    style_source b =
      match member value "source" with
      | Some v =>
          match replaceConstant p v with
          | JString s => sources p !! s
          | _ => None
          end
      | None => None
      end /\
    source_layer b =
      match member value "source-layer" with
      | Some v =>
          match replaceConstant p v with
          | JString s => s
          | _ => EmptyString
          end
      | None => EmptyString
      end /\
    filter b =
      match member value "filter" with
      | Some v => parseFilterExpression p (replaceConstant p v)
      | None => default_filter
      end.
Proof.
  unfold parseBucket.
  set (b0 := mk_bucket _ _ _ _ _ _ _ _).
  assert (name b0 = id layer /\ style_source b0 = None /\
          source_layer b0 = EmptyString /\ filter b0 = default_filter)
    as (N0 & S0 & L0 & F0) by (repeat split; reflexivity).
  clearbody b0.
  match goal with |- context [let '(_, _) := ?X in _] =>
    destruct X as [b1 w1] eqn:E1 end.
  assert (name b1 = id layer /\ source_layer b1 = EmptyString /\
          filter b1 = default_filter /\
          style_source b1 =
            match member value "source" with
            | Some v =>
                match replaceConstant p v with
                | JString s => sources p !! s
                | _ => None
                end
            | None => None
            end) as (N1 & L1 & F1 & S1) by (crack E1).
  clear E1 N0 S0 L0 F0. revert S1.
  generalize (match member value "source" with
              | Some v =>
                  match replaceConstant p v with
                  | JString s => sources p !! s
                  | _ => None
                  end
              | None => None
              end). intros src S1.
  match goal with |- context [let '(_, _) := ?X in _] =>
    destruct X as [b2 w2] eqn:E2 end.
  assert (name b2 = id layer /\ style_source b2 = src /\
          filter b2 = default_filter /\
          source_layer b2 =
            match member value "source-layer" with
            | Some v =>
                match replaceConstant p v with
                | JString s => s
                | _ => EmptyString
                end
            | None => EmptyString
            end) as (N2 & S2 & F2 & L2) by (crack E2).
  clear E2 N1 S1 L1 F1. revert L2.
  generalize (match member value "source-layer" with
              | Some v =>
                  match replaceConstant p v with
                  | JString s => s
                  | _ => EmptyString
                  end
              | None => EmptyString
              end). intros sl L2.
  match goal with |- context [let '(_, _) := ?X in _] =>
    destruct X as [b3 w3] eqn:E3 end.
  assert (name b3 = id layer /\ style_source b3 = src /\
          source_layer b3 = sl /\
          filter b3 =
            match member value "filter" with
            | Some v => parseFilterExpression p (replaceConstant p v)
            | None => default_filter
            end) as (N3 & S3 & L3 & F3).
  { revert E3. unfold parseLayout. intros E3. crack E3. }
  clear E3 N2 S2 L2 F2. revert F3.
  generalize (match member value "filter" with
              | Some v => parseFilterExpression p (replaceConstant p v)
              | None => default_filter
              end). intros fl F3.
  match goal with |- context [let '(_, _) := ?X in _] =>
    destruct X as [b4 w4] eqn:E4 end.
  assert (name b4 = id layer /\ style_source b4 = src /\
          source_layer b4 = sl /\ filter b4 = fl) as (N4 & S4 & L4 & F4)
    by (crack E4).
  clear E4 N3 S3 L3 F3.
  match goal with |- context [let '(_, _) := ?X in _] =>
    destruct X as [b5 w5] eqn:E5 end.
  assert (name b5 = id layer /\ style_source b5 = src /\
          source_layer b5 = sl /\ filter b5 = fl) as (N5 & S5 & L5 & F5)
    by (crack E5).
  exists b5. simpl. auto.
Qed.

Lemma unbucketed_owned layers :
  (forall k v l, layers !! k = Some (v, l) -> bucket l = None) ->
  owned layers.
Proof.
  intros H k v l b E B. rewrite (H _ _ _ E) in B. discriminate.
Qed.

(** X11.  [parseLayer] returns.  With a stack of distinct layers of the
    table, fuel above the number of layers not on the stack is enough,
    and more fuel gives the same result: following "ref" members ends,
    also on circular references. *)
Theorem parseLayer_returns p fuel stack lid layers :
  NoDup stack -> (forall x, x ∈ stack -> is_Some (layers !! x)) ->
  size layers < fuel + length stack ->
  exists res,
    parseLayer to_float default_filter default_min_zoom default_max_zoom
      default_visibility default_fill default_line default_symbol
      default_raster parseFilterExpression parseLayoutProperties
      StyleLayerTypeClass fuel p stack lid layers = Some res /\
    forall fuel', fuel <= fuel' ->
      parseLayer to_float default_filter default_min_zoom default_max_zoom
        default_visibility default_fill default_line default_symbol
        default_raster parseFilterExpression parseLayoutProperties
        StyleLayerTypeClass fuel' p stack lid layers = Some res.
Proof.
  intros Hnd Hin Hs.
  destruct (parseLayer_terminates p fuel stack lid layers Hnd Hin Hs)
    as [res E].
  exists res. split; [exact E|].
  intros fuel' Hle. eapply parseLayer_fuel_mono; eauto.
Qed.

(** X12.  [parseLayer] adds no layer to the table and removes none; every
    layer keeps its JSON value and its id, and a layer that had a bucket
    keeps that bucket. *)
Theorem parseLayer_keeps_table p fuel stack lid layers r ws :
  parseLayer to_float default_filter default_min_zoom default_max_zoom
    default_visibility default_fill default_line default_symbol
    default_raster parseFilterExpression parseLayoutProperties
    StyleLayerTypeClass fuel p stack lid layers = Some (r, ws) ->
  (forall k, layers !! k = None -> r !! k = None) /\
  (forall k v l, layers !! k = Some (v, l) ->
     exists l', r !! k = Some (v, l') /\ id l' = id l /\
                forall b, bucket l = Some b -> bucket l' = Some b).
Proof.
  intros H. pose proof (parseLayer_preserves _ _ _ _ _ _ _ H) as P.
  split.
  - intros k E. specialize (P k). rewrite E in P. exact P.
  - intros k v l E. specialize (P k). rewrite E in P. exact P.
Qed.

(** X13.  [parseLayer] keeps the buckets owned: after it, as before, a
    bucket held by a layer without "ref" member is named by the id of
    that layer, and a bucket held by a layer with a "ref" member is the
    bucket of a layer of the table without one. *)
Theorem parseLayer_keeps_owned p fuel stack lid layers r ws :
  parseLayer to_float default_filter default_min_zoom default_max_zoom
    default_visibility default_fill default_line default_symbol
    default_raster parseFilterExpression parseLayoutProperties
    StyleLayerTypeClass fuel p stack lid layers = Some (r, ws) ->
  owned layers -> owned r.
Proof.
  apply parseLayer_owned.
Qed.

(** [parseLayer] on a layer that has a bucket returns at once: the type
    is read again from the "type" member, nothing else changes. *)
Lemma parseLayer_again_returns p fuel stack lid layers v l b :
  layers !! lid = Some (v, l) -> bucket l = Some b ->
  exists ws,
    parse_layer (S fuel) p stack lid layers
    = Some (<[lid := (v, mk_layer (id l)
                        match member v "type" with
                        | Some (JString s) => StyleLayerTypeClass s
                        | _ => type l
                        end (Some b))]> layers, ws).
Proof.
  intros E B. cbn [parseLayer]. rewrite E.
  destruct l as [i t b0]. simpl in B. subst b0.
  destruct (member v "type") as [[]|]; simpl; eauto.
Qed.

(** The layer a "ref" member names, when it has no "ref" member itself
    and is not on the stack, has a bucket after [parseLayer]. *)
Lemma parseLayer_reference_bucket
    p fuel stack lid layers r ws v l x ref vr lr0 :
  parse_layer fuel p stack lid layers = Some (r, ws) ->
  layers !! lid = Some (v, l) -> bucket l = None ->
  existsb (String.eqb lid) stack = false ->
  member v "ref" = Some x -> replaceConstant p x = JString ref ->
  layers !! ref = Some (vr, lr0) -> member vr "ref" = None ->
  existsb (String.eqb ref) stack = false ->
  exists lr b, r !! ref = Some (vr, lr) /\ bucket lr = Some b.
Proof.
  destruct fuel as [|fuel]; [discriminate|]. cbn [parseLayer].
  intros H E B S M C Eref Mr Sr. rewrite E in H.
  assert (lid <> ref) as N by (intros ->; congruence).
  pose proof (retype_layer v l) as R. cbv zeta in R.
  destruct (match member v "type" with
            | Some (JString s) => _ | Some _ => _ | None => _ end)
    as [layer1 w1]. simpl in R. destruct R as [I1 B1].
  rewrite B1, B, S, M, C in H. unfold parseReference in H.
  set (layers1 := <[lid := (v, layer1)]> layers) in *.
  assert (layers1 !! ref = Some (vr, lr0)) as Eref1
    by (unfold layers1; rewrite lookup_insert_ne; auto).
  rewrite Eref1 in H.
  destruct (parse_layer fuel p (lid :: stack) ref layers1)
    as [[layers2 w2]|] eqn:Erec; [|discriminate].
  destruct (parseLayer_bucket _ _ _ _ _ _ _ _ _ Erec Eref1 Mr)
    as (lr & b & Er & Eb).
  { simpl. rewrite Sr. destruct (String.eqb_spec ref lid);
      [congruence|reflexivity]. }
  rewrite Er in H.
  pose proof (parseLayer_preserves _ _ _ _ _ _ _ Erec lid) as Pl.
  unfold layers1 in Pl at 1. rewrite lookup_insert_eq in Pl.
  destruct Pl as (l2 & El2 & _). rewrite El2 in H. injection H as <- <-.
  exists lr, b. rewrite lookup_insert_ne by auto. auto.
Qed.

(** X14.  A layer without bucket, not on the stack, whose "ref" member
    names a layer of the table once its constant is replaced:
    [parseLayer] returns, and the layer then has the type and the bucket
    of the layer it refers to, whatever its own "type" member says, and
    its id. *)
Theorem ref_inherits_type_and_bucket
    p fuel stack lid layers v l x ref :
  NoDup stack -> (forall y, y ∈ stack -> is_Some (layers !! y)) ->
  size layers < fuel + length stack ->
  layers !! lid = Some (v, l) -> bucket l = None ->
  existsb (String.eqb lid) stack = false ->
  member v "ref" = Some x -> replaceConstant p x = JString ref ->
  is_Some (layers !! ref) ->
  exists r ws l' vr lr,
    parseLayer to_float default_filter default_min_zoom default_max_zoom
      default_visibility default_fill default_line default_symbol
      default_raster parseFilterExpression parseLayoutProperties
      StyleLayerTypeClass fuel p stack lid layers = Some (r, ws) /\
    r !! lid = Some (v, l') /\ r !! ref = Some (vr, lr) /\
    id l' = id l /\ type l' = type lr /\ bucket l' = bucket lr.
Proof.
  intros Hnd Hin Hs E B S M C Hr.
  destruct (parseLayer_terminates p fuel stack lid layers Hnd Hin Hs)
    as [[r ws] H].
  destruct (parseLayer_inherits _ _ _ _ _ _ _ _ _ _ _ H E B S M C Hr)
    as (l' & vr & lr & R).
  exists r, ws, l', vr, lr. split; [exact H|exact R].
Qed.

(** X15.  [parseLayer] twice on a layer with a "ref" member and a "type"
    member.  The first call returns and gives the layer the type and the
    bucket of the layer it refers to; that bucket is there when the
    layer referred to has no "ref" member and is not on the stack.  When
    the bucket is there, a second call, with any stack, returns, keeps
    the bucket, sets the type back to the layer's own "type" member, and
    changes no other layer. *)
Theorem reparse_restores_own_type
    p fuel stack lid layers v l x ref s :
  NoDup stack -> (forall y, y ∈ stack -> is_Some (layers !! y)) ->
  size layers < fuel + length stack ->
  layers !! lid = Some (v, l) -> bucket l = None ->
  existsb (String.eqb lid) stack = false ->
  member v "ref" = Some x -> replaceConstant p x = JString ref ->
  member v "type" = Some (JString s) ->
  is_Some (layers !! ref) ->
  exists r1 w1 l1 vr lr,
    parseLayer to_float default_filter default_min_zoom default_max_zoom
      default_visibility default_fill default_line default_symbol
      default_raster parseFilterExpression parseLayoutProperties
      StyleLayerTypeClass fuel p stack lid layers = Some (r1, w1) /\
    r1 !! lid = Some (v, l1) /\ r1 !! ref = Some (vr, lr) /\
    type l1 = type lr /\ bucket l1 = bucket lr /\
    (member vr "ref" = None -> existsb (String.eqb ref) stack = false ->
     is_Some (bucket lr)) /\
    forall b, bucket lr = Some b ->
    forall fuel2 stack2,
    exists r2 w2 l2,
      parseLayer to_float default_filter default_min_zoom default_max_zoom
      default_visibility default_fill default_line default_symbol
      default_raster parseFilterExpression parseLayoutProperties
      StyleLayerTypeClass (S fuel2) p stack2 lid r1 = Some (r2, w2) /\
      r2 !! lid = Some (v, l2) /\ type l2 = StyleLayerTypeClass s /\
      bucket l2 = Some b /\
      forall k, k <> lid -> r2 !! k = r1 !! k.
Proof.
  intros Hnd Hin Hs E B S M C T Hr.
  destruct (parseLayer_terminates p fuel stack lid layers Hnd Hin Hs)
    as [[r1 w1] H1].
  destruct (parseLayer_inherits _ _ _ _ _ _ _ _ _ _ _ H1 E B S M C Hr)
    as (l1 & vr & lr & E1 & Er & I1 & T1 & B1).
  exists r1, w1, l1, vr, lr.
  split; [exact H1|]. split; [exact E1|]. split; [exact Er|].
  split; [exact T1|]. split; [exact B1|]. split.
  - intros Mr Sr. destruct Hr as [[vr0 lr0] Eref].
    assert (vr0 = vr) as ->.
    { pose proof (parseLayer_preserves _ _ _ _ _ _ _ H1 ref) as P.
      rewrite Eref, Er in P. destruct P as (? & [= ->] & _). reflexivity. }
    destruct (parseLayer_reference_bucket _ _ _ _ _ _ _ _ _ _ _ _ _
                H1 E B S M C Eref Mr Sr) as (lr' & b & Er' & Eb).
    rewrite Er in Er'. injection Er' as <-. eauto.
  - intros b Eb fuel2 stack2. rewrite Eb in B1.
    destruct (parseLayer_again_returns p fuel2 stack2 lid r1 v l1 b E1 B1)
      as (w2 & H2).
    rewrite T in H2. eexists _, w2, _. split; [exact H2|].
    rewrite lookup_insert_eq. split; [reflexivity|].
    split; [reflexivity|]. split; [reflexivity|].
    intros k Nk. now rewrite lookup_insert_ne.
Qed.

(** X16.  Circular references end and give no bucket.  For a layer
    without bucket whose "ref" members lead, through layers without
    bucket, to a layer on the stack or back to a layer already passed,
    [parseLayer] returns, leaves the layer without bucket, and logs a
    warning about the circular reference. *)
Theorem circular_reference_leaves_no_bucket p fuel stack lid layers :
  NoDup stack -> (forall y, y ∈ stack -> is_Some (layers !! y)) ->
  size layers < fuel + length stack ->
  refers_back p layers stack lid ->
  exists r ws,
    parseLayer to_float default_filter default_min_zoom default_max_zoom
      default_visibility default_fill default_line default_symbol
      default_raster parseFilterExpression parseLayoutProperties
      StyleLayerTypeClass fuel p stack lid layers = Some (r, ws) /\
    (exists v l', r !! lid = Some (v, l') /\ bucket l' = None) /\
    exists x, In (CircularReference x) ws.
Proof.
  intros Hnd Hin Hs Hb.
  destruct (parseLayer_terminates p fuel stack lid layers Hnd Hin Hs)
    as [[r ws] H].
  exists r, ws. split; [exact H|].
  eapply refers_back_no_bucket; eauto.
Qed.

(** X18.  [parseLayers], whatever the order of the traversal, on a table
    whose layers have no bucket yet, with fuel above the number of
    layers: it returns; it keeps the layers,
    their JSON values and ids; every traversed layer without "ref"
    member ends with a bucket named by its id; and every bucket of the
    result is the bucket of such a layer. *)
Theorem parseLayers_gives_buckets p fuel order layers :
  size layers < fuel ->
  (forall k v l, layers !! k = Some (v, l) -> bucket l = None) ->
  exists r ws,
    parseLayers to_float default_filter default_min_zoom default_max_zoom
      default_visibility default_fill default_line default_symbol
      default_raster parseFilterExpression parseLayoutProperties
      StyleLayerTypeClass fuel p order layers = Some (r, ws) /\
    preserves layers r /\
    (forall lid v l,
       In lid order -> layers !! lid = Some (v, l) ->
       member v "ref" = None ->
       exists l' b, r !! lid = Some (v, l') /\ bucket l' = Some b /\
                    name b = id l) /\
    (forall k v l b,
       r !! k = Some (v, l) -> bucket l = Some b ->
       exists k' v' l',
         r !! k' = Some (v', l') /\ member v' "ref" = None /\
         bucket l' = Some b /\ name b = id l').
Proof.
  intros Hs Hno.
  destruct (parseLayers_terminates p fuel order layers Hs) as [[r ws] E].
  destruct (parseLayers_preserves _ _ _ _ _ _ E) as [P O].
  specialize (O (unbucketed_owned _ Hno)).
  exists r, ws. split; [exact E|]. split; [exact P|]. split.
  - intros lid v l Hin El M.
    destruct (parseLayers_buckets _ _ _ _ _ _ _ _ _ E Hin El M)
      as (l' & b & El' & Eb).
    exists l', b. split; [exact El'|]. split; [exact Eb|].
    pose proof (O _ _ _ _ El' Eb) as N. rewrite M in N.
    pose proof (P lid) as Pl. rewrite El, El' in Pl.
    destruct Pl as (l2 & [= <-] & I & _). congruence.
  - intros k v l b E' B'. pose proof (O _ _ _ _ E' B') as N.
    destruct (member v "ref") eqn:M.
    + destruct N as (k' & v' & l' & Ek' & M' & B2).
      exists k', v', l'. repeat split; auto.
      pose proof (O _ _ _ _ Ek' B2) as N'. rewrite M' in N'. exact N'.
    + exists k, v, l. auto.
Qed.

End Layers.

(** *** Instances

    Numbers are integers, the collaborators' types are [unit], "fill" and
    "line" name layer types.  In [sample_layers] the layer "a" refers to
    "b" and has its own type; in [sample_cycle] "a" and "b" refer to each
    other. *)

Local Abbreviation sample_class :=
  (fun s : string =>
     if String.eqb s "fill" then Fill
     else if String.eqb s "line" then Line else OtherLayerType).
Local Abbreviation sample_parser :=
  (mk_parser (∅ : gmap string (JSValue Z)) (∅ : gmap string unit)).
Local Abbreviation sample_parseLayer :=
  (parseLayer (fun d : Z => d) tt 0%Z 22%Z tt tt tt tt tt
     (fun _ _ => tt) (fun _ _ _ x => x) sample_class).
Local Abbreviation sample_parseLayers :=
  (parseLayers (fun d : Z => d) tt 0%Z 22%Z tt tt tt tt tt
     (fun _ _ => tt) (fun _ _ _ x => x) sample_class).
Local Abbreviation sample_table :=
  (gmap string
     (JSValue Z * StyleLayer Z unit unit unit unit unit unit unit)).
Local Abbreviation value_a :=
  (JObject [("type"%string, JString "fill");
            ("ref"%string, JString "b")] : JSValue Z).
Local Abbreviation value_b :=
  (JObject [("type"%string, JString "line")] : JSValue Z).
Local Abbreviation value_b_back :=
  (JObject [("ref"%string, JString "a")] : JSValue Z).
Local Abbreviation sample_layers :=
  (<["a" := (value_a, mk_layer "a" OtherLayerType None)]>
     (<["b" := (value_b, mk_layer "b" OtherLayerType None)]> ∅)
   : sample_table).
Local Abbreviation sample_cycle :=
  (<["a" := (value_a, mk_layer "a" OtherLayerType None)]>
     (<["b" := (value_b_back, mk_layer "b" OtherLayerType None)]> ∅)
   : sample_table).

Lemma sample_layers_unbucketed k v l :
  sample_layers !! k = Some (v, l) -> bucket l = None.
Proof.
  intros E.
  apply (map_Forall_lookup_1 (fun _ e => bucket (snd e) = None)
           sample_layers k (v, l)); [|exact E].
  repeat (apply map_Forall_insert_2; [reflexivity|]).
  apply map_Forall_empty.
Qed.

(** Two layers and fuel 3. *)
Lemma parseLayer_returns_witness :
  exists res,
    sample_parseLayer 3 sample_parser [] "a" sample_layers = Some res /\
    forall fuel', 3 <= fuel' ->
      sample_parseLayer fuel' sample_parser [] "a" sample_layers = Some res.
Proof.
  apply parseLayer_returns.
  - constructor.
  - intros x Hx. inversion Hx.
  - vm_compute. lia.
Defined.

Local Abbreviation at_sample thm :=
  (thm Z Z (fun d : Z => d) unit unit unit unit unit unit unit
       tt 0%Z 22%Z tt tt tt tt tt
       (fun (_ : parser Z unit) (_ : JSValue Z) => tt)
       (fun (_ : parser Z unit) (_ : JSValue Z) (_ : StyleLayerType)
            (x : unit * StyleBucketRender unit unit unit unit) => x)
       sample_class).

(** The layer "a" of [sample_layers]. *)
Lemma parseLayer_keeps_table_witness :
  exists r ws,
    sample_parseLayer 3 sample_parser [] "a" sample_layers = Some (r, ws) /\
    (forall k, sample_layers !! k = None -> r !! k = None) /\
    (forall k v l, sample_layers !! k = Some (v, l) ->
       exists l', r !! k = Some (v, l') /\ id l' = id l /\
                  forall b, bucket l = Some b -> bucket l' = Some b).
Proof.
  eexists _, _. split; [vm_compute; reflexivity|].
  apply (at_sample parseLayer_keeps_table sample_parser 3 [] "a"
           sample_layers _ []).
  vm_compute; reflexivity.
Defined.

(** The same call: no layer of [sample_layers] has a bucket before, the
    buckets of the result are owned. *)
Lemma parseLayer_keeps_owned_witness :
  exists r ws,
    sample_parseLayer 3 sample_parser [] "a" sample_layers = Some (r, ws) /\
    owned r.
Proof.
  eexists _, _. split; [vm_compute; reflexivity|].
  apply (at_sample parseLayer_keeps_owned sample_parser 3 [] "a"
           sample_layers _ []).
  - vm_compute; reflexivity.
  - apply unbucketed_owned, sample_layers_unbucketed.
Defined.

(** "a" gets the type and the bucket of "b". *)
Lemma ref_inherits_type_and_bucket_witness :
  exists r ws l' vr lr,
    sample_parseLayer 3 sample_parser [] "a" sample_layers = Some (r, ws) /\
    r !! "a" = Some (value_a, l') /\ r !! "b" = Some (vr, lr) /\
    id l' = "a" /\ type l' = type lr /\ bucket l' = bucket lr.
Proof.
  apply (at_sample ref_inherits_type_and_bucket sample_parser 3 [] "a"
           sample_layers value_a (mk_layer "a" OtherLayerType None)
           (JString "b") "b").
  - constructor.
  - intros y Hy. inversion Hy.
  - vm_compute. lia.
  - reflexivity.
  - reflexivity.
  - reflexivity.
  - reflexivity.
  - reflexivity.
  - eexists. reflexivity.
Defined.

(** "a" is parsed twice: it has the type of "b" after the first call and
    its own, [Fill], after the second, with the bucket of "b" both
    times. *)
Lemma reparse_restores_own_type_witness :
  exists r1 w1 l1 vr lr,
    sample_parseLayer 3 sample_parser [] "a" sample_layers = Some (r1, w1) /\
    r1 !! "a" = Some (value_a, l1) /\ r1 !! "b" = Some (vr, lr) /\
    type l1 = type lr /\ bucket l1 = bucket lr /\
    (member vr "ref" = None -> existsb (String.eqb "b") [] = false ->
     is_Some (bucket lr)) /\
    forall b, bucket lr = Some b ->
    forall fuel2 stack2,
    exists r2 w2 l2,
      sample_parseLayer (S fuel2) sample_parser stack2 "a" r1
      = Some (r2, w2) /\
      r2 !! "a" = Some (value_a, l2) /\ type l2 = sample_class "fill" /\
      bucket l2 = Some b /\
      forall k, k <> "a"%string -> r2 !! k = r1 !! k.
Proof.
  apply (at_sample reparse_restores_own_type sample_parser 3 [] "a"
           sample_layers value_a (mk_layer "a" OtherLayerType None)
           (JString "b") "b" "fill").
  - constructor.
  - intros y Hy. inversion Hy.
  - vm_compute. lia.
  - reflexivity.
  - reflexivity.
  - reflexivity.
  - reflexivity.
  - reflexivity.
  - reflexivity.
  - eexists. reflexivity.
Defined.

(** "a" and "b" of [sample_cycle] refer to each other. *)
Lemma circular_reference_leaves_no_bucket_witness :
  exists r ws,
    sample_parseLayer 3 sample_parser [] "a" sample_cycle = Some (r, ws) /\
    (exists v l', r !! "a" = Some (v, l') /\ bucket l' = None) /\
    exists x, In (CircularReference x) ws.
Proof.
  apply (at_sample circular_reference_leaves_no_bucket sample_parser 3 []
           "a" sample_cycle).
  - constructor.
  - intros y Hy. inversion Hy.
  - vm_compute. lia.
  - eapply back_by_ref with
      (v := value_a) (l := mk_layer "a" OtherLayerType None)
      (r := JString "b") (ref := "b"%string); try reflexivity.
    eapply back_by_ref with
      (v := value_b_back) (l := mk_layer "b" OtherLayerType None)
      (r := JString "a") (ref := "a"%string); try reflexivity.
    eapply back_on_stack with
      (v := value_a) (l := mk_layer "a" OtherLayerType None);
      try reflexivity.
    right. left. reflexivity.
Defined.

(** [sample_layers] traversed as "a", "b". *)
Lemma parseLayers_gives_buckets_witness :
  exists r ws,
    sample_parseLayers 3 sample_parser ["a"; "b"] sample_layers
      = Some (r, ws) /\
    preserves sample_layers r /\
    (forall lid v l,
       In lid ["a"; "b"] -> sample_layers !! lid = Some (v, l) ->
       member v "ref" = None ->
       exists l' b, r !! lid = Some (v, l') /\ bucket l' = Some b /\
                    name b = id l) /\
    (forall k v l b,
       r !! k = Some (v, l) -> bucket l = Some b ->
       exists k' v' l',
         r !! k' = Some (v', l') /\ member v' "ref" = None /\
         bucket l' = Some b /\ name b = id l').
Proof.
  apply (at_sample parseLayers_gives_buckets sample_parser 3 ["a"; "b"]
           sample_layers).
  - vm_compute. lia.
  - apply sample_layers_unbucketed.
Defined.

End StyleLayersFacts.
